(** * image-utils: levels adjustment (level.py), levels matching (match.py)
    and mode negotiation (modes.py)

    A shallow embedding of the numeric core of the repository.

    Numbers.  The program computes on IEEE binary64 values held in numpy
    arrays.  The embedding keeps the four classes of values the source can
    produce, finite numbers, the two infinities and NaN, gives every
    arithmetic operation its IEEE result on the special values, and
    identifies the two zeros, a zero behaving as +0.  Finite results come
    in two readings.  The operations [fadd], [fsub], [fmul], [fdiv] and
    [fpow] at the head of the file compute them exactly; they carry the
    statements that do not depend on rounding: equations between
    expressions, the flow of data and errors through match.py, and values
    that binary64 computes exactly.  The module [Binary64] rounds every
    finite result to nearest, ties to even, with gradual underflow and
    overflow to infinity, and takes the C library's [pow] as a parameter;
    it carries the statements on the order and the range of computed
    values. *)

From Stdlib Require Import Reals Lra Lia ZArith String.
From stdpp Require Import base option list.

Open Scope R_scope.

(** ** Floating-point values *)

Inductive float64 : Type :=
| Fin (r : R)
| PInf
| NInf
| NaN.

Inductive sign : Type := Neg | Zero | Pos.

Definition Rsign (r : R) : sign :=
  if Rlt_dec 0 r then Pos else if Rlt_dec r 0 then Neg else Zero.

Definition fneg (a : float64) : float64 :=
  match a with
  | Fin r => Fin (- r)
  | PInf => NInf
  | NInf => PInf
  | NaN => NaN
  end.

Definition fadd (a b : float64) : float64 :=
  match a, b with
  | NaN, _ | _, NaN => NaN
  | Fin x, Fin y => Fin (x + y)
  | PInf, NInf | NInf, PInf => NaN
  | PInf, _ | _, PInf => PInf
  | NInf, _ | _, NInf => NInf
  end.

Definition fsub (a b : float64) : float64 := fadd a (fneg b).

(** An infinity of sign [s] ([Zero] standing for an invalid operation). *)
Definition inf_of (s : sign) : float64 :=
  match s with Pos => PInf | Neg => NInf | Zero => NaN end.

Definition sign_mul (s t : sign) : sign :=
  match s, t with
  | Zero, _ | _, Zero => Zero
  | Pos, Pos | Neg, Neg => Pos
  | Pos, Neg | Neg, Pos => Neg
  end.

Definition fmul (a b : float64) : float64 :=
  match a, b with
  | NaN, _ | _, NaN => NaN
  | Fin x, Fin y => Fin (x * y)
  | Fin x, PInf | PInf, Fin x => inf_of (Rsign x)
  | Fin x, NInf | NInf, Fin x => inf_of (sign_mul Neg (Rsign x))
  | PInf, PInf | NInf, NInf => PInf
  | PInf, NInf | NInf, PInf => NInf
  end.

Definition fdiv (a b : float64) : float64 :=
  match a, b with
  | NaN, _ | _, NaN => NaN
  | Fin x, Fin y =>
      if Req_dec_T y 0 then inf_of (Rsign x) else Fin (x / y)
  | Fin _, PInf | Fin _, NInf => Fin 0
  | PInf, Fin y => if Rlt_dec y 0 then NInf else PInf
  | NInf, Fin y => if Rlt_dec y 0 then PInf else NInf
  | PInf, PInf | PInf, NInf | NInf, PInf | NInf, NInf => NaN
  end.

(** [np.maximum] and [np.minimum]: a NaN operand gives NaN. *)
Definition fmax (a b : float64) : float64 :=
  match a, b with
  | NaN, _ | _, NaN => NaN
  | PInf, _ | _, PInf => PInf
  | NInf, c | c, NInf => c
  | Fin x, Fin y => Fin (Rmax x y)
  end.

Definition fmin (a b : float64) : float64 :=
  match a, b with
  | NaN, _ | _, NaN => NaN
  | NInf, _ | _, NInf => NInf
  | PInf, c | c, PInf => c
  | Fin x, Fin y => Fin (Rmin x y)
  end.

(** [np.clip(a, lo, hi)] is [np.minimum(np.maximum(a, lo), hi)]. *)
Definition fclip (a lo hi : float64) : float64 := fmin (fmax a lo) hi.

Definition is_integer (y : R) : bool :=
  if Req_dec_T (IZR (Int_part y)) y then true else false.

Definition is_odd_integer (y : R) : bool :=
  is_integer y && Z.odd (Int_part y).

(** [x ** y] on finite operands, the part of C [pow] without infinities. *)
Definition fpow_fin (x y : R) : float64 :=
  match Rsign y with
  | Zero => Fin 1
  | sy =>
      match Rsign x with
      | Pos => Fin (Rpower x y)
      | Zero => match sy with Neg => PInf | _ => Fin 0 end
      | Neg => if is_integer y then Fin (powerRZ x (Int_part y)) else NaN
      end
  end.

(** The position of [|x|] relative to 1. *)
Definition Rabs_vs_one (x : R) : sign :=
  Rsign (Rabs x - 1).

(** [np.power] on float64, following C [pow]: [x ** 0] and [1 ** y] are 1
    even on a NaN operand. *)
Definition fpow (a b : float64) : float64 :=
  match a, b with
  | Fin x, Fin y => fpow_fin x y
  | NaN, Fin y => if Req_dec_T y 0 then Fin 1 else NaN
  | Fin x, NaN => if Req_dec_T x 1 then Fin 1 else NaN
  | NaN, _ | _, NaN => NaN
  | Fin x, PInf =>
      match Rabs_vs_one x with Neg => Fin 0 | Zero => Fin 1 | Pos => PInf end
  | Fin x, NInf =>
      match Rabs_vs_one x with Neg => PInf | Zero => Fin 1 | Pos => Fin 0 end
  | PInf, PInf | NInf, PInf => PInf
  | PInf, NInf | NInf, NInf => Fin 0
  | PInf, Fin y =>
      match Rsign y with Zero => Fin 1 | Pos => PInf | Neg => Fin 0 end
  | NInf, Fin y =>
      match Rsign y with
      | Zero => Fin 1
      | Pos => if is_odd_integer y then NInf else PInf
      | Neg => Fin 0
      end
  end.

(** IEEE [<=]: NaN is unordered. *)
Definition fle (a b : float64) : Prop :=
  match a, b with
  | NaN, _ | _, NaN => False
  | NInf, _ | _, PInf => True
  | Fin x, Fin y => x <= y
  | _, _ => False
  end.

(** A finite value within [[lo, hi]]. *)
Definition in_range (lo hi : R) (a : float64) : Prop :=
  match a with
  | Fin r => lo <= r <= hi
  | _ => False
  end.

(** ** numpy arrays

    An array is the row-major list of its elements: [x.size] is its length
    and [x.ravel()] the list itself.  A scalar operand is broadcast. *)

Abbreviation ndarray := (list float64) (only parsing).

Definition np_subtract (a : ndarray) (s : float64) : ndarray :=
  map (fun v => fsub v s) a.
Definition np_divide (a : ndarray) (s : float64) : ndarray :=
  map (fun v => fdiv v s) a.
Definition np_multiply (a : ndarray) (s : float64) : ndarray :=
  map (fun v => fmul v s) a.
Definition np_add (a : ndarray) (s : float64) : ndarray :=
  map (fun v => fadd v s) a.
Definition np_power (a : ndarray) (s : float64) : ndarray :=
  map (fun v => fpow v s) a.
Definition np_clip (a : ndarray) (lo hi : float64) : ndarray :=
  map (fun v => fclip v lo hi) a.

(** ** level.py *)

Record LevelsAdjustment : Type := mkLevelsAdjustment {
  input_black : float64;
  input_white : float64;
  output_black : float64;
  output_white : float64;
  gamma : float64
}.

(** [level_array], line 41: [**] binds tighter than [*], and [*] than [+]. *)
Definition level_array (array : ndarray)
    (input_black input_white output_black output_white gamma : float64)
    : ndarray :=
  np_clip
    (np_add
       (np_multiply
          (np_power
             (np_clip
                (np_divide (np_subtract array input_black)
                   (fsub input_white input_black))
                (Fin 0) (Fin 1))
             gamma)
          (fsub output_white output_black))
       output_black)
    (Fin 0) (Fin 1).

(** The tone-curve model as the specification words it, in three steps on
    one value: clamp and rescale, raise to gamma, rescale and clamp. *)
Definition tone_curve_spec (x ib iw ob ow g : float64) : float64 :=
  let t := fclip (fdiv (fsub x ib) (fsub iw ib)) (Fin 0) (Fin 1) in
  let t := fpow t g in
  fclip (fadd (fmul t (fsub ow ob)) ob) (Fin 0) (Fin 1).

Definition astuple (adj : LevelsAdjustment) : list float64 :=
  [input_black adj; input_white adj; output_black adj; output_white adj;
   gamma adj].

(** ** Exceptions, results and effects *)

Inductive exn : Type :=
| ValueError (msg : string)
| RuntimeError (msg : string)
| TypeError (msg : string).

(** What running a computation comes to: a value, a raised exception, or
    a wait that never ends ([Blocked], which is also the state of a future
    whose task has not finished). *)
Inductive outcome (A : Type) : Type :=
| Return (a : A)
| Raise (e : exn)
| Blocked.
Arguments Return {A} a.
Arguments Raise {A} e.
Arguments Blocked {A}.

Inductive method : Type := lm | trf | dogbox.

Inductive resample : Type := NEAREST | BILINEAR | BICUBIC | LANCZOS.

(** The arguments of one call of [scipy.optimize.curve_fit]. *)
Record fit_call : Type := mkFit {
  fit_f : ndarray -> float64 -> float64 -> float64 -> float64 -> float64
          -> ndarray;
  fit_xdata : ndarray;
  fit_ydata : ndarray;
  fit_method : method;
  fit_xtol : float64;
  fit_p0 : list float64;
  fit_bounds : list float64 * list float64
}.

(** The observable effects: a solver run, and a line printed. *)
Inductive event : Type :=
| EvFit (c : fit_call)
| EvPrint (label : string) (t : list float64).

(** Computations that log events and may raise. *)
Definition M (A : Type) : Type := (list event * outcome A)%type.

Definition ret {A : Type} (a : A) : M A := ([], Return a).

(** A call that terminates either raises ([inl]) or returns ([inr]). *)
Definition of_call {A : Type} (r : exn + A) : outcome A :=
  match r with inl e => Raise e | inr a => Return a end.

Definition lift {A : Type} (r : exn + A) : M A := ([], of_call r).

Definition bind {A B : Type} (m : M A) (f : A -> M B) : M B :=
  match m with
  | (evs, Return a) => let (evs', o) := f a in (evs ++ evs', o)
  | (evs, Raise e) => (evs, Raise e)
  | (evs, Blocked) => (evs, Blocked)
  end.

Notation "x <- m ;; k" := (bind m (fun x => k))
  (at level 100, m at next level, right associativity).
Notation "m ;;; k" := (bind m (fun _ => k))
  (at level 100, right associativity).

Fixpoint mapM {A B : Type} (f : A -> M B) (l : list A) : M (list B) :=
  match l with
  | [] => ret []
  | a :: l' => b <- f a ;; bs <- mapM f l' ;; ret (b :: bs)
  end.

Definition events {A : Type} (m : M A) : list event := fst m.
Definition result {A : Type} (m : M A) : outcome A := snd m.

Definition is_fit (ev : event) : bool :=
  match ev with EvFit _ => true | EvPrint _ _ => false end.

(** ** numpy helpers of match.py *)

(** [np.linspace(start, stop, num)] with the endpoint included.  A single
    sample is [start] alone; in exact arithmetic the last of several
    samples is [stop] without numpy's explicit overwrite. *)
Definition np_linspace (start stop : R) (num : Z) : exn + ndarray :=
  if (num <? 0)%Z
  then inl (ValueError "Number of samples must be non-negative.")
  else
    let div := (num - 1)%Z in
    let delta := stop - start in
    inr
      (map (fun i : nat =>
              if (0 <? div)%Z
              then Fin (INR i * (delta / IZR div) + start)
              else Fin (INR i * delta + start))
         (seq 0 (Z.to_nat num))).

(** [x.size] *)
Definition ndarray_size (x : ndarray) : Z := Z.of_nat (length x).

(** [x.ravel()] *)
Definition ravel (x : ndarray) : ndarray := x.

(** [LevelsAdjustment] applied to the unpacked [popt]: five positional
    arguments or a TypeError. *)
Definition LevelsAdjustment_star (popt : list float64)
    : exn + LevelsAdjustment :=
  match popt with
  | [a; b; c; d; e] => inr (mkLevelsAdjustment a b c d e)
  | _ => inl (TypeError "LevelsAdjustment.__new__() takes 5 arguments")
  end.

(** The box of the fit: [bounds=([0, 0, 0, 0, 0], [1, 1, 1, 1, np.inf])]. *)
Definition level_bounds : list float64 * list float64 :=
  ([Fin 0; Fin 0; Fin 0; Fin 0; Fin 0], [Fin 1; Fin 1; Fin 1; Fin 1; PInf]).

(** [p] lies in the box [(lb, ub)], component by component. *)
Definition within_bounds (bounds : list float64 * list float64)
    (p : list float64) : Prop :=
  Forall3 (fun l v u => fle l v /\ fle v u) (fst bounds) p (snd bounds).

(** Boolean [<=] on floats, for the executable reference solver below. *)
Definition fleb (a b : float64) : bool :=
  match a, b with
  | NaN, _ | _, NaN => false
  | NInf, _ | _, PInf => true
  | Fin x, Fin y => if Rle_dec x y then true else false
  | _, _ => false
  end.

Fixpoint feasible (lb p ub : list float64) : bool :=
  match lb, p, ub with
  | [], [], [] => true
  | l :: lb', v :: p', u :: ub' => fleb l v && fleb v u && feasible lb' p' ub'
  | _, _, _ => false
  end.

(** A solver that stops at its seed: it rejects an infeasible [p0] as
    scipy does and otherwise returns [p0] as the optimum.  It serves as a
    concrete solver in examples. *)
Definition seed_solver (c : fit_call) : exn + list float64 :=
  if feasible (fst (fit_bounds c)) (fit_p0 c) (snd (fit_bounds c))
  then inr (fit_p0 c)
  else inl (ValueError "x0 is infeasible.").

(** A solver that never converges. *)
Definition failing_solver (c : fit_call) : exn + list float64 :=
  inl (RuntimeError "Optimal parameters not found").

(** ** PIL images *)

Module Image.
(** An image: [size] is (width, height), [getbands] the band names of
    the mode, [split] the pixel array of every band ([np.asarray] of the
    single-band images). *)
Record t : Type := mk {
  size : Z * Z;
  getbands : list string;
  split : list ndarray
}.
End Image.

(** A resize that keeps the bands and only records the new size; a
    concrete stand-in for [Image.resize] in examples. *)
Definition crop_resize (im : Image.t) (new_size : Z * Z) (r : resample)
    : exn + Image.t :=
  inr (Image.mk new_size (Image.getbands im) (Image.split im)).

(** ** concurrent.futures

    The pool runs the submitted tasks to completion in an order of its
    own choosing: at each step [pick] selects one of the pending tasks.
    A finished task stores its outcome, exception included, in its own
    future; the events of the tasks appear in completion order. *)

Fixpoint run_tasks {A : Type} (pick : nat -> nat) (n : nat)
    (pending : list (nat * M A)) (futures : list (outcome A))
    : list event * list (outcome A) :=
  match n with
  | O => ([], futures)
  | S n' =>
      let k := (pick n' mod length pending)%nat in
      match pending !! k with
      | None => ([], futures)
      | Some (i, task) =>
          let (evs, futures') :=
            run_tasks pick n' (delete k pending)
              (<[i := result task]> futures) in
          (events task ++ evs, futures')
      end
  end.

Definition future_done {A : Type} (future : outcome A) : bool :=
  match future with Blocked => false | _ => true end.

(** [with ThreadPoolExecutor() as executor: futures = [executor.submit(..)]]:
    leaving the block waits for every task, so the block is left only
    once every future is done. *)
Definition submit_all {A : Type} (pick : nat -> nat) (tasks : list (M A))
    : M (list (outcome A)) :=
  let (evs, futures) :=
    run_tasks pick (length tasks) (imap (fun i task => (i, task)) tasks)
      (replicate (length tasks) Blocked) in
  (evs, if forallb future_done futures then Return futures else Blocked).

(** [future.result()]: the value of a finished task, or its exception
    raised again. *)
Definition future_result {A : Type} (future : outcome A) : M A :=
  ([], future).

(** ** match.py *)

Section Match.

(** [np.quantile(x, q)] *)
Variable quantile : ndarray -> ndarray -> exn + ndarray.
(** [scipy.optimize.curve_fit]: the fitted parameters [popt], or the
    exception raised. *)
Variable curve_fit : fit_call -> exn + list float64.
(** [Image.resize(size, resample=...)] *)
Variable resize : Image.t -> Z * Z -> resample -> exn + Image.t.
(** The completion order chosen by the thread pool. *)
Variable pick : nat -> nat.

Definition run_curve_fit (c : fit_call) : M (list float64) :=
  ([EvFit c], of_call (curve_fit c)).

Definition match_histogram (x y : ndarray)
    (xtol : option float64) (samples : option Z) : M LevelsAdjustment :=
  let xtol := default (Fin (1 / 1024)) xtol in
  let samples := default 2048%Z samples in
  qx <- lift (np_linspace 0 1 samples) ;;
  xq <- lift (quantile x qx) ;;
  let xdata := np_divide xq (Fin 255) in
  qy <- lift (np_linspace 0 1 samples) ;;
  yq <- lift (quantile y qy) ;;
  let ydata := np_divide yq (Fin 255) in
  popt <- run_curve_fit
    (mkFit level_array xdata ydata dogbox xtol
       [Fin 0; Fin 1; Fin 0; Fin 1; Fin 1]
       ([Fin 0; Fin 0; Fin 0; Fin 0; Fin 0],
        [Fin 1; Fin 1; Fin 1; Fin 1; PInf])) ;;
  lift (LevelsAdjustment_star popt).

Definition match_array (x y : ndarray)
    (xtol : option float64) (samples : option Z) : M LevelsAdjustment :=
  let xtol := default (Fin (1 / 1024)) xtol in
  let samples := default 2048%Z samples in
  p0 <- (if (samples <? ndarray_size x)%Z
         then adj <- match_histogram x y (Some (Fin (1 / 256)))
                       (Some samples) ;;
              ret (astuple adj)
         else ret [Fin 0; Fin 1; Fin 0; Fin 1; Fin 1]) ;;
  let xdata := np_divide (ravel x) (Fin 255) in
  let ydata := np_divide (ravel y) (Fin 255) in
  popt <- run_curve_fit
    (mkFit level_array xdata ydata dogbox xtol p0
       ([Fin 0; Fin 0; Fin 0; Fin 0; Fin 0],
        [Fin 1; Fin 1; Fin 1; Fin 1; PInf])) ;;
  lift (LevelsAdjustment_star popt).

(** [print(b + ":", t)] with
    [t = tuple(list(np.multiply(adj, 255))[:4] + [adj[4]])]. *)
Definition print_band (b : string) (adj : LevelsAdjustment) : M unit :=
  let t := take 4 (np_multiply (astuple adj) (Fin 255)) ++ [gamma adj] in
  ([EvPrint (b ++ ":") t], Return tt).

(** Lines 83 to 96 of [match_images]: the fits of the zipped bands on a
    pool, the results read back in submission order, the report. *)
Definition match_bands (x y : Image.t) (histogram : bool)
    : M (list LevelsAdjustment) :=
  let match_ := if negb histogram then match_array else match_histogram in
  futures <- submit_all pick
    (map (fun xy : ndarray * ndarray => match_ (fst xy) (snd xy) None None)
       (zip (Image.split x) (Image.split y))) ;;
  results <- mapM future_result futures ;;
  mapM (fun badj : string * LevelsAdjustment =>
          print_band (fst badj) (snd badj))
    (zip (Image.getbands x) results) ;;;
  ret results.

(** Lines 76 to 80: both images resized down when their sizes differ. *)
Definition resize_to_match (x y : Image.t) : M (Image.t * Image.t) :=
  if decide (Image.size x <> Image.size y)
  then
    let new_size :=
      (Z.min (fst (Image.size x)) (fst (Image.size y)),
       Z.min (snd (Image.size x)) (snd (Image.size y))) in
    x' <- lift (resize x new_size BICUBIC) ;;
    y' <- lift (resize y new_size BICUBIC) ;;
    ret (x', y')
  else ret (x, y).

Definition match_images (x y : Image.t) (histogram : bool)
    : M (list LevelsAdjustment) :=
  xy <- resize_to_match x y ;;
  match_bands (fst xy) (snd xy) histogram.

End Match.

(** ** The fitting strategies as the specification words them *)



(** The bounded fit on the pixel pairs themselves, from the guess [seed]. *)
Definition pixel_fit_spec (curve_fit : fit_call -> exn + list float64)
    (x y : ndarray) (tolerance : float64) (seed : list float64)
    : M LevelsAdjustment :=
  popt <- run_curve_fit curve_fit
    (mkFit level_array (np_divide x (Fin 255)) (np_divide y (Fin 255))
       dogbox tolerance seed level_bounds) ;;
  lift (LevelsAdjustment_star popt).

(** ** The per-channel tasks of [match_images] *)

(** The fit of one channel pair as [match_images] selects it:
    [match_array] unless [histogram] is set, with the default tolerance
    and sample count. *)
Definition channel_fit
    (quantile : ndarray -> ndarray -> exn + ndarray)
    (curve_fit : fit_call -> exn + list float64)
    (histogram : bool) (bx by_ : ndarray) : M LevelsAdjustment :=
  (if negb histogram
   then match_array quantile curve_fit
   else match_histogram quantile curve_fit) bx by_ None None.

(** The tasks [match_images] submits for a pair of images, in channel
    order. *)
Definition channel_tasks
    (quantile : ndarray -> ndarray -> exn + ndarray)
    (curve_fit : fit_call -> exn + list float64)
    (x y : Image.t) (histogram : bool) : list (M LevelsAdjustment) :=
  (fun xy : list float64 * list float64 =>
     channel_fit quantile curve_fit histogram (fst xy) (snd xy))
  <$> zip (Image.split x) (Image.split y).

(** ** Example images *)

(** One gray pixel, one gray pixel with alpha, and a row of two gray
    pixels. *)
Definition gray_pixel : Image.t :=
  Image.mk (1, 1)%Z ["L"%string] [[Fin 0]].

Definition gray_alpha_pixel : Image.t :=
  Image.mk (1, 1)%Z ["L"%string; "A"%string] [[Fin 0]; [Fin 255]].

Definition gray_row : Image.t :=
  Image.mk (2, 1)%Z ["L"%string] [[Fin 0; Fin 255]].

Definition identity_adjustment : LevelsAdjustment :=
  mkLevelsAdjustment (Fin 0) (Fin 1) (Fin 0) (Fin 1) (Fin 1).

(** ** level.py: [level_image] *)

(** [np.rint] on a real number: the nearest integer, a tie going to the
    even neighbour. *)
Definition Rrint (r : R) : Z :=
  let f := Int_part r in
  let d := r - IZR f in
  if Rlt_dec d (1 / 2) then f
  else if Rlt_dec (1 / 2) d then (f + 1)%Z
  else if Z.even f then f else (f + 1)%Z.

(** [np.rint] leaves infinities and NaN as they are. *)
Definition frint (a : float64) : float64 :=
  match a with
  | Fin r => Fin (IZR (Rrint r))
  | _ => a
  end.

Definition np_rint (a : ndarray) : ndarray := map frint a.

(** [np.concatenate] of one-dimensional arrays: an empty sequence of
    arrays is rejected. *)
Definition np_concatenate (arrays : list ndarray) : exn + ndarray :=
  match arrays with
  | [] => inl (ValueError "need at least one array to concatenate")
  | _ => inr (concat arrays)
  end.

(** The lookup table of [level_image], line 53: for every adjustment the
    256 levels of [np.linspace(0, 1, 256)] through [level_array], scaled
    to 255 and rounded, all concatenated. *)
Definition level_image_table (adjustments : list LevelsAdjustment)
    : M ndarray :=
  arrays <- mapM
    (fun t : LevelsAdjustment =>
       levels <- lift (np_linspace 0 1 256) ;;
       ret (np_rint
              (np_multiply
                 (level_array levels (input_black t) (input_white t)
                    (output_black t) (output_white t) (gamma t))
                 (Fin 255))))
    adjustments ;;
  lift (np_concatenate arrays).

(** [level_image]; [point] stands for [Image.point]. *)
Definition level_image (point : Image.t -> list float64 -> exn + Image.t)
    (image : Image.t) (adjustments : list LevelsAdjustment) : M Image.t :=
  table <- level_image_table adjustments ;;
  lift (point image table).

(** The 8-bit value of the tone curve of [t] at the 8-bit level [i]. *)
Definition table_entry (t : LevelsAdjustment) (i : nat) : float64 :=
  frint
    (fmul
       (tone_curve_spec (Fin (INR i / 255)) (input_black t) (input_white t)
          (output_black t) (output_white t) (gamma t))
       (Fin 255)).

(** An integer value between 0 and 255. *)
Definition is_uint8 (a : float64) : Prop :=
  exists k : Z, a = Fin (IZR k) /\ (0 <= k <= 255)%Z.

(** A point operation that leaves the image as it is; a concrete stand-in
    for [Image.point] in examples. *)
Definition keep_point (im : Image.t) (table : list float64)
    : exn + Image.t :=
  inr im.

(** The line reported for band [b] with fit [adj]: the four black and
    white points scaled to 255, gamma as it is. *)
Definition print_line (badj : string * LevelsAdjustment) : event :=
  let adj := snd badj in
  EvPrint (fst badj ++ ":")
    [fmul (input_black adj) (Fin 255); fmul (input_white adj) (Fin 255);
     fmul (output_black adj) (Fin 255); fmul (output_white adj) (Fin 255);
     gamma adj].

(** ** IEEE binary64 rounding *)

(** [2 ^ e] *)
Definition bpow (e : Z) : R := powerRZ 2 e.

Arguments bpow : simpl never.

(** The exponent of the last place of a magnitude [r], searched downwards
    from [n - 1074]: the largest [e] with [2 ^ (e + 52) <= r], and -1074
    for the subnormal magnitudes. *)
Fixpoint ulp_exp (n : nat) (r : R) : Z :=
  match n with
  | O => (-1074)%Z
  | S n' =>
      if Rle_dec (bpow (Z.of_nat (S n') - 1022)) r
      then (Z.of_nat (S n') - 1074)%Z
      else ulp_exp n' r
  end.

(** The exponents of binary64 run from -1074 to 971. *)
Definition fexp (r : R) : Z := ulp_exp 2045 r.

Arguments fexp : simpl never.

(** The multiple of [2 ^ fexp r] nearest to a magnitude [r], ties to the
    even multiple. *)
Definition rvalue (r : R) : R :=
  IZR (Rrint (r / bpow (fexp r))) * bpow (fexp r).

(** Round to nearest, ties to even, of a magnitude: a result of [2 ^ 1024]
    or more overflows. *)
Definition round_pos (r : R) : float64 :=
  if Rle_dec (bpow 1024) (rvalue r) then PInf else Fin (rvalue r).

Definition round64 (r : R) : float64 :=
  if Rle_dec 0 r then round_pos r else fneg (round_pos (- r)).

(** The real numbers that are binary64 values. *)
Definition representable (r : R) : Prop := round64 r = Fin r.

(** A float that is a binary64 value: an infinity, NaN, or a representable
    finite number. *)
Definition is_float (a : float64) : Prop :=
  match a with
  | Fin r => representable r
  | _ => True
  end.

(** A finite float. *)
Definition is_finite (a : float64) : Prop := exists r, a = Fin r.

Module Binary64.

(** The four operations: the exact result of finite operands is rounded,
    the special values are those of the exact operations. *)
Definition fadd (a b : float64) : float64 :=
  match a, b with
  | NaN, _ | _, NaN => NaN
  | Fin x, Fin y => round64 (x + y)
  | PInf, NInf | NInf, PInf => NaN
  | PInf, _ | _, PInf => PInf
  | NInf, _ | _, NInf => NInf
  end.

Definition fsub (a b : float64) : float64 := fadd a (fneg b).

Definition fmul (a b : float64) : float64 :=
  match a, b with
  | NaN, _ | _, NaN => NaN
  | Fin x, Fin y => round64 (x * y)
  | Fin x, PInf | PInf, Fin x => inf_of (Rsign x)
  | Fin x, NInf | NInf, Fin x => inf_of (sign_mul Neg (Rsign x))
  | PInf, PInf | NInf, NInf => PInf
  | PInf, NInf | NInf, PInf => NInf
  end.

Definition fdiv (a b : float64) : float64 :=
  match a, b with
  | NaN, _ | _, NaN => NaN
  | Fin x, Fin y =>
      if Req_dec_T y 0 then inf_of (Rsign x) else round64 (x / y)
  | Fin _, PInf | Fin _, NInf => Fin 0
  | PInf, Fin y => if Rlt_dec y 0 then NInf else PInf
  | NInf, Fin y => if Rlt_dec y 0 then PInf else NInf
  | PInf, PInf | PInf, NInf | NInf, PInf | NInf, NInf => NaN
  end.

(** [a == 0] *)
Definition is_zero (a : float64) : bool :=
  match a with
  | Fin r => if Req_dec_T r 0 then true else false
  | _ => false
  end.

Definition np_subtract (a : list float64) (s : float64) : list float64 :=
  map (fun v => fsub v s) a.
Definition np_divide (a : list float64) (s : float64) : list float64 :=
  map (fun v => fdiv v s) a.
Definition np_multiply (a : list float64) (s : float64) : list float64 :=
  map (fun v => fmul v s) a.
Definition np_add (a : list float64) (s : float64) : list float64 :=
  map (fun v => fadd v s) a.

Section Level.

(** [pow] of the C library, which [np.power] applies to every element. *)
Variable pow : float64 -> float64 -> float64.

Definition np_power (a : list float64) (s : float64) : list float64 :=
  map (fun v => pow v s) a.

(** [level_array], line 41, every operation rounded. *)
Definition level_array (array : list float64)
    (input_black input_white output_black output_white gamma : float64)
    : list float64 :=
  np_clip
    (np_add
       (np_multiply
          (np_power
             (np_clip
                (np_divide (np_subtract array input_black)
                   (fsub input_white input_black))
                (Fin 0) (Fin 1))
             gamma)
          (fsub output_white output_black))
       output_black)
    (Fin 0) (Fin 1).

(** [level_array] on one element. *)
Definition tone_curve (x ib iw ob ow g : float64) : float64 :=
  fclip
    (fadd
       (fmul (pow (fclip (fdiv (fsub x ib) (fsub iw ib)) (Fin 0) (Fin 1)) g)
          (fsub ow ob))
       ob)
    (Fin 0) (Fin 1).

End Level.

(** [np.linspace(start, stop, num)] with the endpoint included, as numpy
    computes it: the step [(stop - start) / (num - 1)] is rounded, the
    i-th sample is [i * step + start] with both operations rounded (a zero
    step makes it [i / (num - 1) * (stop - start) + start]), and the last
    of several samples is set to [stop]. *)
Definition np_linspace (start stop : float64) (num : Z)
    : exn + list float64 :=
  if (num <? 0)%Z
  then inl (ValueError "Number of samples must be non-negative.")
  else
    let div := (num - 1)%Z in
    let delta := fsub stop start in
    let y := map (fun i : nat => Fin (INR i)) (seq 0 (Z.to_nat num)) in
    let y :=
      if (0 <? div)%Z
      then
        let step := fdiv delta (Fin (IZR div)) in
        if is_zero step
        then np_multiply (np_divide y (Fin (IZR div))) delta
        else np_multiply y step
      else np_multiply y delta in
    let y := np_add y start in
    inr (if (1 <? num)%Z then <[Z.to_nat (num - 1) := stop]> y else y).

(** The k-th of the 256 levels of [np.linspace(0, 1, 256)]: [k] times the
    rounded step 1/255, rounded, and 1 for the last. *)
Definition level_of (k : nat) : float64 :=
  if (k =? 255)%nat then Fin 1
  else fmul (Fin (INR k)) (fdiv (Fin 1) (Fin 255)).

Section Table.

Variable pow : float64 -> float64 -> float64.

(** The lookup table of [level_image], line 53. *)
Definition level_image_table (adjustments : list LevelsAdjustment)
    : M (list float64) :=
  arrays <- mapM
    (fun t : LevelsAdjustment =>
       levels <- lift (np_linspace (Fin 0) (Fin 1) 256) ;;
       ret (np_rint
              (np_multiply
                 (level_array pow levels (input_black t) (input_white t)
                    (output_black t) (output_white t) (gamma t))
                 (Fin 255))))
    adjustments ;;
  lift (np_concatenate arrays).

(** [level_image]; [point] stands for [Image.point]. *)
Definition level_image (point : Image.t -> list float64 -> exn + Image.t)
    (image : Image.t) (adjustments : list LevelsAdjustment) : M Image.t :=
  table <- level_image_table adjustments ;;
  lift (point image table).

(** The table entry of adjustment [t] at level [k]. *)
Definition table_entry (t : LevelsAdjustment) (k : nat) : float64 :=
  frint
    (fmul
       (tone_curve pow (level_of k) (input_black t) (input_white t)
          (output_black t) (output_white t) (gamma t))
       (Fin 255)).

End Table.

End Binary64.

(** An adjustment within its documented ranges: the four points binary64
    values of [[0, 1]], gamma positive. *)
Definition documented (t : LevelsAdjustment) : Prop :=
  exists ib iw ob ow g : R,
    t = mkLevelsAdjustment (Fin ib) (Fin iw) (Fin ob) (Fin ow) (Fin g) /\
    representable ib /\ representable iw /\
    representable ob /\ representable ow /\
    0 <= ib <= 1 /\ 0 <= iw <= 1 /\ 0 <= ob <= 1 /\ 0 <= ow <= 1 /\
    0 < g.

(** What C99 (Annex F) fixes of [pow]: [x ** 0] and [1 ** y] are 1 for
    every operand, [0 ** y] is 0 for a positive [y], and a NaN base gives
    NaN unless the exponent is zero. *)
Definition pow_special_values (pow : float64 -> float64 -> float64) : Prop :=
  (forall a, pow a (Fin 0) = Fin 1) /\
  (forall b, pow (Fin 1) b = Fin 1) /\
  (forall g, 0 < g -> pow (Fin 0) (Fin g) = Fin 0) /\
  (forall g, g <> 0 -> pow NaN (Fin g) = NaN).

(** [pow] with the exponent [g] is nondecreasing in its base on the
    binary64 values of the unit interval. *)
Definition pow_monotone (pow : float64 -> float64 -> float64) (g : R)
    : Prop :=
  forall s t : R,
    representable s -> representable t -> 0 <= s <= t -> t <= 1 ->
    fle (pow (Fin s) (Fin g)) (pow (Fin t) (Fin g)).

(** A correctly rounded [pow]; it serves as a concrete [pow] in
    examples. *)
Definition pow_cr (a b : float64) : float64 :=
  match fpow a b with
  | Fin r => round64 r
  | v => v
  end.

(** ** modes.py *)

Module Modes.

(** The exceptions of modes.py: a failed dictionary lookup, its own
    ValueError (also that of a failed [reshape]), and whatever a call into
    PIL raises. *)
Inductive error : Type :=
| KeyError (key : string)
| ValueError (msg : string)
| Foreign (e : exn).

(** The dictionary keeps its insertion order, which [superset_mode]
    iterates in; the sets are only tested for membership. *)
Definition SUPPORTED_MODES : list (string * list string) :=
  [("1", ["1"]);
   ("L", ["1"; "L"]);
   ("LA", ["1"; "L"; "LA"]);
   ("P", []);
   ("RGB", ["1"; "L"; "P"; "RGB"]);
   ("PA", []);
   ("RGBA", ["1"; "L"; "LA"; "P"; "PA"; "RGB"; "RGBA"])]%string.

Definition GRAYSCALE_MODES : list string := ["1"; "L"; "LA"]%string.

Definition ALPHA_CHANNEL_MODES : list string := ["LA"; "PA"; "RGBA"]%string.

(** [m in s] for a set of modes. *)
Definition mem (m : string) (s : list string) : bool :=
  existsb (String.eqb m) s.

(** [m in SUPPORTED_MODES] *)
Definition has_key (m : string) : bool :=
  existsb (fun kv : string * list string => String.eqb m (fst kv))
    SUPPORTED_MODES.

(** [SUPPORTED_MODES[key]] *)
Definition getitem (key : string) : error + list string :=
  match find (fun kv : string * list string => String.eqb key (fst kv))
          SUPPORTED_MODES with
  | Some kv => inr (snd kv)
  | None => inl (KeyError key)
  end.

(** An image as modes.py reads it: its mode, its palette if it has one,
    and the values of [np.asarray(image)] in row-major order. *)
Record image : Type := mk {
  mode : string;
  getpalette : option (list Z);
  asarray : list Z
}.

Fixpoint rows_of (fuel n : nat) (data : list Z) : list (list Z) :=
  match fuel with
  | O => []
  | S fuel' =>
      match data with
      | [] => []
      | _ => take n data :: rows_of fuel' n (drop n data)
      end
  end.

(** [data.reshape((-1, n))]: the rows of [n] values, or numpy's
    ValueError when the values do not fill whole rows. *)
Definition reshape (data : list Z) (n : nat) : error + list (list Z) :=
  if (n =? 0)%nat then inl (ValueError "cannot reshape array")
  else if (length data mod n =? 0)%nat
       then inr (rows_of (length data) n data)
       else inl (ValueError "cannot reshape array").

Section Inspect.

(** Lines 43 to 53 of [is_grayscale], the path of images with a palette:
    it works on PIL palette objects, which are not modelled, so its
    outcome is a parameter. *)
Variable palette_path : image -> list Z -> exn + bool.

Definition is_grayscale (im : image) : error + bool :=
  if mem (mode im) GRAYSCALE_MODES then inr true
  else
    match getpalette im with
    | Some palette =>
        match palette_path im palette with
        | inl e => inl (Foreign e)
        | inr b => inr b
        end
    | None =>
        if negb (String.eqb (mode im) "RGB")
           && negb (String.eqb (mode im) "RGBA")
        then inl (ValueError ("Unsupported image mode " ++ mode im))
        else
          match reshape (asarray im) (String.length (mode im)) with
          | inl e => inl e
          | inr rows =>
              let colors := map (take 3) rows in
              if existsb
                   (fun color : list Z =>
                      existsb (fun c => negb (c =? hd 0%Z color)%Z) color)
                   colors
              then inr false
              else inr true
          end
    end.

Definition has_alpha (im : image) : error + bool :=
  if mem (mode im) ALPHA_CHANNEL_MODES
  then
    match reshape (asarray im) (String.length (mode im)) with
    | inl e => inl e
    | inr rows =>
        let band := map (fun row : list Z => List.last row 0%Z) rows in
        if existsb (fun v => negb (v =? 255)%Z) band
        then inr true
        else inr false
    end
  else inr false.

End Inspect.

Definition superset_mode (mode_1 mode_2 : string) : error + option string :=
  match getitem mode_1 with
  | inl e => inl e
  | inr s1 =>
      if mem mode_2 s1 then inr (Some mode_1)
      else
        match getitem mode_2 with
        | inl e => inl e
        | inr s2 =>
            if mem mode_1 s2 then inr (Some mode_2)
            else
              inr (option_map fst
                     (find (fun kv : string * list string =>
                              mem mode_1 (snd kv) && mem mode_2 (snd kv))
                        SUPPORTED_MODES))
        end
  end.

(** Computations of [determine_common_mode]: the warnings issued so far
    and a value or an exception. *)
Definition W (A : Type) : Type := (list string * (error + A))%type.

Definition wret {A : Type} (a : A) : W A := ([], inr a).

Definition wlift {A : Type} (r : error + A) : W A := ([], r).

Definition warn (msg : string) : W unit := ([msg], inr tt).

Definition wbind {A B : Type} (m : W A) (f : A -> W B) : W B :=
  match m with
  | (w, inr a) => let (w', r) := f a in (w ++ w', r)
  | (w, inl e) => (w, inl e)
  end.

(** The fallbacks for modes that are no key of [SUPPORTED_MODES]. *)
Definition fallback_mode (current_mode : string) : string :=
  if String.eqb current_mode "La" then "LA"
  else if String.eqb current_mode "RGBa" then "RGBA"
  else if String.eqb current_mode "I" || String.eqb current_mode "F"
          || String.prefix "I;" current_mode
       then "L"
       else "RGB".

Definition warning_message (image_mode current_mode : string) : string :=
  "Unsupported image mode " ++ image_mode ++ ", converting to "
  ++ current_mode.

Definition empirical_mode (grayscale alpha : bool) : string :=
  (if grayscale then "L" else "RGB") ++ (if alpha then "A" else "").

Section Determine.

Variable palette_path : image -> list Z -> exn + bool.
(** [image.convert(mode)] *)
Variable convert : image -> string -> exn + image.

Definition foreign {A : Type} (r : exn + A) : error + A :=
  match r with inl e => inl (Foreign e) | inr a => inr a end.

(** One turn of the loop of [determine_common_mode], lines 106 to 129. *)
Definition determine_step (common_mode : option string) (im : image)
    : W (option string) :=
  wbind
    (if negb (has_key (mode im))
     then
       let current_mode := fallback_mode (mode im) in
       wbind (warn (warning_message (mode im) current_mode))
         (fun _ => wret current_mode)
     else wret (mode im))
    (fun current_mode =>
  wbind
    (wlift (match common_mode with
            | Some c => inr c
            | None => inl (KeyError "None")
            end))
    (fun c =>
  wbind (wlift (getitem c)) (fun supported =>
  if negb (mem current_mode supported)
  then
    wbind
      (if negb (String.eqb (mode im) current_mode)
       then wlift (foreign (convert im current_mode))
       else wret im)
      (fun im' =>
    wbind (wlift (is_grayscale palette_path im')) (fun grayscale =>
    wbind (wlift (has_alpha im')) (fun alpha =>
    wlift (superset_mode c (empirical_mode grayscale alpha)))))
  else wret common_mode))).

Fixpoint determine_loop (common_mode : option string) (images : list image)
    : W (option string) :=
  match images with
  | [] => wret common_mode
  | im :: rest =>
      wbind (determine_step common_mode im)
        (fun common_mode' => determine_loop common_mode' rest)
  end.

Definition determine_common_mode (images : list image) : W (option string) :=
  determine_loop (Some "1"%string) images.

(** The mode an image counts as: its own when that is a key, its
    fallback otherwise. *)
Definition effective_mode (im : image) : string :=
  if has_key (mode im) then mode im else fallback_mode (mode im).

(** The warning an image causes, if any. *)
Definition step_warnings (im : image) : list string :=
  if has_key (mode im) then []
  else [warning_message (mode im) (fallback_mode (mode im))].

(** The empirical mode found for an image: converted to its effective
    mode when that differs from its own, then inspected for gray pixels
    and alpha. *)
Definition inspected (im : image) : error + string :=
  match (if String.eqb (mode im) (effective_mode im)
         then inr im
         else foreign (convert im (effective_mode im))) with
  | inl e => inl e
  | inr im' =>
      match is_grayscale palette_path im' with
      | inl e => inl e
      | inr grayscale =>
          match has_alpha im' with
          | inl e => inl e
          | inr alpha => inr (empirical_mode grayscale alpha)
          end
      end
  end.

(** Mode [m] can hold image [im]: its set has the effective mode of the
    image, or the empirical mode found for it. *)
Definition supports (m : string) (im : image) : Prop :=
  exists s,
    getitem m = inr s /\
    (mem (effective_mode im) s = true
     \/ exists e, inspected im = inr e /\ mem e s = true).

End Determine.

(** The modes a common mode can be. *)
Definition common_modes : list string :=
  ["1"; "L"; "LA"; "RGB"; "RGBA"]%string.

End Modes.

(** * Properties *)

(** ** Arithmetic on float values *)

(** Case analysis on every comparison of reals that blocks evaluation. *)
Ltac rcases :=
  repeat match goal with
    | |- context [Rlt_dec ?a ?b] => destruct (Rlt_dec a b)
    | |- context [Rle_dec ?a ?b] => destruct (Rle_dec a b)
    | |- context [Req_dec_T ?a ?b] => destruct (Req_dec_T a b)
    | H : context [Rlt_dec ?a ?b] |- _ => destruct (Rlt_dec a b)
    | H : context [Rle_dec ?a ?b] |- _ => destruct (Rle_dec a b)
    | H : context [Req_dec_T ?a ?b] |- _ => destruct (Req_dec_T a b)
    end.

Lemma Rsign_pos (r : R) : 0 < r -> Rsign r = Pos.
Proof. intros H. unfold Rsign. rcases; [reflexivity | lra | lra]. Qed.

Lemma Rsign_neg (r : R) : r < 0 -> Rsign r = Neg.
Proof. intros H. unfold Rsign. rcases; try lra; reflexivity. Qed.

Lemma Rsign_zero : Rsign 0 = Zero.
Proof. unfold Rsign. rcases; try lra; reflexivity. Qed.

Lemma fclip_unit_fin (r : R) :
  fclip (Fin r) (Fin 0) (Fin 1) = Fin (Rmin (Rmax r 0) 1).
Proof. reflexivity. Qed.

Lemma Rclip_unit_bounds (r : R) : 0 <= Rmin (Rmax r 0) 1 <= 1.
Proof.
  unfold Rmin, Rmax. rcases; lra.
Qed.

(** Clamping to [[0, 1]] is monotone and lands on finite values of the
    unit interval, whatever ordered pair of floats it is given. *)
Lemma fclip_unit_mono (a b : float64) :
  fle a b ->
  exists s t, fclip a (Fin 0) (Fin 1) = Fin s /\
              fclip b (Fin 0) (Fin 1) = Fin t /\ 0 <= s <= t /\ t <= 1.
Proof.
  destruct a as [r| | |], b as [r'| | |]; simpl; intros H;
    try contradiction; eexists; eexists;
    (split; [reflexivity | split; [reflexivity |]]);
    unfold Rmin, Rmax; rcases; lra.
Qed.

Lemma Rpower_one (g : R) : Rpower 1 g = 1.
Proof. unfold Rpower. rewrite ln_1, Rmult_0_r. apply exp_0. Qed.

Lemma Rpower_unit (t g : R) : 0 < t <= 1 -> 0 < g -> 0 < Rpower t g <= 1.
Proof.
  intros Ht Hg. split.
  - unfold Rpower. apply exp_pos.
  - rewrite <- (Rpower_one g). apply Rle_Rpower_l; lra.
Qed.

(** Raising to a positive power is monotone on the unit interval and
    stays within it. *)
Lemma fpow_unit_mono (s t g : R) :
  0 <= s <= t -> t <= 1 -> 0 < g ->
  exists p q, fpow (Fin s) (Fin g) = Fin p /\
              fpow (Fin t) (Fin g) = Fin q /\ 0 <= p <= q /\ q <= 1.
Proof.
  intros Hst Ht Hg. simpl. unfold fpow_fin. rewrite (Rsign_pos g Hg).
  destruct (Rlt_dec 0 s) as [Hs|Hs].
  - rewrite (Rsign_pos s Hs), (Rsign_pos t) by lra.
    exists (Rpower s g), (Rpower t g).
    pose proof (Rpower_unit s g). pose proof (Rpower_unit t g).
    assert (Rpower s g <= Rpower t g) by (apply Rle_Rpower_l; lra).
    repeat split; lra.
  - assert (s = 0) by lra. subst s. rewrite Rsign_zero.
    destruct (Rlt_dec 0 t) as [Ht0|Ht0].
    + rewrite (Rsign_pos t Ht0). exists 0, (Rpower t g).
      pose proof (Rpower_unit t g). repeat split; lra.
    + assert (t = 0) by lra. subst t. rewrite Rsign_zero.
      exists 0, 0. repeat split; lra.
Qed.

Lemma output_stage_range (p ob ow : R) :
  in_range 0 1
    (fclip (fadd (fmul (Fin p) (fsub (Fin ow) (Fin ob))) (Fin ob))
       (Fin 0) (Fin 1)).
Proof. simpl. apply Rclip_unit_bounds. Qed.

Lemma Rclip_unit_id (t : R) : 0 <= t <= 1 -> Rmin (Rmax t 0) 1 = t.
Proof. intros H. unfold Rmin, Rmax. rcases; lra. Qed.

Lemma fpow_zero_exponent (a : float64) : fpow a (Fin 0) = Fin 1.
Proof.
  destruct a; simpl; unfold fpow_fin; rewrite ?Rsign_zero;
    try reflexivity.
  destruct (Req_dec_T 0 0); [reflexivity | lra].
Qed.

(** ** Rounding to the nearest integer *)

Lemma Int_part_IZR (k : Z) : Int_part (IZR k) = k.
Proof. symmetry. apply Int_part_spec. lra. Qed.

Lemma Int_part_le (r s : R) : r <= s -> (Int_part r <= Int_part s)%Z.
Proof.
  intros H. destruct (base_Int_part r) as [Hr _].
  destruct (base_Int_part s) as [_ Hs].
  assert (Hlt : IZR (Int_part r) < IZR (Int_part s + 1))
    by (rewrite plus_IZR; lra).
  apply lt_IZR in Hlt. lia.
Qed.

Lemma Rrint_IZR (k : Z) : Rrint (IZR k) = k.
Proof.
  unfold Rrint. rewrite Int_part_IZR.
  destruct (Rlt_dec (IZR k - IZR k) (1 / 2)); [reflexivity | lra].
Qed.

Lemma Rrint_floor (r : R) :
  (Int_part r <= Rrint r <= Int_part r + 1)%Z.
Proof.
  unfold Rrint. rcases; try lia. destruct (Z.even _); lia.
Qed.

Lemma Rrint_mono (r s : R) : r <= s -> (Rrint r <= Rrint s)%Z.
Proof.
  intros H. pose proof (Int_part_le r s H) as Hf.
  destruct (Z.eq_dec (Int_part r) (Int_part s)) as [E|Hne].
  - unfold Rrint. rewrite E.
    rcases; try lia; try lra; destruct (Z.even _); lia.
  - pose proof (Rrint_floor r). pose proof (Rrint_floor s). lia.
Qed.

Lemma Rrint_uint8 (r : R) : 0 <= r <= 255 -> (0 <= Rrint r <= 255)%Z.
Proof.
  intros [H0 H1]. apply Rrint_mono in H0. apply Rrint_mono in H1.
  rewrite Rrint_IZR in H0, H1. lia.
Qed.

(** ** IEEE binary64 rounding *)

Lemma bpow_pos (e : Z) : 0 < bpow e.
Proof. apply powerRZ_lt. lra. Qed.

Lemma bpow_add (e1 e2 : Z) : bpow (e1 + e2) = bpow e1 * bpow e2.
Proof. apply powerRZ_add. lra. Qed.

Lemma bpow_IZR (e : Z) : (0 <= e)%Z -> bpow e = IZR (2 ^ e).
Proof.
  intros H. unfold bpow. rewrite <- (Z2Nat.id e H) at 1.
  rewrite <- pow_powerRZ, pow_IZR, Z2Nat.id by exact H. reflexivity.
Qed.

Lemma bpow_ge_1 (e : Z) : (0 <= e)%Z -> 1 <= bpow e.
Proof.
  intros H. rewrite bpow_IZR by exact H. apply IZR_le.
  pose proof (Z.pow_pos_nonneg 2 e). lia.
Qed.

Lemma bpow_le (e1 e2 : Z) : (e1 <= e2)%Z -> bpow e1 <= bpow e2.
Proof.
  intros H. replace e2 with (e1 + (e2 - e1))%Z by lia. rewrite bpow_add.
  pose proof (bpow_pos e1).
  pose proof (bpow_ge_1 (e2 - e1) ltac:(lia)). nra.
Qed.

Lemma bpow_lt (e1 e2 : Z) : (e1 < e2)%Z -> bpow e1 < bpow e2.
Proof.
  intros H. replace e2 with (e1 + 1 + (e2 - e1 - 1))%Z by lia.
  rewrite !bpow_add.
  pose proof (bpow_pos e1).
  pose proof (bpow_ge_1 (e2 - e1 - 1) ltac:(lia)).
  assert (E : bpow 1 = 2) by (unfold bpow; simpl; lra).
  rewrite E. nra.
Qed.

Lemma bpow_lt_inv (e1 e2 : Z) : bpow e1 < bpow e2 -> (e1 < e2)%Z.
Proof.
  intros H. destruct (Z_lt_le_dec e1 e2) as [Hlt|Hle]; [exact Hlt |].
  apply bpow_le in Hle. lra.
Qed.

Lemma bpow_0 : bpow 0 = 1.
Proof. reflexivity. Qed.

Lemma bpow_inv (e : Z) : bpow e * bpow (- e) = 1.
Proof.
  rewrite <- bpow_add. replace (e + - e)%Z with 0%Z by lia. reflexivity.
Qed.

Lemma Rdiv_bpow (r : R) (e : Z) : r / bpow e = r * bpow (- e).
Proof.
  pose proof (bpow_pos e). pose proof (bpow_inv e).
  unfold Rdiv. f_equal. apply Rmult_eq_reg_l with (bpow e); [| lra].
  rewrite Rinv_r by lra. lra.
Qed.

(** The exponent found by the search. *)
Lemma ulp_exp_range (n : nat) (r : R) :
  (-1074 <= ulp_exp n r <= Z.of_nat n - 1074)%Z.
Proof.
  induction n as [|n IH]; [simpl; lia |].
  cbn [ulp_exp]. destruct (Rle_dec _ r); lia.
Qed.

Lemma ulp_exp_lower (n : nat) (r : R) :
  ulp_exp n r = (-1074)%Z \/ bpow (ulp_exp n r + 52) <= r.
Proof.
  induction n as [|n IH]; [left; reflexivity |].
  cbn [ulp_exp]. destruct (Rle_dec _ r) as [H|H]; [right | exact IH].
  replace (Z.of_nat (S n) - 1074 + 52)%Z with (Z.of_nat (S n) - 1022)%Z
    by lia.
  exact H.
Qed.

Lemma ulp_exp_upper (n : nat) (r : R) :
  ulp_exp n r = (Z.of_nat n - 1074)%Z \/ r < bpow (ulp_exp n r + 53).
Proof.
  induction n as [|n IH]; [left; reflexivity |].
  cbn [ulp_exp]. destruct (Rle_dec _ r) as [H|H]; [left; reflexivity |].
  right. destruct IH as [E|IH]; [| exact IH].
  rewrite E. replace (Z.of_nat n - 1074 + 53)%Z
    with (Z.of_nat (S n) - 1022)%Z by lia.
  lra.
Qed.

Lemma ulp_exp_mono (n : nat) (x y : R) :
  x <= y -> (ulp_exp n x <= ulp_exp n y)%Z.
Proof.
  intros H. induction n as [|n IH]; [reflexivity |].
  cbn [ulp_exp]. destruct (Rle_dec _ x) as [Hx|Hx];
    destruct (Rle_dec _ y) as [Hy|Hy]; try lia; try lra.
  pose proof (ulp_exp_range n x). lia.
Qed.

Lemma fexp_range (r : R) : (-1074 <= fexp r <= 971)%Z.
Proof. unfold fexp. pose proof (ulp_exp_range 2045 r). lia. Qed.

Lemma fexp_lower (r : R) : fexp r = (-1074)%Z \/ bpow (fexp r + 52) <= r.
Proof. apply ulp_exp_lower. Qed.

Lemma fexp_upper (r : R) : fexp r = 971%Z \/ r < bpow (fexp r + 53).
Proof.
  unfold fexp. destruct (ulp_exp_upper 2045 r) as [E|H]; [left | right; auto].
  rewrite E. reflexivity.
Qed.

Lemma fexp_mono (x y : R) : x <= y -> (fexp x <= fexp y)%Z.
Proof. apply ulp_exp_mono. Qed.

Lemma Rrint_le_IZR (r : R) (k : Z) : r <= IZR k -> (Rrint r <= k)%Z.
Proof. intros H. apply Rrint_mono in H. rewrite Rrint_IZR in H. exact H. Qed.

Lemma Rrint_ge_IZR (r : R) (k : Z) : IZR k <= r -> (k <= Rrint r)%Z.
Proof. intros H. apply Rrint_mono in H. rewrite Rrint_IZR in H. exact H. Qed.

Lemma Rdiv_bpow_le (r : R) (e k : Z) :
  r <= bpow (e + k) -> r / bpow e <= bpow k.
Proof.
  intros H. pose proof (bpow_pos e). rewrite bpow_add in H.
  apply Rmult_le_reg_r with (bpow e); [lra |].
  unfold Rdiv. rewrite Rmult_assoc, Rinv_l by lra. lra.
Qed.

Lemma Rdiv_bpow_ge (r : R) (e k : Z) :
  bpow (e + k) <= r -> bpow k <= r / bpow e.
Proof.
  intros H. pose proof (bpow_pos e). rewrite bpow_add in H.
  apply Rmult_le_reg_r with (bpow e); [lra |].
  unfold Rdiv. rewrite Rmult_assoc, Rinv_l by lra. lra.
Qed.

Lemma rvalue_nonneg (r : R) : 0 <= r -> 0 <= rvalue r.
Proof.
  intros H. unfold rvalue. pose proof (bpow_pos (fexp r)) as Hb.
  assert (Hq : IZR 0 <= r / bpow (fexp r)).
  { unfold Rdiv. apply Rmult_le_pos; [exact H |].
    apply Rlt_le, Rinv_0_lt_compat, Hb. }
  apply Rrint_ge_IZR, IZR_le in Hq. nra.
Qed.

Lemma rvalue_upper (r : R) :
  r <= bpow (fexp r + 53) -> rvalue r <= bpow (fexp r + 53).
Proof.
  intros H. unfold rvalue. pose proof (bpow_pos (fexp r)) as Hb.
  apply Rdiv_bpow_le in H. rewrite (bpow_IZR 53) in H by lia.
  apply Rrint_le_IZR, IZR_le in H. rewrite <- bpow_IZR in H by lia.
  rewrite bpow_add. nra.
Qed.

Lemma rvalue_lower (r : R) :
  bpow (fexp r + 52) <= r -> bpow (fexp r + 52) <= rvalue r.
Proof.
  intros H. unfold rvalue. pose proof (bpow_pos (fexp r)) as Hb.
  apply Rdiv_bpow_ge in H. rewrite (bpow_IZR 52) in H by lia.
  apply Rrint_ge_IZR, IZR_le in H. rewrite <- bpow_IZR in H by lia.
  rewrite bpow_add. nra.
Qed.

(** Rounding of magnitudes is monotone, also across a change of exponent. *)
Lemma rvalue_mono (x y : R) : 0 <= x <= y -> rvalue x <= rvalue y.
Proof.
  intros [Hx Hxy]. pose proof (fexp_mono x y Hxy) as He.
  destruct (Z.eq_dec (fexp x) (fexp y)) as [E|Hne].
  - unfold rvalue. rewrite E. pose proof (bpow_pos (fexp y)) as Hb.
    assert (Hq : x / bpow (fexp y) <= y / bpow (fexp y)).
    { unfold Rdiv. apply Rmult_le_compat_r; [| exact Hxy].
      apply Rlt_le, Rinv_0_lt_compat, Hb. }
    apply Rrint_mono, IZR_le in Hq. nra.
  - assert (Hlt : (fexp x < fexp y)%Z) by lia.
    pose proof (fexp_range x). pose proof (fexp_range y).
    destruct (fexp_upper x) as [E|Hux]; [lia |].
    destruct (fexp_lower y) as [E|Hly]; [lia |].
    pose proof (rvalue_upper x (Rlt_le _ _ Hux)).
    pose proof (rvalue_lower y Hly).
    pose proof (bpow_le (fexp x + 53) (fexp y + 52) ltac:(lia)). lra.
Qed.

Lemma round_pos_mono (x y : R) :
  0 <= x <= y -> fle (round_pos x) (round_pos y).
Proof.
  intros H. pose proof (rvalue_mono x y H). unfold round_pos.
  destruct (Rle_dec (bpow 1024) (rvalue x));
    destruct (Rle_dec (bpow 1024) (rvalue y)); simpl; auto; lra.
Qed.

Lemma round_pos_nonneg (r : R) : 0 <= r -> fle (Fin 0) (round_pos r).
Proof.
  intros H. pose proof (rvalue_nonneg r H). unfold round_pos.
  destruct (Rle_dec _ _); simpl; auto.
Qed.

Lemma fle_fneg (a b : float64) : fle a b -> fle (fneg b) (fneg a).
Proof.
  destruct a, b; simpl; auto; lra.
Qed.

Lemma fle_trans (a b c : float64) : fle a b -> fle b c -> fle a c.
Proof.
  destruct a, b, c; simpl; auto; try lra; try contradiction.
Qed.

(** Rounding is monotone. *)
Lemma round64_mono (x y : R) : x <= y -> fle (round64 x) (round64 y).
Proof.
  intros H. unfold round64.
  destruct (Rle_dec 0 x) as [Hx|Hx]; destruct (Rle_dec 0 y) as [Hy|Hy].
  - apply round_pos_mono. lra.
  - lra.
  - pose proof (round_pos_nonneg (- x) ltac:(lra)) as H1.
    pose proof (round_pos_nonneg y Hy) as H2.
    destruct (round_pos (- x)), (round_pos y); simpl in *; auto; lra.
  - apply fle_fneg, round_pos_mono. lra.
Qed.

Lemma round64_not_nan (r : R) : round64 r <> NaN.
Proof.
  intros E. pose proof (round64_mono r r (Rle_refl r)) as H.
  rewrite E in H. exact H.
Qed.

Lemma rvalue_0 : rvalue 0 = 0.
Proof.
  unfold rvalue. unfold Rdiv. rewrite Rmult_0_l, Rrint_IZR. lra.
Qed.

Lemma round64_0 : round64 0 = Fin 0.
Proof.
  unfold round64. destruct (Rle_dec 0 0) as [_|H]; [| lra].
  unfold round_pos. rewrite rvalue_0.
  destruct (Rle_dec (bpow 1024) 0) as [H|_]; [| reflexivity].
  pose proof (bpow_pos 1024). lra.
Qed.

Lemma round64_opp (r : R) : round64 (- r) = fneg (round64 r).
Proof.
  unfold round64.
  destruct (Rle_dec 0 r) as [Hr|Hr]; destruct (Rle_dec 0 (- r)) as [Hn|Hn];
    try lra.
  - assert (r = 0) by lra. subst r. rewrite Ropp_0.
    unfold round_pos. rewrite rvalue_0.
    destruct (Rle_dec (bpow 1024) 0) as [H|_];
      [pose proof (bpow_pos 1024); lra |].
    simpl. f_equal. lra.
  - rewrite Ropp_involutive. reflexivity.
  - destruct (round_pos (- r)); simpl; try reflexivity. f_equal. lra.
Qed.

(** A scaled integer below [2 ^ 53] within the exponent range is a
    binary64 value. *)
Lemma rvalue_scaled (n e : Z) :
  (0 <= n < 2 ^ 53)%Z -> (-1074 <= e)%Z ->
  rvalue (IZR n * bpow e) = IZR n * bpow e.
Proof.
  intros Hn He. set (r := IZR n * bpow e).
  destruct (Z.eq_dec n 0%Z) as [->|Hn0].
  { subst r. rewrite Rmult_0_l. apply rvalue_0. }
  assert (Hle : (fexp r <= e)%Z).
  { destruct (fexp_lower r) as [E|Hl]; [lia |].
    assert (Hlt : r < bpow (e + 53)).
    { subst r. rewrite bpow_add, (bpow_IZR 53) by lia.
      pose proof (bpow_pos e). assert (IZR n < IZR (2 ^ 53))
        by (apply IZR_lt; lia). nra. }
    assert (bpow (fexp r + 52) < bpow (e + 53)) by lra.
    apply bpow_lt_inv in H. lia. }
  unfold rvalue. fold r. set (ex := fexp r) in *.
  assert (Eq : r / bpow ex = IZR (n * 2 ^ (e - ex))).
  { subst r. rewrite Rdiv_bpow, mult_IZR, <- bpow_IZR by lia.
    rewrite Rmult_assoc, <- bpow_add.
    replace (e + - ex)%Z with (e - ex)%Z by lia. reflexivity. }
  rewrite Eq, Rrint_IZR, mult_IZR, <- bpow_IZR by lia.
  subst r. rewrite Rmult_assoc, <- bpow_add.
  replace (e - ex + ex)%Z with e by lia. reflexivity.
Qed.

Lemma round64_scaled (n e : Z) :
  (0 <= n < 2 ^ 53)%Z -> (-1074 <= e)%Z ->
  IZR n * bpow e < bpow 1024 ->
  round64 (IZR n * bpow e) = Fin (IZR n * bpow e).
Proof.
  intros Hn He Hlt. unfold round64. pose proof (bpow_pos e).
  assert (0 <= IZR n) by (apply IZR_le; lia).
  destruct (Rle_dec 0 (IZR n * bpow e)) as [_|Hneg]; [| nra].
  unfold round_pos. rewrite rvalue_scaled by assumption.
  destruct (Rle_dec _ _); [lra | reflexivity].
Qed.

Lemma representable_opp (r : R) : representable r -> representable (- r).
Proof.
  unfold representable. intros H. rewrite round64_opp, H. reflexivity.
Qed.

Lemma representable_scaled (n e : Z) :
  (Z.abs n < 2 ^ 53)%Z -> (-1074 <= e)%Z ->
  Rabs (IZR n * bpow e) < bpow 1024 ->
  representable (IZR n * bpow e).
Proof.
  intros Hn He Hlt. unfold representable.
  destruct (Z_le_gt_dec 0 n) as [Hpos|Hneg].
  - apply round64_scaled; [lia | exact He |].
    pose proof (Rle_abs (IZR n * bpow e)). lra.
  - replace (IZR n * bpow e) with (- (IZR (- n) * bpow e))
      by (rewrite opp_IZR; lra).
    apply representable_opp. apply round64_scaled; [lia | exact He |].
    rewrite opp_IZR. replace (- IZR n * bpow e) with (- (IZR n * bpow e))
      by lra.
    pose proof (Rle_abs (- (IZR n * bpow e))). rewrite Rabs_Ropp in H. lra.
Qed.

Lemma representable_IZR (n : Z) :
  (Z.abs n < 2 ^ 53)%Z -> representable (IZR n).
Proof.
  intros H. replace (IZR n) with (IZR n * bpow 0) by (rewrite bpow_0; lra).
  apply representable_scaled; [exact H | lia |].
  rewrite bpow_0, Rmult_1_r, <- abs_IZR.
  apply Rlt_le_trans with (IZR (2 ^ 53)); [apply IZR_lt; exact H |].
  rewrite <- bpow_IZR by lia. apply bpow_le. lia.
Qed.

Lemma representable_0 : representable 0.
Proof. apply (representable_IZR 0). reflexivity. Qed.

Lemma representable_1 : representable 1.
Proof. apply (representable_IZR 1). reflexivity. Qed.

Lemma representable_255 : representable 255.
Proof. apply (representable_IZR 255). reflexivity. Qed.

Lemma representable_bpow (e : Z) :
  (-1074 <= e < 1024)%Z -> representable (bpow e).
Proof.
  intros H. replace (bpow e) with (IZR 1 * bpow e) by lra.
  apply representable_scaled; [reflexivity | lia |].
  rewrite Rmult_1_l, Rabs_pos_eq by apply Rlt_le, bpow_pos.
  apply bpow_lt. lia.
Qed.

(** The result of rounding is a binary64 value. *)
Lemma rvalue_representable (r : R) :
  0 <= r -> rvalue r < bpow 1024 -> representable (rvalue r).
Proof.
  intros Hr Hlt. pose proof (fexp_range r) as He.
  pose proof (bpow_pos (fexp r)) as Hb.
  assert (Hq : IZR 0 <= r / bpow (fexp r)).
  { unfold Rdiv. apply Rmult_le_pos; [exact Hr |].
    apply Rlt_le, Rinv_0_lt_compat, Hb. }
  apply Rrint_ge_IZR in Hq.
  assert (Hm : (Rrint (r / bpow (fexp r)) <= 2 ^ 53)%Z).
  { destruct (fexp_upper r) as [E|Hu].
    - apply le_IZR. rewrite <- bpow_IZR by lia.
      unfold rvalue in Hlt. rewrite E in *.
      replace 1024%Z with (53 + 971)%Z in Hlt by lia.
      rewrite bpow_add in Hlt. nra.
    - apply Rrint_le_IZR. rewrite <- bpow_IZR by lia.
      apply Rdiv_bpow_le. rewrite Z.add_comm in Hu |- *.
      replace (53 + fexp r)%Z with (fexp r + 53)%Z in * by lia. lra. }
  destruct (Z.eq_dec (Rrint (r / bpow (fexp r))) (2 ^ 53)%Z) as [E|Hne].
  - assert (Ev : rvalue r = bpow (fexp r + 53)).
    { unfold rvalue. rewrite E, bpow_add, (bpow_IZR 53) by lia. lra. }
    rewrite Ev in *. apply representable_bpow.
    apply bpow_lt_inv in Hlt. lia.
  - unfold rvalue in *. apply representable_scaled; [lia | lia |].
    rewrite Rabs_pos_eq; [exact Hlt |].
    apply Rmult_le_pos; [apply IZR_le; lia | lra].
Qed.

Lemma round64_representable (r r' : R) :
  round64 r = Fin r' -> representable r'.
Proof.
  unfold round64.
  destruct (Rle_dec 0 r) as [Hr|Hr]; unfold round_pos;
    destruct (Rle_dec (bpow 1024) _) as [Ho|Ho]; simpl; try discriminate;
    intros E; injection E as <-.
  - apply rvalue_representable; lra.
  - apply representable_opp, rvalue_representable; lra.
Qed.

Lemma round64_is_float (r : R) : is_float (round64 r).
Proof.
  destruct (round64 r) as [r'| | |] eqn:E; simpl; auto.
  exact (round64_representable r r' E).
Qed.

(** Every binary64 value is a multiple of [2 ^ -1074]. *)
Lemma representable_grid (r : R) :
  representable r -> exists m : Z, r = IZR m * bpow (-1074).
Proof.
  assert (Hpos : forall x, 0 <= x ->
            exists m : Z, rvalue x = IZR m * bpow (-1074)).
  { intros x Hx. pose proof (fexp_range x) as He.
    exists (Rrint (x / bpow (fexp x)) * 2 ^ (fexp x + 1074))%Z.
    unfold rvalue. rewrite mult_IZR, <- bpow_IZR by lia.
    rewrite Rmult_assoc, <- bpow_add.
    replace (fexp x + 1074 + -1074)%Z with (fexp x) by lia. reflexivity. }
  unfold representable, round64.
  destruct (Rle_dec 0 r) as [Hr|Hr]; unfold round_pos;
    destruct (Rle_dec (bpow 1024) _) as [Ho|Ho]; simpl; try discriminate;
    intros E; injection E as E.
  - destruct (Hpos r Hr) as [m Hm]. exists m. lra.
  - destruct (Hpos (- r) ltac:(lra)) as [m Hm]. exists (- m)%Z.
    rewrite opp_IZR. lra.
Qed.

(** Two distinct binary64 values differ by at least [2 ^ -1074], which
    is a binary64 value: their rounded difference is not zero. *)
Lemma round64_difference (x y : R) :
  representable x -> representable y -> x < y ->
  fle (Fin (bpow (-1074))) (round64 (y - x)).
Proof.
  intros Hx Hy Hlt.
  destruct (representable_grid x Hx) as [mx Ex].
  destruct (representable_grid y Hy) as [my Ey].
  pose proof (bpow_pos (-1074)) as Hb.
  assert (Hm : (mx + 1 <= my)%Z).
  { assert (IZR mx < IZR my) by nra. apply lt_IZR in H. lia. }
  apply IZR_le in Hm. rewrite plus_IZR in Hm.
  rewrite <- (representable_bpow (-1074)) by lia.
  apply round64_mono. nra.
Qed.

(** Rounding keeps a number between binary64 bounds. *)
Lemma round64_bounds (lo hi r : R) :
  representable lo -> representable hi -> lo <= r <= hi ->
  exists r', round64 r = Fin r' /\ lo <= r' <= hi.
Proof.
  intros Hlo Hhi [H1 H2].
  apply round64_mono in H1, H2. rewrite Hlo in H1. rewrite Hhi in H2.
  destruct (round64 r) as [r'| | |]; simpl in *; try contradiction.
  exists r'. auto.
Qed.

Lemma round64_1 : round64 1 = Fin 1.
Proof. exact representable_1. Qed.

(** ** The rounded operations *)

Lemma fle_PInf (a : float64) : a <> NaN -> fle a PInf.
Proof. destruct a; simpl; auto. Qed.

Lemma fle_NInf (a : float64) : a <> NaN -> fle NInf a.
Proof. destruct a; simpl; auto. Qed.

Lemma fsub_fin (x y : R) :
  Binary64.fsub (Fin x) (Fin y) = round64 (x - y).
Proof. reflexivity. Qed.

Lemma fadd_is_float (a b : float64) : is_float (Binary64.fadd a b).
Proof.
  destruct a, b; simpl; auto. apply round64_is_float.
Qed.

Lemma fsub_is_float (a b : float64) : is_float (Binary64.fsub a b).
Proof. apply fadd_is_float. Qed.

Lemma fdiv_is_float (a b : float64) : is_float (Binary64.fdiv a b).
Proof.
  destruct a as [x| | |], b as [y| | |]; simpl; auto.
  - destruct (Req_dec_T y 0); [destruct (Rsign x); simpl; auto |].
    apply round64_is_float.
  - apply representable_0.
  - apply representable_0.
  - destruct (Rlt_dec y 0); simpl; auto.
  - destruct (Rlt_dec y 0); simpl; auto.
Qed.

Lemma fadd_mono (a b : float64) (c : R) :
  fle a b ->
  fle (Binary64.fadd a (Fin c)) (Binary64.fadd b (Fin c)).
Proof.
  destruct a as [x| | |], b as [y| | |]; simpl; intros H;
    try contradiction; auto.
  - apply round64_mono. lra.
  - apply fle_PInf, round64_not_nan.
  - apply fle_NInf, round64_not_nan.
Qed.

Lemma fsub_mono (a b : float64) (c : R) :
  fle a b ->
  fle (Binary64.fsub a (Fin c)) (Binary64.fsub b (Fin c)).
Proof. apply fadd_mono. Qed.

Lemma fdiv_mono (a b : float64) (d : R) :
  0 < d -> fle a b ->
  fle (Binary64.fdiv a (Fin d)) (Binary64.fdiv b (Fin d)).
Proof.
  intros Hd.
  destruct a as [x| | |], b as [y| | |]; simpl; intros H;
    try contradiction; auto;
    repeat match goal with
      | |- context [Req_dec_T d 0] => destruct (Req_dec_T d 0); [lra |]
      | |- context [Rlt_dec d 0] => destruct (Rlt_dec d 0); [lra |]
      end; simpl; auto.
  - apply round64_mono. unfold Rdiv. apply Rmult_le_compat_r; [| exact H].
    apply Rlt_le, Rinv_0_lt_compat, Hd.
  - apply fle_PInf, round64_not_nan.
  - apply fle_NInf, round64_not_nan.
Qed.

(** Dividing by a negative number reverses the order. *)
Lemma fdiv_anti (a b : float64) (d : R) :
  d < 0 -> fle a b ->
  fle (Binary64.fdiv b (Fin d)) (Binary64.fdiv a (Fin d)).
Proof.
  intros Hd.
  destruct a as [x| | |], b as [y| | |]; simpl; intros H;
    try contradiction; auto;
    repeat match goal with
      | |- context [Req_dec_T d 0] => destruct (Req_dec_T d 0); [lra |]
      | |- context [Rlt_dec d 0] => destruct (Rlt_dec d 0); [| lra]
      end; simpl; auto.
  - apply round64_mono. unfold Rdiv.
    pose proof (Rinv_lt_0_compat d Hd). nra.
  - apply fle_NInf, round64_not_nan.
  - apply fle_PInf, round64_not_nan.
Qed.

Lemma fclip_unit_fle (a b : float64) :
  fle a b -> fle (fclip a (Fin 0) (Fin 1)) (fclip b (Fin 0) (Fin 1)).
Proof.
  intros H. destruct (fclip_unit_mono a b H) as (s & t & -> & -> & Hst & _).
  simpl. lra.
Qed.

Lemma fclip_unit_is_float (q : float64) (s : R) :
  is_float q -> fclip q (Fin 0) (Fin 1) = Fin s -> representable s.
Proof.
  destruct q as [r| | |]; simpl; intros Hq E; try discriminate;
    injection E as <-; unfold Rmin, Rmax;
    repeat match goal with
      | |- context [Rle_dec ?a ?b] => destruct (Rle_dec a b)
      end;
    auto using representable_0, representable_1.
Qed.

(** ** The correctly rounded [pow] meets the contract *)

Lemma pow_cr_special_values : pow_special_values pow_cr.
Proof.
  unfold pow_special_values, pow_cr. repeat split.
  - intros a. rewrite fpow_zero_exponent. exact round64_1.
  - intros b.
    assert (E : fpow (Fin 1) b = Fin 1).
    { destruct b as [y| | |]; simpl.
      - unfold fpow_fin. rewrite (Rsign_pos 1) by lra.
        rewrite Rpower_one. destruct (Rsign y); reflexivity.
      - unfold Rabs_vs_one. rewrite Rabs_R1.
        replace (1 - 1) with 0 by lra. rewrite Rsign_zero. reflexivity.
      - unfold Rabs_vs_one. rewrite Rabs_R1.
        replace (1 - 1) with 0 by lra. rewrite Rsign_zero. reflexivity.
      - destruct (Req_dec_T 1 1); [reflexivity | lra]. }
    rewrite E. exact round64_1.
  - intros g Hg. simpl. unfold fpow_fin.
    rewrite (Rsign_pos g Hg), Rsign_zero. exact round64_0.
  - intros g Hg. simpl. destruct (Req_dec_T g 0); [contradiction |].
    reflexivity.
Qed.

Lemma pow_cr_monotone (g : R) : 0 < g -> pow_monotone pow_cr g.
Proof.
  intros Hg s t _ _ Hst Ht. unfold pow_cr.
  destruct (fpow_unit_mono s t g Hst Ht Hg) as (p & q & -> & -> & Hpq & _).
  apply round64_mono. lra.
Qed.

(** ** Overflow *)

Lemma rvalue_overflow (r : R) : bpow 1024 <= r -> bpow 1024 <= rvalue r.
Proof.
  intros H. pose proof (fexp_range r) as He.
  assert (E : fexp r = 971%Z).
  { destruct (fexp_upper r) as [E|Hu]; [exact E | exfalso].
    pose proof (bpow_le (fexp r + 53) 1024 ltac:(lia)). lra. }
  unfold rvalue. rewrite E. pose proof (bpow_pos 971) as Hb.
  replace 1024%Z with (971 + 53)%Z in H |- * by lia.
  pose proof (Rdiv_bpow_ge r 971 53 H) as Hq.
  rewrite (bpow_IZR 53) in Hq by lia.
  apply Rrint_ge_IZR, IZR_le in Hq. rewrite <- bpow_IZR in Hq by lia.
  rewrite bpow_add. nra.
Qed.

(** A number of [2 ^ 1024] or more rounds to infinity. *)
Lemma round64_overflow (r : R) : bpow 1024 <= r -> round64 r = PInf.
Proof.
  intros H. pose proof (bpow_pos 1024). unfold round64.
  destruct (Rle_dec 0 r) as [_|Hn]; [| lra].
  unfold round_pos. pose proof (rvalue_overflow r H).
  destruct (Rle_dec _ _); [reflexivity | lra].
Qed.

Lemma bpow_double (e : Z) : bpow e + bpow e = bpow (e + 1).
Proof.
  rewrite bpow_add. assert (E : bpow 1 = 2) by (unfold bpow; simpl; lra).
  rewrite E. lra.
Qed.

Lemma fclip_unit_0 : fclip (Fin 0) (Fin 0) (Fin 1) = Fin 0.
Proof.
  rewrite fclip_unit_fin, Rclip_unit_id by lra. reflexivity.
Qed.

Lemma fclip_unit_1 : fclip (Fin 1) (Fin 0) (Fin 1) = Fin 1.
Proof.
  rewrite fclip_unit_fin, Rclip_unit_id by lra. reflexivity.
Qed.

Lemma fsub_1_0 : Binary64.fsub (Fin 1) (Fin 0) = Fin 1.
Proof.
  rewrite fsub_fin. replace (1 - 0) with 1 by lra. exact round64_1.
Qed.

Lemma fsub_self (x : R) : Binary64.fsub (Fin x) (Fin x) = Fin 0.
Proof.
  rewrite fsub_fin. replace (x - x) with 0 by lra. exact round64_0.
Qed.

Lemma fmul_0_l (w : R) : Binary64.fmul (Fin 0) (Fin w) = Fin 0.
Proof. simpl. rewrite Rmult_0_l. exact round64_0. Qed.

Lemma fmul_1_l (w : float64) :
  is_float w -> Binary64.fmul (Fin 1) w = w.
Proof.
  destruct w as [r| | |]; simpl; intros H.
  - rewrite Rmult_1_l. exact H.
  - rewrite (Rsign_pos 1) by lra. reflexivity.
  - rewrite (Rsign_pos 1) by lra. reflexivity.
  - reflexivity.
Qed.

Lemma fadd_0_l (a : float64) :
  is_float a -> Binary64.fadd (Fin 0) a = a.
Proof.
  destruct a as [r| | |]; simpl; intros H; try reflexivity.
  rewrite Rplus_0_l. exact H.
Qed.

Lemma fadd_0_r (a : float64) : is_float a -> Binary64.fadd a (Fin 0) = a.
Proof.
  destruct a as [r| | |]; simpl; intros H; try reflexivity.
  rewrite Rplus_0_r. exact H.
Qed.

Lemma fmul_is_float (a b : float64) : is_float (Binary64.fmul a b).
Proof.
  destruct a as [x| | |], b as [y| | |]; simpl; auto;
    try apply round64_is_float;
    try (destruct (Rsign _); simpl; auto).
Qed.

(** ** Rounding within a known binade *)

(** The exponent of a magnitude is fixed by its binade. *)
Lemma fexp_eq (r : R) (e : Z) :
  (-1074 <= e <= 971)%Z ->
  (e = (-1074)%Z \/ bpow (e + 52) <= r) ->
  (e = 971%Z \/ r < bpow (e + 53)) ->
  fexp r = e.
Proof.
  intros He Hlo Hhi. pose proof (fexp_range r) as Hr.
  destruct (Z.lt_trichotomy (fexp r) e) as [Hlt | [E | Hgt]];
    [exfalso | exact E | exfalso].
  - destruct (fexp_upper r) as [E|Hu]; [lia |].
    destruct Hlo as [E|Hlo]; [lia |].
    pose proof (bpow_le (fexp r + 53) (e + 52) ltac:(lia)). lra.
  - destruct (fexp_lower r) as [E|Hl]; [lia |].
    destruct Hhi as [E|Hhi]; [lia |].
    pose proof (bpow_le (e + 53) (fexp r + 52) ltac:(lia)). lra.
Qed.

(** The nearest integer, away from a tie and at a tie. *)
Lemma Rrint_near (r : R) (m : Z) :
  IZR m - 1 / 2 < r < IZR m + 1 / 2 -> Rrint r = m.
Proof.
  intros [Hlo Hhi]. unfold Rrint.
  destruct (Rle_dec (IZR m) r) as [Hge|Hlt].
  - assert (E : Int_part r = m).
    { symmetry. apply Int_part_spec. lra. }
    rewrite E. destruct (Rlt_dec (r - IZR m) (1 / 2)); [reflexivity | lra].
  - assert (E : Int_part r = (m - 1)%Z).
    { symmetry. apply Int_part_spec. rewrite minus_IZR. lra. }
    rewrite E, minus_IZR.
    destruct (Rlt_dec (r - (IZR m - 1)) (1 / 2)); [lra |].
    destruct (Rlt_dec (1 / 2) (r - (IZR m - 1))); [f_equal; lia | lra].
Qed.

Lemma Rrint_tie (k : Z) :
  Rrint (IZR k + 1 / 2) = if Z.even k then k else (k + 1)%Z.
Proof.
  unfold Rrint.
  assert (E : Int_part (IZR k + 1 / 2) = k).
  { symmetry. apply Int_part_spec. lra. }
  rewrite E.
  destruct (Rlt_dec (IZR k + 1 / 2 - IZR k) (1 / 2)); [lra |].
  destruct (Rlt_dec (1 / 2) (IZR k + 1 / 2 - IZR k)); [lra | reflexivity].
Qed.

(** Rounding a positive number of a known binade. *)
Lemma round64_binade (r : R) (e m : Z) :
  (-1074 <= e <= 971)%Z ->
  bpow (e + 52) <= r < bpow (e + 53) ->
  Rrint (r / bpow e) = m ->
  IZR m * bpow e < bpow 1024 ->
  round64 r = Fin (IZR m * bpow e).
Proof.
  intros He [Hlo Hhi] Hm Hfin.
  pose proof (bpow_pos (e + 52)).
  assert (E : fexp r = e) by (apply fexp_eq; auto).
  unfold round64. destruct (Rle_dec 0 r) as [_|Hn]; [| lra].
  unfold round_pos, rvalue. rewrite E, Hm.
  destruct (Rle_dec _ _); [lra | reflexivity].
Qed.

(** ** level.py: the tone curve *)

Lemma level_array_map (xs : ndarray) (ib iw ob ow g : float64) :
  level_array xs ib iw ob ow g
  = map (fun x => tone_curve_spec x ib iw ob ow g) xs.
Proof.
  unfold level_array, np_clip, np_add, np_multiply, np_power, np_divide,
    np_subtract.
  rewrite !map_map. reflexivity.
Qed.

(** Away from the degenerate point [x = input_black = input_white] the
    tone curve maps the unit interval into itself. *)
Lemma tone_curve_unit_range (x ib iw ob ow g : R) :
  ~ (x = ib /\ iw = ib) -> 0 < g ->
  in_range 0 1
    (tone_curve_spec (Fin x) (Fin ib) (Fin iw) (Fin ob) (Fin ow) (Fin g)).
Proof.
  intros Hnd Hg. unfold tone_curve_spec.
  set (n := fdiv (fsub (Fin x) (Fin ib)) (fsub (Fin iw) (Fin ib))).
  assert (Hn : fle n n).
  { subst n. simpl. destruct (Req_dec_T (iw + - ib) 0) as [Hz|Hz].
    - assert (x + - ib <> 0) by (intros E; apply Hnd; split; lra).
      unfold Rsign. rcases; simpl; auto; lra.
    - simpl. lra. }
  destruct (fclip_unit_mono n n Hn) as (s & t & Hs & Ht & Hst & Ht1).
  rewrite Hs in Ht. injection Ht as <-. rewrite Hs.
  destruct (fpow_unit_mono s s g) as (p & q & -> & _ & _ & _); try lra.
  apply output_stage_range.
Qed.

(** At the degenerate point the quotient is 0/0: the NaN goes through both
    clamps and the power unchanged. *)
Lemma tone_curve_degenerate (x ob ow g : R) :
  g <> 0 ->
  tone_curve_spec (Fin x) (Fin x) (Fin x) (Fin ob) (Fin ow) (Fin g) = NaN.
Proof.
  intros Hg. unfold tone_curve_spec. simpl.
  destruct (Req_dec_T (x + - x) 0) as [_|Hz]; [|exfalso; lra].
  replace (x + - x) with 0 by lra. rewrite Rsign_zero. simpl.
  destruct (Req_dec_T g 0); [contradiction | reflexivity].
Qed.

(** Every element of [level_array] lies in [[0, 1]] when the parameters
    are finite, gamma is positive, and no element sits on a degenerate
    pair [input_black = input_white]. *)
Lemma level_array_unit_range (xs : list R) (ib iw ob ow g : R) :
  iw <> ib \/ ~ In ib xs -> 0 < g ->
  Forall (in_range 0 1)
    (level_array (map Fin xs) (Fin ib) (Fin iw) (Fin ob) (Fin ow) (Fin g)).
Proof.
  intros Hnd Hg. rewrite level_array_map, map_map.
  apply List.Forall_forall. intros v Hv.
  apply in_map_iff in Hv as (x & <- & Hx).
  apply tone_curve_unit_range; [| exact Hg].
  intros [-> Heq].
  destruct Hnd as [Hne|Hni]; [exact (Hne Heq) | exact (Hni Hx)].
Qed.

(** C1. With [input_white <> input_black], [level_array] computes on every
    element of its input exactly the three steps of the tone-curve model:
    clamp and rescale to [[0, 1]], raise to gamma, rescale to the output
    range and clamp. *)
Theorem level_array_tone_curve (array : ndarray)
    (input_black input_white output_black output_white gamma : float64) :
  input_white <> input_black ->
  level_array array input_black input_white output_black output_white gamma
  = map (fun x =>
           fclip
             (fadd
                (fmul
                   (fpow
                      (fclip
                         (fdiv (fsub x input_black)
                            (fsub input_white input_black))
                         (Fin 0) (Fin 1))
                      gamma)
                   (fsub output_white output_black))
                output_black)
             (Fin 0) (Fin 1))
      array
  /\ level_array array input_black input_white output_black output_white
       gamma
     = map (fun x =>
              tone_curve_spec x input_black input_white output_black
                output_white gamma)
         array.
Proof.
  intros _. split; apply level_array_map.
Qed.

Lemma level_array_tone_curve_witness :
  Fin 1 <> Fin 0 /\
  level_array [Fin (1 / 2)] (Fin 0) (Fin 1) (Fin 0) (Fin 1) (Fin 1)
  = map (fun x => tone_curve_spec x (Fin 0) (Fin 1) (Fin 0) (Fin 1) (Fin 1))
      [Fin (1 / 2)].
Proof.
  assert (H : Fin 1 <> Fin 0) by (intros E; injection E; lra).
  split; [exact H |].
  exact (proj2 (level_array_tone_curve [Fin (1 / 2)] (Fin 0) (Fin 1) (Fin 0)
                  (Fin 1) (Fin 1) H)).
Defined.

(** C9. At [x = input_black = input_white = 1/2], all parameters within
    their documented ranges, [level_array] returns NaN: the final clamp
    does not bring the 0/0 of the degenerate division into [[0, 1]]. *)
Theorem level_array_degenerate_nan :
  level_array [Fin (1 / 2)] (Fin (1 / 2)) (Fin (1 / 2)) (Fin 0) (Fin 1)
    (Fin 1)
  = [NaN]
  /\ ~ Forall (in_range 0 1)
       (level_array [Fin (1 / 2)] (Fin (1 / 2)) (Fin (1 / 2)) (Fin 0)
          (Fin 1) (Fin 1)).
Proof.
  assert (E : level_array [Fin (1 / 2)] (Fin (1 / 2)) (Fin (1 / 2)) (Fin 0)
                (Fin 1) (Fin 1) = [NaN]).
  { rewrite level_array_map. simpl map.
    rewrite tone_curve_degenerate by lra. reflexivity. }
  split; [exact E |].
  rewrite E. intros H. inversion H as [|? ? Hnan _]. exact Hnan.
Qed.

(** ** level.py in binary64 arithmetic *)

Section ToneCurve.

Variable pow : float64 -> float64 -> float64.

Lemma level_array_map64 (xs : list float64) (ib iw ob ow g : float64) :
  Binary64.level_array pow xs ib iw ob ow g
  = map (fun x => Binary64.tone_curve pow x ib iw ob ow g) xs.
Proof.
  unfold Binary64.level_array, Binary64.tone_curve, np_clip,
    Binary64.np_add, Binary64.np_multiply, Binary64.np_power,
    Binary64.np_divide, Binary64.np_subtract.
  rewrite !map_map. reflexivity.
Qed.

(** The difference of two ordered binary64 values is positive, and finite
    unless it overflows. *)
Lemma input_range_positive (ib iw : R) :
  representable ib -> representable iw -> ib < iw ->
  is_finite (Binary64.fsub (Fin iw) (Fin ib)) ->
  exists d, Binary64.fsub (Fin iw) (Fin ib) = Fin d /\ 0 < d /\
            representable d.
Proof.
  intros Hib Hiw Hlt [d Hfin]. rewrite fsub_fin in *.
  pose proof (round64_difference ib iw Hib Hiw Hlt) as Hd.
  pose proof (bpow_pos (-1074)). rewrite Hfin in Hd. simpl in Hd.
  exists d. split; [exact Hfin | split; [lra |]].
  exact (round64_representable _ _ Hfin).
Qed.

(** The position of [x] between the input points, clamped: ordered
    binary64 values of the unit interval for ordered inputs. *)
Lemma position_mono (ib d : R) (a b : float64) :
  0 < d -> fle a b ->
  exists s t,
    fclip (Binary64.fdiv (Binary64.fsub a (Fin ib)) (Fin d)) (Fin 0) (Fin 1)
    = Fin s /\
    fclip (Binary64.fdiv (Binary64.fsub b (Fin ib)) (Fin d)) (Fin 0) (Fin 1)
    = Fin t /\
    0 <= s <= t /\ t <= 1 /\ representable s /\ representable t.
Proof.
  intros Hd Hab.
  pose proof (fdiv_mono _ _ d Hd (fsub_mono a b ib Hab)) as Hq.
  destruct (fclip_unit_mono _ _ Hq) as (s & t & Es & Et & Hst & Ht).
  exists s, t. repeat split; try assumption; try lra.
  - exact (fclip_unit_is_float _ s (fdiv_is_float _ _) Es).
  - exact (fclip_unit_is_float _ t (fdiv_is_float _ _) Et).
Qed.

(** On the unit interval a monotone [pow] with the special values of C99
    stays within the unit interval. *)
Lemma pow_unit (s t g : R) :
  pow_special_values pow -> pow_monotone pow g ->
  representable s -> representable t -> 0 <= s <= t -> t <= 1 -> 0 < g ->
  exists p q, pow (Fin s) (Fin g) = Fin p /\ pow (Fin t) (Fin g) = Fin q /\
              0 <= p <= q /\ q <= 1.
Proof.
  intros (_ & H1 & H0 & _) Hmono Hs Ht Hst Ht1 Hg.
  pose proof (Hmono 0 s representable_0 Hs ltac:(lra) ltac:(lra)) as Ha.
  pose proof (Hmono s t Hs Ht Hst Ht1) as Hb.
  pose proof (Hmono t 1 Ht representable_1 ltac:(lra) ltac:(lra)) as Hc.
  rewrite (H0 g Hg) in Ha. rewrite H1 in Hc.
  destruct (pow (Fin s) (Fin g)) as [p| | |],
      (pow (Fin t) (Fin g)) as [q| | |]; simpl in *; try contradiction.
  exists p, q. repeat split; auto; lra.
Qed.

(** The output stage [p * (ow - ob) + ob], clamped, is monotone in [p]
    for a nonnegative finite output range. *)
Lemma output_mono (p q w ob : R) :
  p <= q -> 0 <= w ->
  fle (fclip (Binary64.fadd (Binary64.fmul (Fin p) (Fin w)) (Fin ob))
         (Fin 0) (Fin 1))
      (fclip (Binary64.fadd (Binary64.fmul (Fin q) (Fin w)) (Fin ob))
         (Fin 0) (Fin 1)).
Proof.
  intros Hpq Hw. apply fclip_unit_fle, fadd_mono. simpl.
  apply round64_mono. nra.
Qed.

Lemma output_anti (p q w ob : R) :
  p <= q -> w <= 0 ->
  fle (fclip (Binary64.fadd (Binary64.fmul (Fin q) (Fin w)) (Fin ob))
         (Fin 0) (Fin 1))
      (fclip (Binary64.fadd (Binary64.fmul (Fin p) (Fin w)) (Fin ob))
         (Fin 0) (Fin 1)).
Proof.
  intros Hpq Hw. apply fclip_unit_fle, fadd_mono. simpl.
  apply round64_mono. nra.
Qed.

(** The rounded difference of two ordered numbers has their order. *)
Lemma output_range_nonneg (ob ow : R) :
  ob <= ow -> is_finite (Binary64.fsub (Fin ow) (Fin ob)) ->
  exists w, Binary64.fsub (Fin ow) (Fin ob) = Fin w /\ 0 <= w /\
            representable w.
Proof.
  intros Hle [w Hfin]. rewrite fsub_fin in *.
  pose proof (round64_mono 0 (ow - ob) ltac:(lra)) as H.
  rewrite round64_0, Hfin in H. simpl in H.
  exists w. split; [exact Hfin | split; [exact H |]].
  exact (round64_representable _ _ Hfin).
Qed.

Lemma output_range_nonpos (ob ow : R) :
  ow <= ob -> is_finite (Binary64.fsub (Fin ow) (Fin ob)) ->
  exists w, Binary64.fsub (Fin ow) (Fin ob) = Fin w /\ w <= 0 /\
            representable w.
Proof.
  intros Hle [w Hfin]. rewrite fsub_fin in *.
  pose proof (round64_mono (ow - ob) 0 ltac:(lra)) as H.
  rewrite round64_0, Hfin in H. simpl in H.
  exists w. split; [exact Hfin | split; [exact H |]].
  exact (round64_representable _ _ Hfin).
Qed.

Lemma tone_curve_mono64 (ib iw ob ow g : R) (a b : float64) :
  pow_special_values pow -> pow_monotone pow g ->
  representable ib -> representable iw ->
  ib < iw -> ob <= ow -> 0 < g ->
  is_finite (Binary64.fsub (Fin iw) (Fin ib)) ->
  is_finite (Binary64.fsub (Fin ow) (Fin ob)) ->
  fle a b ->
  fle (Binary64.tone_curve pow a (Fin ib) (Fin iw) (Fin ob) (Fin ow) (Fin g))
      (Binary64.tone_curve pow b (Fin ib) (Fin iw) (Fin ob) (Fin ow)
         (Fin g)).
Proof.
  intros Hsp Hmono Hib Hiw Hi Ho Hg Hd Hw Hab. unfold Binary64.tone_curve.
  destruct (input_range_positive ib iw Hib Hiw Hi Hd) as (d & -> & Hd0 & _).
  destruct (output_range_nonneg ob ow Ho Hw) as (w & -> & Hw0 & _).
  destruct (position_mono ib d a b Hd0 Hab)
    as (s & t & -> & -> & Hst & Ht & Hs' & Ht').
  destruct (pow_unit s t g Hsp Hmono Hs' Ht' Hst Ht Hg)
    as (p & q & -> & -> & Hpq & _).
  apply output_mono; lra.
Qed.

Lemma tone_curve_anti64 (ib iw ob ow g : R) (a b : float64) :
  pow_special_values pow -> pow_monotone pow g ->
  representable ib -> representable iw ->
  ib < iw -> ow <= ob -> 0 < g ->
  is_finite (Binary64.fsub (Fin iw) (Fin ib)) ->
  is_finite (Binary64.fsub (Fin ow) (Fin ob)) ->
  fle a b ->
  fle (Binary64.tone_curve pow b (Fin ib) (Fin iw) (Fin ob) (Fin ow) (Fin g))
      (Binary64.tone_curve pow a (Fin ib) (Fin iw) (Fin ob) (Fin ow)
         (Fin g)).
Proof.
  intros Hsp Hmono Hib Hiw Hi Ho Hg Hd Hw Hab. unfold Binary64.tone_curve.
  destruct (input_range_positive ib iw Hib Hiw Hi Hd) as (d & -> & Hd0 & _).
  destruct (output_range_nonpos ob ow Ho Hw) as (w & -> & Hw0 & _).
  destruct (position_mono ib d a b Hd0 Hab)
    as (s & t & -> & -> & Hst & Ht & Hs' & Ht').
  destruct (pow_unit s t g Hsp Hmono Hs' Ht' Hst Ht Hg)
    as (p & q & -> & -> & Hpq & _).
  apply output_anti; lra.
Qed.

End ToneCurve.

(** C10, amended.  In binary64 arithmetic, with binary64 input points
    [input_black < input_white], output points
    [output_black <= output_white], differences [input_white - input_black]
    and [output_white - output_black] that do not overflow, a positive
    gamma, and a [pow] that is monotone in its base on the unit interval
    for this gamma, [level_array] is monotone nondecreasing: elementwise
    ordered inputs give elementwise ordered outputs. *)
Theorem level_array_monotone (pow : float64 -> float64 -> float64)
    (ib iw ob ow g : R) (xs1 xs2 : list float64) :
  pow_special_values pow -> pow_monotone pow g ->
  representable ib -> representable iw ->
  ib < iw -> ob <= ow -> 0 < g ->
  is_finite (Binary64.fsub (Fin iw) (Fin ib)) ->
  is_finite (Binary64.fsub (Fin ow) (Fin ob)) ->
  Forall2 fle xs1 xs2 ->
  Forall2 fle
    (Binary64.level_array pow xs1 (Fin ib) (Fin iw) (Fin ob) (Fin ow)
       (Fin g))
    (Binary64.level_array pow xs2 (Fin ib) (Fin iw) (Fin ob) (Fin ow)
       (Fin g)).
Proof.
  intros Hsp Hmono Hib Hiw Hi Ho Hg Hd Hw Hxs. rewrite !level_array_map64.
  induction Hxs as [|a b l1 l2 Hab _ IH]; simpl; constructor.
  - apply tone_curve_mono64; assumption.
  - exact IH.
Qed.

Lemma level_array_monotone_witness :
  Forall2 fle
    (Binary64.level_array pow_cr [Fin 0; Fin (1 / 4)] (Fin 0) (Fin 1)
       (Fin 0) (Fin 1) (Fin 2))
    (Binary64.level_array pow_cr [Fin (1 / 2); PInf] (Fin 0) (Fin 1)
       (Fin 0) (Fin 1) (Fin 2)).
Proof.
  apply (level_array_monotone pow_cr 0 1 0 1 2).
  - exact pow_cr_special_values.
  - apply pow_cr_monotone. lra.
  - exact representable_0.
  - exact representable_1.
  - lra.
  - lra.
  - lra.
  - exists 1. exact fsub_1_0.
  - exists 1. exact fsub_1_0.
  - repeat constructor; simpl; lra.
Defined.

(** C10 as worded fails where a difference overflows: with the input
    points [- 2 ^ 1023 < 2 ^ 1023], output points 0 and 1 and gamma 1, the
    input range rounds to infinity; the black point is sent to 0 and the
    white point, above it, to inf / inf = NaN, so the two outputs are not
    ordered. *)
Lemma level_array_overflow_nan :
  representable (- bpow 1023) /\ representable (bpow 1023) /\
  - bpow 1023 < bpow 1023 /\
  fle (Fin (- bpow 1023)) (Fin (bpow 1023)) /\
  Binary64.level_array pow_cr [Fin (- bpow 1023)] (Fin (- bpow 1023))
    (Fin (bpow 1023)) (Fin 0) (Fin 1) (Fin 1)
  = [Fin 0] /\
  Binary64.level_array pow_cr [Fin (bpow 1023)] (Fin (- bpow 1023))
    (Fin (bpow 1023)) (Fin 0) (Fin 1) (Fin 1)
  = [NaN] /\
  ~ Forall2 fle
      (Binary64.level_array pow_cr [Fin (- bpow 1023)] (Fin (- bpow 1023))
         (Fin (bpow 1023)) (Fin 0) (Fin 1) (Fin 1))
      (Binary64.level_array pow_cr [Fin (bpow 1023)] (Fin (- bpow 1023))
         (Fin (bpow 1023)) (Fin 0) (Fin 1) (Fin 1)).
Proof.
  pose proof (bpow_pos 1023) as Hb.
  assert (Hr : representable (bpow 1023))
    by (apply representable_bpow; lia).
  assert (Hinf : Binary64.fsub (Fin (bpow 1023)) (Fin (- bpow 1023)) = PInf).
  { rewrite fsub_fin. apply round64_overflow.
    replace (bpow 1023 - - bpow 1023) with (bpow 1023 + bpow 1023) by lra.
    rewrite bpow_double. apply Rle_refl. }
  destruct pow_cr_special_values as (_ & _ & H0 & Hnan).
  assert (E1 : Binary64.level_array pow_cr [Fin (- bpow 1023)]
                 (Fin (- bpow 1023)) (Fin (bpow 1023)) (Fin 0) (Fin 1)
                 (Fin 1) = [Fin 0]).
  { rewrite level_array_map64. cbn [map]. unfold Binary64.tone_curve.
    rewrite Hinf, fsub_self, fsub_1_0.
    cbn [Binary64.fdiv]. rewrite fclip_unit_0, (H0 1) by lra.
    rewrite fmul_0_l, fadd_0_l by exact representable_0.
    rewrite fclip_unit_0. reflexivity. }
  assert (E2 : Binary64.level_array pow_cr [Fin (bpow 1023)]
                 (Fin (- bpow 1023)) (Fin (bpow 1023)) (Fin 0) (Fin 1)
                 (Fin 1) = [NaN]).
  { rewrite level_array_map64. cbn [map]. unfold Binary64.tone_curve.
    rewrite Hinf. cbn [Binary64.fdiv fclip fmax fmin].
    rewrite (Hnan 1) by lra. reflexivity. }
  split; [apply representable_opp, Hr | split; [exact Hr |]].
  split; [lra | split; [simpl; lra |]].
  split; [exact E1 | split; [exact E2 |]].
  rewrite E1, E2. intros H. inversion H as [|? ? ? ? Hnan' _]. exact Hnan'.
Qed.

(** With the points (0, 1, 0, 1) the curve of a binary64 value of the
    unit interval is its power, when that is a binary64 value of the unit
    interval: nothing is rounded on the way. *)
Lemma tone_curve_unit_points (pow : float64 -> float64 -> float64)
    (s g p : R) :
  representable s -> 0 <= s <= 1 ->
  pow (Fin s) (Fin g) = Fin p -> representable p -> 0 <= p <= 1 ->
  Binary64.tone_curve pow (Fin s) (Fin 0) (Fin 1) (Fin 0) (Fin 1) (Fin g)
  = Fin p.
Proof.
  intros Hs Rs Hp Hrp Rp. unfold Binary64.tone_curve.
  rewrite fsub_1_0.
  assert (E : Binary64.fsub (Fin s) (Fin 0) = Fin s).
  { rewrite fsub_fin. replace (s - 0) with s by lra. exact Hs. }
  rewrite E. cbn [Binary64.fdiv].
  destruct (Req_dec_T 1 0) as [E1|_]; [lra |].
  replace (s / 1) with s by lra. rewrite Hs.
  rewrite fclip_unit_fin, Rclip_unit_id by exact Rs. rewrite Hp.
  cbn [Binary64.fmul]. rewrite Rmult_1_r, Hrp.
  rewrite fadd_0_r by exact Hrp.
  rewrite fclip_unit_fin, Rclip_unit_id by exact Rp. reflexivity.
Qed.

(** The hypothesis on [pow] cannot be dropped: for a [pow] that takes the
    binary64 values of the unit interval to binary64 values of the unit
    interval, [level_array] with the points (0, 1, 0, 1) is monotone only
    if [pow] is. *)
Lemma pow_monotone_necessary (pow : float64 -> float64 -> float64)
    (g : R) :
  (forall s, representable s -> 0 <= s <= 1 ->
     exists p, pow (Fin s) (Fin g) = Fin p /\ representable p /\
               0 <= p <= 1) ->
  (forall xs1 xs2,
     Forall2 fle xs1 xs2 ->
     Forall2 fle
       (Binary64.level_array pow xs1 (Fin 0) (Fin 1) (Fin 0) (Fin 1) (Fin g))
       (Binary64.level_array pow xs2 (Fin 0) (Fin 1) (Fin 0) (Fin 1)
          (Fin g))) ->
  pow_monotone pow g.
Proof.
  intros Hunit Hmono s t Hs Ht Hst Ht1.
  destruct (Hunit s Hs ltac:(lra)) as (p & Ep & Hp & Rp).
  destruct (Hunit t Ht ltac:(lra)) as (q & Eq & Hq & Rq).
  specialize (Hmono [Fin s] [Fin t]).
  rewrite !level_array_map64 in Hmono. cbn [map] in Hmono.
  rewrite (tone_curve_unit_points pow s g p) in Hmono by (auto; lra).
  rewrite (tone_curve_unit_points pow t g q) in Hmono by (auto; lra).
  rewrite Ep, Eq.
  assert (H : Forall2 fle [Fin s] [Fin t]).
  { constructor; [simpl; lra | constructor]. }
  specialize (Hmono H). inversion Hmono as [|? ? ? ? Hpq _]. exact Hpq.
Qed.

(** ** The effect monad *)

Lemma bind_assoc {A B C : Type} (m : M A) (f : A -> M B) (g : B -> M C) :
  bind (bind m f) g = bind m (fun a => bind (f a) g).
Proof.
  destruct m as [evs [a|e|]]; simpl; try reflexivity.
  destruct (f a) as [evs1 [b|e|]]; simpl; try reflexivity.
  destruct (g b) as [evs2 o]. rewrite app_assoc. reflexivity.
Qed.

Lemma bind_ret_l {A B : Type} (a : A) (f : A -> M B) : bind (ret a) f = f a.
Proof. unfold ret. simpl. destruct (f a). reflexivity. Qed.

Lemma bind_lift_inr {A B : Type} (a : A) (f : A -> M B) :
  bind (lift (inr a)) f = f a.
Proof. apply bind_ret_l. Qed.

Lemma result_bind_return {A B : Type} (m : M A) (f : A -> M B) (a : A) :
  result m = Return a -> result (bind m f) = result (f a).
Proof.
  destruct m as [evs o]. simpl. intros ->. simpl.
  destruct (f a). reflexivity.
Qed.

Lemma result_bind_raise {A B : Type} (m : M A) (f : A -> M B) (e : exn) :
  result m = Raise e -> result (bind m f) = Raise e.
Proof. destruct m as [evs o]. simpl. intros ->. reflexivity. Qed.

(** A computation returns from [bind] only through a returned first part. *)
Lemma result_bind_inv {A B : Type} (m : M A) (f : A -> M B) (b : B) :
  result (bind m f) = Return b ->
  exists a, result m = Return a /\ result (f a) = Return b.
Proof.
  destruct m as [evs [a|e|]]; simpl; try discriminate.
  intros H. exists a. split; [reflexivity |].
  destruct (f a). exact H.
Qed.

Lemma result_bind_not_blocked {A B : Type} (m : M A) (f : A -> M B) :
  result m <> Blocked -> (forall a, result (f a) <> Blocked) ->
  result (bind m f) <> Blocked.
Proof.
  destruct m as [evs [a|e|]]; simpl; intros Hm Hf; try discriminate.
  - specialize (Hf a). destruct (f a). exact Hf.
  - contradiction.
Qed.

Lemma result_lift_not_blocked {A : Type} (r : exn + A) :
  result (lift r) <> Blocked.
Proof. destruct r; discriminate. Qed.

Lemma result_run_curve_fit_not_blocked
    (curve_fit : fit_call -> exn + list float64) (c : fit_call) :
  result (run_curve_fit curve_fit c) <> Blocked.
Proof. unfold run_curve_fit. simpl. destruct (curve_fit c); discriminate. Qed.

Lemma result_lift_inv {A : Type} (r : exn + A) (a : A) :
  result (lift r) = Return a -> r = inr a.
Proof. destruct r; simpl; intros H; [discriminate | congruence]. Qed.

Lemma result_run_curve_fit_inv
    (curve_fit : fit_call -> exn + list float64) (c : fit_call)
    (popt : list float64) :
  result (run_curve_fit curve_fit c) = Return popt -> curve_fit c = inr popt.
Proof.
  unfold run_curve_fit. simpl.
  destruct (curve_fit c); simpl; intros H; [discriminate | congruence].
Qed.

(** ** Quantile levels *)


Lemma np_linspace_single : np_linspace 0 1 1 = inr [Fin 0].
Proof.
  unfold np_linspace. simpl. do 2 f_equal. f_equal. lra.
Qed.





(** ** match.py: the two fitting strategies *)

Section Strategies.

Variable quantile : ndarray -> ndarray -> exn + ndarray.
Variable curve_fit : fit_call -> exn + list float64.

Lemma bind_ext {A B : Type} (m : M A) (f g : A -> M B) :
  (forall a, f a = g a) -> bind m f = bind m g.
Proof.
  intros H. destruct m as [evs [a|e|]]; simpl; try reflexivity.
  rewrite H. reflexivity.
Qed.

Lemma match_histogram_levels (x y : ndarray) (xtol : float64) (n : Z)
    (levels : ndarray) :
  np_linspace 0 1 n = inr levels ->
  match_histogram quantile curve_fit x y (Some xtol) (Some n)
  = (xq <- lift (quantile x levels) ;;
     yq <- lift (quantile y levels) ;;
     popt <- run_curve_fit curve_fit
       (mkFit level_array (np_divide xq (Fin 255))
          (np_divide yq (Fin 255)) dogbox xtol
          [Fin 0; Fin 1; Fin 0; Fin 1; Fin 1] level_bounds) ;;
     lift (LevelsAdjustment_star popt)).
Proof.
  intros Hl. unfold match_histogram. cbn [from_option Datatypes.id]. cbv zeta.
  rewrite Hl, bind_lift_inr.
  apply bind_ext. intros xq. rewrite bind_lift_inr. reflexivity.
Qed.


Lemma match_histogram_not_blocked (x y : ndarray) (xtol : option float64)
    (samples : option Z) :
  result (match_histogram quantile curve_fit x y xtol samples) <> Blocked.
Proof.
  unfold match_histogram. cbv zeta.
  repeat (apply result_bind_not_blocked;
          [first [apply result_lift_not_blocked
                 | apply result_run_curve_fit_not_blocked] | intros ?]).
  apply result_lift_not_blocked.
Qed.

Lemma match_array_not_blocked (x y : ndarray) (xtol : option float64)
    (samples : option Z) :
  result (match_array quantile curve_fit x y xtol samples) <> Blocked.
Proof.
  unfold match_array. cbv zeta.
  apply result_bind_not_blocked.
  - destruct (_ <? _)%Z; [| discriminate].
    apply result_bind_not_blocked;
      [apply match_histogram_not_blocked | discriminate].
  - intros p0. apply result_bind_not_blocked;
      [apply result_run_curve_fit_not_blocked | intros ?].
    apply result_lift_not_blocked.
Qed.

(** A returned fit is the unpacked answer of a solver run on the box
    [level_bounds]. *)
Lemma match_histogram_return_inv (x y : ndarray) (xtol : option float64)
    (samples : option Z) (adj : LevelsAdjustment) :
  result (match_histogram quantile curve_fit x y xtol samples) = Return adj ->
  exists c popt, fit_bounds c = level_bounds /\ curve_fit c = inr popt /\
                 LevelsAdjustment_star popt = inr adj.
Proof.
  unfold match_histogram. cbv zeta. intros H.
  apply result_bind_inv in H as (qx & _ & H).
  apply result_bind_inv in H as (xq & _ & H).
  apply result_bind_inv in H as (qy & _ & H).
  apply result_bind_inv in H as (yq & _ & H).
  apply result_bind_inv in H as (popt & Hfit & H).
  apply result_run_curve_fit_inv in Hfit. apply result_lift_inv in H.
  eexists _, popt. split; [| split; [exact Hfit | exact H]]. reflexivity.
Qed.

Lemma match_array_return_inv (x y : ndarray) (xtol : option float64)
    (samples : option Z) (adj : LevelsAdjustment) :
  result (match_array quantile curve_fit x y xtol samples) = Return adj ->
  exists c popt, fit_bounds c = level_bounds /\ curve_fit c = inr popt /\
                 LevelsAdjustment_star popt = inr adj.
Proof.
  unfold match_array. cbv zeta. intros H.
  apply result_bind_inv in H as (p0 & _ & H).
  apply result_bind_inv in H as (popt & Hfit & H).
  apply result_run_curve_fit_inv in Hfit. apply result_lift_inv in H.
  eexists _, popt. split; [| split; [exact Hfit | exact H]]. reflexivity.
Qed.

Lemma within_level_bounds (popt : list float64) (adj : LevelsAdjustment) :
  within_bounds level_bounds popt ->
  LevelsAdjustment_star popt = inr adj ->
  in_range 0 1 (input_black adj) /\ in_range 0 1 (input_white adj) /\
  in_range 0 1 (output_black adj) /\ in_range 0 1 (output_white adj) /\
  fle (Fin 0) (gamma adj).
Proof.
  unfold within_bounds, level_bounds. simpl. intros Hw Hadj.
  destruct popt as [|a [|b [|c [|d [|e [|? ?]]]]]]; try discriminate.
  injection Hadj as <-. simpl.
  inversion Hw as [|? ? ? ? ? ? Ha Hw1]; subst; clear Hw.
  inversion Hw1 as [|? ? ? ? ? ? Hb Hw2]; subst; clear Hw1.
  inversion Hw2 as [|? ? ? ? ? ? Hc Hw3]; subst; clear Hw2.
  inversion Hw3 as [|? ? ? ? ? ? Hd Hw4]; subst; clear Hw3.
  inversion Hw4 as [|? ? ? ? ? ? He _]; subst; clear Hw4.
  destruct a, b, c, d; simpl in *; intuition.
Qed.

End Strategies.

Lemma fleb_fle (a b : float64) : fleb a b = true -> fle a b.
Proof.
  destruct a, b; simpl; try discriminate; auto.
  destruct (Rle_dec r r0); [auto | discriminate].
Qed.

Lemma feasible_within (lb p ub : list float64) :
  feasible lb p ub = true -> within_bounds (lb, ub) p.
Proof.
  unfold within_bounds. simpl. revert p ub.
  induction lb as [|l lb IH]; intros [|v p] [|u ub]; simpl;
    try discriminate.
  - intros _. constructor.
  - intros H. apply andb_prop in H as [H Hrest].
    apply andb_prop in H as [Hl Hu].
    constructor; [split; apply fleb_fle; assumption | apply IH, Hrest].
Qed.

(** The reference solver keeps to the box it is given. *)
Lemma seed_solver_within_bounds (c : fit_call) (popt : list float64) :
  seed_solver c = inr popt -> within_bounds (fit_bounds c) popt.
Proof.
  unfold seed_solver.
  destruct (feasible _ _ _) eqn:Hf; [| discriminate].
  intros H. injection H as <-.
  destruct (fit_bounds c) as [lb ub]. apply feasible_within, Hf.
Qed.

Lemma seed_solver_identity (xdata ydata : ndarray) (xtol : float64) :
  seed_solver
    (mkFit level_array xdata ydata dogbox xtol
       [Fin 0; Fin 1; Fin 0; Fin 1; Fin 1]
       ([Fin 0; Fin 0; Fin 0; Fin 0; Fin 0],
        [Fin 1; Fin 1; Fin 1; Fin 1; PInf]))
  = inr [Fin 0; Fin 1; Fin 0; Fin 1; Fin 1].
Proof.
  unfold seed_solver. simpl. rcases; try lra. reflexivity.
Qed.




Lemma match_array_seeded
    (quantile : ndarray -> ndarray -> exn + ndarray)
    (curve_fit : fit_call -> exn + list float64)
    (x y : ndarray) (xtol : option float64) (samples : option Z) :
  (default 2048%Z samples < ndarray_size x)%Z ->
  match_array quantile curve_fit x y xtol samples
  = (adj <- match_histogram quantile curve_fit x y (Some (Fin (1 / 256)))
              (Some (default 2048%Z samples)) ;;
     pixel_fit_spec curve_fit x y (default (Fin (1 / 1024)) xtol)
       (astuple adj)).
Proof.
  intros H. unfold match_array, pixel_fit_spec, ravel. cbv zeta.
  destruct (Z.ltb_spec (default 2048%Z samples) (ndarray_size x)) as [_|?];
    [| lia].
  rewrite bind_assoc. apply bind_ext. intros adj.
  rewrite bind_ret_l. reflexivity.
Qed.

Lemma match_array_unseeded
    (quantile : ndarray -> ndarray -> exn + ndarray)
    (curve_fit : fit_call -> exn + list float64)
    (x y : ndarray) (xtol : option float64) (samples : option Z) :
  ~ (default 2048%Z samples < ndarray_size x)%Z ->
  match_array quantile curve_fit x y xtol samples
  = pixel_fit_spec curve_fit x y (default (Fin (1 / 1024)) xtol)
      [Fin 0; Fin 1; Fin 0; Fin 1; Fin 1].
Proof.
  intros H. unfold match_array, pixel_fit_spec, ravel. cbv zeta.
  destruct (Z.ltb_spec (default 2048%Z samples) (ndarray_size x)) as [?|_];
    [lia |].
  rewrite bind_ret_l. reflexivity.
Qed.

(** With the reference solver, a pixel fit from the identity guess returns
    the identity adjustment. *)
Lemma pixel_fit_seed_solver_identity (x y : ndarray) (tol : float64) :
  pixel_fit_spec seed_solver x y tol [Fin 0; Fin 1; Fin 0; Fin 1; Fin 1]
  = ([EvFit (mkFit level_array (np_divide x (Fin 255))
               (np_divide y (Fin 255)) dogbox tol
               [Fin 0; Fin 1; Fin 0; Fin 1; Fin 1] level_bounds)],
     Return (mkLevelsAdjustment (Fin 0) (Fin 1) (Fin 0) (Fin 1) (Fin 1))).
Proof.
  unfold pixel_fit_spec, run_curve_fit, level_bounds.
  rewrite seed_solver_identity. reflexivity.
Qed.

(** C3. In [match_array] the initial guess of the pixel fit is the result
    of [match_histogram] on the same data with tolerance 1/256 and the same
    sample count when [x.size] exceeds the sample count, and (0, 1, 0, 1, 1)
    when it does not. *)
Theorem match_array_initial_guess
    (quantile : ndarray -> ndarray -> exn + ndarray)
    (curve_fit : fit_call -> exn + list float64)
    (x y : ndarray) (xtol : option float64) (samples : option Z) :
  let n := default 2048%Z samples in
  let tol := default (Fin (1 / 1024)) xtol in
  ((n < ndarray_size x)%Z ->
   match_array quantile curve_fit x y xtol samples
   = (adj <- match_histogram quantile curve_fit x y (Some (Fin (1 / 256)))
               (Some n) ;;
      pixel_fit_spec curve_fit x y tol (astuple adj)))
  /\ (~ (n < ndarray_size x)%Z ->
      match_array quantile curve_fit x y xtol samples
      = pixel_fit_spec curve_fit x y tol
          [Fin 0; Fin 1; Fin 0; Fin 1; Fin 1]).
Proof.
  intros n tol. split; intros H.
  - apply match_array_seeded, H.
  - apply match_array_unseeded, H.
Qed.

Lemma match_array_initial_guess_witness :
  (1 < ndarray_size [Fin 0; Fin 255])%Z /\
  match_array (fun _ q => inr q) seed_solver [Fin 0; Fin 255]
    [Fin 0; Fin 255] None (Some 1%Z)
  = (adj <- match_histogram (fun _ q => inr q) seed_solver [Fin 0; Fin 255]
              [Fin 0; Fin 255] (Some (Fin (1 / 256))) (Some 1%Z) ;;
     pixel_fit_spec seed_solver [Fin 0; Fin 255] [Fin 0; Fin 255]
       (Fin (1 / 1024)) (astuple adj)).
Proof.
  assert (H : (1 < ndarray_size [Fin 0; Fin 255])%Z)
    by (unfold ndarray_size; simpl; lia).
  split; [exact H |].
  exact (proj1 (match_array_initial_guess (fun _ q => inr q) seed_solver
                  [Fin 0; Fin 255] [Fin 0; Fin 255] None (Some 1%Z)) H).
Defined.

(** C8. Whenever the solver keeps its answer within the box it is given,
    every fit returned by [match_histogram] or by [match_array] has its
    four black and white points in [[0, 1]] and a gamma that is at least
    0: both functions pass the box [level_bounds] and return the answer
    unchanged. *)
Theorem fitted_parameters_within_bounds
    (quantile : ndarray -> ndarray -> exn + ndarray)
    (curve_fit : fit_call -> exn + list float64)
    (x y : ndarray) (xtol : option float64) (samples : option Z)
    (adj : LevelsAdjustment) :
  (forall c popt,
      curve_fit c = inr popt -> within_bounds (fit_bounds c) popt) ->
  result (match_histogram quantile curve_fit x y xtol samples) = Return adj
  \/ result (match_array quantile curve_fit x y xtol samples) = Return adj ->
  within_bounds level_bounds (astuple adj)
  /\ in_range 0 1 (input_black adj) /\ in_range 0 1 (input_white adj)
  /\ in_range 0 1 (output_black adj) /\ in_range 0 1 (output_white adj)
  /\ fle (Fin 0) (gamma adj).
Proof.
  intros Hbox H.
  assert (Hinv : exists c popt, fit_bounds c = level_bounds /\
                   curve_fit c = inr popt /\
                   LevelsAdjustment_star popt = inr adj).
  { destruct H as [H|H];
      [eapply match_histogram_return_inv | eapply match_array_return_inv];
      exact H. }
  destruct Hinv as (c & popt & Hb & Hfit & Hadj).
  apply Hbox in Hfit. rewrite Hb in Hfit.
  split; [| exact (within_level_bounds popt adj Hfit Hadj)].
  destruct popt as [|a [|b [|c0 [|d [|e [|? ?]]]]]]; try discriminate.
  injection Hadj as <-. exact Hfit.
Qed.

Lemma fitted_parameters_within_bounds_witness :
  in_range 0 1 (input_black (mkLevelsAdjustment (Fin 0) (Fin 1) (Fin 0)
                               (Fin 1) (Fin 1))).
Proof.
  refine (proj1 (proj2 (fitted_parameters_within_bounds (fun _ q => inr q)
            seed_solver [Fin 0] [Fin 0] None None
            (mkLevelsAdjustment (Fin 0) (Fin 1) (Fin 0) (Fin 1) (Fin 1))
            seed_solver_within_bounds _))).
  right. rewrite match_array_unseeded by (unfold ndarray_size; simpl; lia).
  rewrite pixel_fit_seed_solver_identity. reflexivity.
Defined.

(** ** The thread pool *)

Section Pool.

Context {A : Type}.
Variable pick : nat -> nat.
Variable tasks : list (M A).

Lemma elem_of_delete_other {B : Type} (l : list B) (k m : nat) (b : B) :
  l !! m = Some b -> m <> k -> b ∈ delete k l.
Proof.
  intros Hm Hne. destruct (Nat.lt_ge_cases m k) as [Hlt|Hge].
  - apply (list_elem_of_lookup_2 _ m).
    rewrite list_lookup_delete_lt by exact Hlt. exact Hm.
  - apply (list_elem_of_lookup_2 _ (m - 1)).
    rewrite list_lookup_delete_ge by lia.
    replace (S (m - 1)) with m by lia. exact Hm.
Qed.

(** Whatever the completion order, once every pending task has run each
    future holds the outcome of the task submitted at its index. *)
Lemma run_tasks_futures (n : nat) (pending : list (nat * M A))
    (futures : list (outcome A)) :
  length pending = n ->
  (forall i t, (i, t) ∈ pending -> tasks !! i = Some t) ->
  length futures = length tasks ->
  (forall j t, tasks !! j = Some t -> j ∉ pending.*1 ->
               futures !! j = Some (result t)) ->
  snd (run_tasks pick n pending futures) = result <$> tasks.
Proof.
  revert pending futures.
  induction n as [|n IH]; intros pending futures Hlen Hin Hfl Hdone.
  - destruct pending; [| discriminate]. simpl.
    apply list_eq. intros j. rewrite list_lookup_fmap.
    destruct (tasks !! j) as [t|] eqn:E; simpl.
    + apply Hdone; [exact E |]. simpl. apply not_elem_of_nil.
    + apply lookup_ge_None. apply lookup_ge_None in E. lia.
  - simpl.
    assert (Hk : (pick n mod length pending < length pending)%nat)
      by (apply Nat.mod_upper_bound; lia).
    destruct (lookup_lt_is_Some_2 pending _ Hk) as [[i t] Hit].
    rewrite Hit.
    assert (Hti : tasks !! i = Some t)
      by (apply Hin; eapply list_elem_of_lookup_2; exact Hit).
    specialize (IH (delete (pick n mod length pending)%nat pending)
                  (<[i := result t]> futures)).
    destruct (run_tasks pick n _ _) as [evs futures'].
    simpl in *. apply IH.
    + rewrite length_delete by eauto. lia.
    + intros i' t' Hel. apply Hin.
      eapply list_elem_of_delete_inv. exact Hel.
    + rewrite length_insert. exact Hfl.
    + intros j t' Hj Hnot. destruct (decide (i = j)) as [<-|Hne].
      * rewrite list_lookup_insert_eq; [congruence |].
        rewrite Hfl. eapply lookup_lt_Some. exact Hti.
      * rewrite list_lookup_insert_ne by exact Hne.
        apply Hdone; [exact Hj |]. intros Hel. apply Hnot.
        apply list_elem_of_fmap in Hel as [[j' t''] [Hjj Hel]].
        simpl in Hjj. subst j'.
        apply list_elem_of_lookup_1 in Hel as [m Hm].
        apply list_elem_of_fmap. exists (j, t''). split; [reflexivity |].
        apply (elem_of_delete_other _ _ m); [exact Hm |].
        intros ->. rewrite Hit in Hm. congruence.
Qed.

(** Every event of every pending task is among the events of the run. *)
Lemma run_tasks_events (n : nat) (pending : list (nat * M A))
    (futures : list (outcome A)) (i : nat) (t : M A) (ev : event) :
  length pending = n -> (i, t) ∈ pending -> ev ∈ events t ->
  ev ∈ fst (run_tasks pick n pending futures).
Proof.
  revert pending futures.
  induction n as [|n IH]; intros pending futures Hlen Hel Hev.
  - destruct pending; [| discriminate]. inversion Hel.
  - simpl.
    assert (Hk : (pick n mod length pending < length pending)%nat)
      by (apply Nat.mod_upper_bound; lia).
    destruct (lookup_lt_is_Some_2 pending _ Hk) as [[i' t'] Hit].
    rewrite Hit.
    specialize (IH (delete (pick n mod length pending)%nat pending)
                  (<[i' := result t']> futures)).
    destruct (run_tasks pick n _ _) as [evs futures'].
    simpl in *. apply elem_of_app.
    apply list_elem_of_lookup_1 in Hel as [m Hm].
    destruct (decide (m = (pick n mod length pending)%nat)) as [->|Hne].
    + left. rewrite Hit in Hm. injection Hm as -> ->. exact Hev.
    + right. apply IH; [| | exact Hev].
      * rewrite length_delete by eauto. lia.
      * apply (elem_of_delete_other _ _ m); assumption.
Qed.

(** Only events of submitted tasks occur in the run. *)
Lemma run_tasks_events_inv (n : nat) (pending : list (nat * M A))
    (futures : list (outcome A)) (ev : event) :
  ev ∈ fst (run_tasks pick n pending futures) ->
  exists i t, (i, t) ∈ pending /\ ev ∈ events t.
Proof.
  revert pending futures.
  induction n as [|n IH]; intros pending futures Hev.
  - simpl in Hev. inversion Hev.
  - simpl in Hev.
    destruct (pending !! (pick n mod length pending)%nat)
      as [[i t]|] eqn:Hit; [| simpl in Hev; inversion Hev].
    specialize (IH (delete (pick n mod length pending)%nat pending)
                  (<[i := result t]> futures)).
    destruct (run_tasks pick n _ _) as [evs futures'].
    simpl in *. apply elem_of_app in Hev as [Hev|Hev].
    + exists i, t. split; [| exact Hev].
      eapply list_elem_of_lookup_2. exact Hit.
    + destruct (IH Hev) as (i' & t' & Hel & Hev').
      exists i', t'. split; [| exact Hev'].
      eapply list_elem_of_delete_inv. exact Hel.
Qed.

Lemma submit_all_result :
  Forall (fun t => result t <> Blocked) tasks ->
  result (submit_all pick tasks) = Return (result <$> tasks).
Proof.
  intros Hnb. unfold submit_all.
  pose proof (run_tasks_futures (length tasks)
                (imap (fun i task => (i, task)) tasks)
                (replicate (length tasks) Blocked)) as H.
  destruct (run_tasks pick _ _ _) as [evs futures]. simpl in *.
  rewrite H.
  - assert (Hd : forallb future_done (result <$> tasks) = true).
    { apply forallb_forall. intros o Ho. apply list_elem_of_In in Ho.
      apply list_elem_of_fmap in Ho as [t [-> Ht]].
      rewrite Forall_forall in Hnb. specialize (Hnb t Ht).
      destruct (result t); [reflexivity | reflexivity | contradiction]. }
    rewrite Hd. reflexivity.
  - apply length_imap.
  - intros i t Hel. apply elem_of_lookup_imap in Hel as (j & t' & E & Hj).
    injection E as -> ->. exact Hj.
  - apply length_replicate.
  - intros j t Hj Hnot. exfalso. apply Hnot.
    apply list_elem_of_fmap. exists (j, t). split; [reflexivity |].
    apply elem_of_lookup_imap. exists j, t. split; [reflexivity | exact Hj].
Qed.

Lemma submit_all_events (i : nat) (t : M A) (ev : event) :
  tasks !! i = Some t -> ev ∈ events t ->
  ev ∈ events (submit_all pick tasks).
Proof.
  intros Hi Hev. unfold submit_all.
  pose proof (run_tasks_events (length tasks)
                (imap (fun i task => (i, task)) tasks)
                (replicate (length tasks) Blocked) i t ev) as H.
  destruct (run_tasks pick _ _ _) as [evs futures]. simpl in *.
  apply H; [apply length_imap | | exact Hev].
  apply elem_of_lookup_imap. exists i, t. split; [reflexivity | exact Hi].
Qed.

Lemma submit_all_events_inv (ev : event) :
  ev ∈ events (submit_all pick tasks) ->
  exists i t, tasks !! i = Some t /\ ev ∈ events t.
Proof.
  unfold submit_all.
  pose proof (run_tasks_events_inv (length tasks)
                (imap (fun i task => (i, task)) tasks)
                (replicate (length tasks) Blocked) ev) as H.
  destruct (run_tasks pick _ _ _) as [evs futures]. simpl in *.
  intros Hev. destruct (H Hev) as (i & t & Hel & Hev').
  apply elem_of_lookup_imap in Hel as (j & t' & E & Hj).
  injection E as -> ->. exists j, t'. split; assumption.
Qed.

End Pool.

(** ** match.py: [match_images] *)

Lemma events_bind_return {A B : Type} (m : M A) (f : A -> M B) (a : A) :
  result m = Return a -> events (bind m f) = events m ++ events (f a).
Proof.
  destruct m as [evs o]. simpl. intros ->. simpl.
  destruct (f a). reflexivity.
Qed.

Lemma mapM_future_result_return {A : Type} (rs : list A) :
  mapM future_result (Return <$> rs) = ([], Return rs).
Proof.
  induction rs as [|r rs IH]; [reflexivity |].
  cbn [fmap list_fmap mapM]. rewrite IH. reflexivity.
Qed.

Lemma mapM_future_result_raise {A : Type} (rs : list A) (e : exn)
    (rest : list (outcome A)) :
  mapM future_result ((Return <$> rs) ++ Raise e :: rest) = ([], Raise e).
Proof.
  induction rs as [|r rs IH]; [reflexivity |].
  cbn [fmap list_fmap mapM app]. cbn [fmap] in IH. rewrite IH. reflexivity.
Qed.

(** A list of finished futures is all values, or values up to a first
    exception. *)
Lemma outcomes_split {A : Type} (os : list (outcome A)) :
  Forall (fun o => o <> Blocked) os ->
  (exists rs, os = Return <$> rs)
  \/ (exists rs e rest, os = (Return <$> rs) ++ Raise e :: rest).
Proof.
  induction 1 as [|o os Ho _ IH]; [left; exists []; reflexivity |].
  destruct o as [a|e|]; [| | contradiction].
  - destruct IH as [[rs ->] | (rs & e & rest & ->)].
    + left. exists (a :: rs). reflexivity.
    + right. exists (a :: rs), e, rest. reflexivity.
  - right. exists [], e, os. reflexivity.
Qed.

Lemma result_mapM_always {A : Type} (f : A -> M unit) (l : list A) :
  (forall a, result (f a) = Return tt) ->
  result (mapM f l) = Return (map (fun _ => tt) l).
Proof.
  intros Hf. induction l as [|a l IH]; [reflexivity |].
  cbn [mapM map].
  rewrite (result_bind_return _ _ tt) by apply Hf.
  rewrite (result_bind_return _ _ _ IH). reflexivity.
Qed.

Lemma events_bind_inv {A B : Type} (m : M A) (f : A -> M B) (ev : event) :
  ev ∈ events (bind m f) ->
  ev ∈ events m \/ exists a, result m = Return a /\ ev ∈ events (f a).
Proof.
  destruct m as [evs [a|e|]]; simpl; auto.
  destruct (f a) as [evs' o] eqn:E. simpl. intros H.
  apply elem_of_app in H as [H|H]; [left; exact H | right].
  exists a. rewrite E. auto.
Qed.

Lemma events_mapM_future_result {A : Type} (futures : list (outcome A)) :
  events (mapM future_result futures) = [].
Proof.
  induction futures as [|[a|e|] futures IH]; try reflexivity.
  cbn [mapM]. unfold future_result at 1.
  destruct (mapM future_result futures) as [evs [rs|e|]];
    simpl in *; rewrite ?app_nil_r; exact IH.
Qed.

Lemma events_mapM_print (l : list (string * LevelsAdjustment)) (ev : event) :
  ev ∈ events (mapM (fun badj => print_band (fst badj) (snd badj)) l) ->
  is_fit ev = false.
Proof.
  induction l as [|[b adj] l IH]; simpl; intros H; [inversion H |].
  destruct (mapM _ l) as [evs [us|e|]]; simpl in *;
    apply elem_of_cons in H as [->|H]; try reflexivity;
    apply IH; rewrite ?app_nil_r in H; exact H.
Qed.

Section Matching.

Variable quantile : ndarray -> ndarray -> exn + ndarray.
Variable curve_fit : fit_call -> exn + list float64.
Variable resize : Image.t -> Z * Z -> resample -> exn + Image.t.
Variable pick : nat -> nat.

Lemma channel_fit_not_blocked (histogram : bool) (bx by_ : ndarray) :
  result (channel_fit quantile curve_fit histogram bx by_) <> Blocked.
Proof.
  unfold channel_fit. destruct histogram; simpl.
  - apply match_histogram_not_blocked.
  - apply match_array_not_blocked.
Qed.

Lemma channel_tasks_lookup (x y : Image.t) (histogram : bool) (i : nat)
    (bx by_ : ndarray) :
  Image.split x !! i = Some bx -> Image.split y !! i = Some by_ ->
  channel_tasks quantile curve_fit x y histogram !! i
  = Some (channel_fit quantile curve_fit histogram bx by_).
Proof.
  intros Hx Hy. unfold channel_tasks. rewrite list_lookup_fmap.
  assert (E : zip (Image.split x) (Image.split y) !! i = Some (bx, by_)).
  { apply lookup_zip_with_Some. exists bx, by_. auto. }
  rewrite E. reflexivity.
Qed.

Lemma channel_tasks_lookup_inv (x y : Image.t) (histogram : bool)
    (i : nat) (t : M LevelsAdjustment) :
  channel_tasks quantile curve_fit x y histogram !! i = Some t ->
  exists bx by_, Image.split x !! i = Some bx /\
                 Image.split y !! i = Some by_ /\
                 t = channel_fit quantile curve_fit histogram bx by_.
Proof.
  unfold channel_tasks. rewrite list_lookup_fmap. intros H.
  destruct (zip _ _ !! i) as [[bx by_]|] eqn:E; [| discriminate].
  apply lookup_zip_with_Some in E as (bx' & by' & Exy & Hx & Hy).
  injection Exy as -> ->. injection H as <-. exists bx', by'. auto.
Qed.

Lemma channel_tasks_length (x y : Image.t) (histogram : bool) :
  length (channel_tasks quantile curve_fit x y histogram)
  = Nat.min (length (Image.split x)) (length (Image.split y)).
Proof. unfold channel_tasks. rewrite length_fmap. apply length_zip. Qed.

(** [match_bands] unfolded over [channel_tasks]. *)
Lemma match_bands_unfold (x y : Image.t) (histogram : bool) :
  match_bands quantile curve_fit pick x y histogram
  = (futures <- submit_all pick
                  (channel_tasks quantile curve_fit x y histogram) ;;
     results <- mapM future_result futures ;;
     mapM (fun badj : string * LevelsAdjustment =>
             print_band (fst badj) (snd badj))
       (zip (Image.getbands x) results) ;;;
     ret results).
Proof.
  unfold match_bands, channel_tasks, channel_fit. cbv zeta.
  destruct histogram; reflexivity.
Qed.

Lemma channel_tasks_not_blocked (x y : Image.t) (histogram : bool) :
  Forall (fun t => result t <> Blocked)
    (channel_tasks quantile curve_fit x y histogram).
Proof.
  apply Forall_lookup. intros i t Hi.
  apply channel_tasks_lookup_inv in Hi as (bx & by_ & _ & _ & ->).
  apply channel_fit_not_blocked.
Qed.

(** The result of [match_bands] is read off the outcomes of the channel
    fits in channel order, whatever the completion order. *)
Lemma match_bands_return (x y : Image.t) (histogram : bool)
    (rs : list LevelsAdjustment) :
  result <$> channel_tasks quantile curve_fit x y histogram = Return <$> rs ->
  result (match_bands quantile curve_fit pick x y histogram) = Return rs.
Proof.
  intros Hrs. rewrite match_bands_unfold.
  rewrite (result_bind_return _ _ (Return <$> rs)).
  2:{ rewrite submit_all_result by apply channel_tasks_not_blocked.
      rewrite Hrs. reflexivity. }
  rewrite (result_bind_return _ _ rs)
    by (rewrite mapM_future_result_return; reflexivity).
  erewrite result_bind_return; [reflexivity |].
  apply result_mapM_always. intros [b adj]. reflexivity.
Qed.

Lemma match_bands_raise (x y : Image.t) (histogram : bool)
    (rs : list LevelsAdjustment) (e : exn)
    (rest : list (outcome LevelsAdjustment)) :
  result <$> channel_tasks quantile curve_fit x y histogram
  = (Return <$> rs) ++ Raise e :: rest ->
  result (match_bands quantile curve_fit pick x y histogram) = Raise e.
Proof.
  intros Hrs. rewrite match_bands_unfold.
  rewrite (result_bind_return _ _ ((Return <$> rs) ++ Raise e :: rest)).
  2:{ rewrite submit_all_result by apply channel_tasks_not_blocked.
      rewrite Hrs. reflexivity. }
  apply result_bind_raise. rewrite mapM_future_result_raise. reflexivity.
Qed.

Lemma match_bands_events (x y : Image.t) (histogram : bool) (i : nat)
    (bx by_ : ndarray) (ev : event) :
  Image.split x !! i = Some bx -> Image.split y !! i = Some by_ ->
  ev ∈ events (channel_fit quantile curve_fit histogram bx by_) ->
  ev ∈ events (match_bands quantile curve_fit pick x y histogram).
Proof.
  intros Hx Hy Hev. rewrite match_bands_unfold.
  pose proof (submit_all_result pick _
                (channel_tasks_not_blocked x y histogram)) as Hres.
  rewrite (events_bind_return _ _ _ Hres). apply elem_of_app. left.
  eapply submit_all_events; [| exact Hev].
  exact (channel_tasks_lookup x y histogram i bx by_ Hx Hy).
Qed.

Lemma match_images_result (x y x' y' : Image.t) (histogram : bool) :
  result (resize_to_match resize x y) = Return (x', y') ->
  result (match_images quantile curve_fit resize pick x y histogram)
  = result (match_bands quantile curve_fit pick x' y' histogram).
Proof.
  intros H. unfold match_images.
  rewrite (result_bind_return _ _ _ H). reflexivity.
Qed.

Lemma match_images_events (x y x' y' : Image.t) (histogram : bool) :
  result (resize_to_match resize x y) = Return (x', y') ->
  events (match_images quantile curve_fit resize pick x y histogram)
  = events (match_bands quantile curve_fit pick x' y' histogram).
Proof.
  intros H. unfold match_images.
  rewrite (events_bind_return _ _ _ H).
  assert (E : events (resize_to_match resize x y) = []).
  { unfold resize_to_match. destruct (decide _); [| reflexivity].
    destruct (resize x _ _) as [e|x1]; [reflexivity |].
    rewrite bind_lift_inr.
    destruct (resize y _ _) as [e|y1]; reflexivity. }
  rewrite E. reflexivity.
Qed.

(** When every channel fit returns, so does [match_bands], with one
    result per zipped channel pair, the i-th being the fit of the i-th
    pair. *)
Lemma match_bands_all_return (x y : Image.t) (histogram : bool) :
  (forall i bx by_,
      Image.split x !! i = Some bx -> Image.split y !! i = Some by_ ->
      exists adj,
        result (channel_fit quantile curve_fit histogram bx by_)
        = Return adj) ->
  exists rs,
    result (match_bands quantile curve_fit pick x y histogram) = Return rs
    /\ length rs
       = Nat.min (length (Image.split x)) (length (Image.split y))
    /\ forall i bx by_,
         Image.split x !! i = Some bx -> Image.split y !! i = Some by_ ->
         exists adj,
           rs !! i = Some adj /\
           result (channel_fit quantile curve_fit histogram bx by_)
           = Return adj.
Proof.
  intros Hall.
  destruct (outcomes_split
              (result <$> channel_tasks quantile curve_fit x y histogram))
    as [[rs Hrs] | (rs & e & rest & Hrs)].
  { apply Forall_fmap. apply channel_tasks_not_blocked. }
  - exists rs. split; [apply match_bands_return, Hrs |].
    split.
    + rewrite <- (channel_tasks_length x y histogram).
      rewrite <- (length_fmap result), Hrs.
      rewrite length_fmap. reflexivity.
    + intros i bx by_ Hx Hy.
      pose proof (channel_tasks_lookup x y histogram i bx by_ Hx Hy) as Ht.
      assert (Hi : (result <$> channel_tasks quantile curve_fit x y
                                 histogram) !! i
                   = Some (result (channel_fit quantile curve_fit
                                     histogram bx by_)))
        by (rewrite list_lookup_fmap, Ht; reflexivity).
      rewrite Hrs, list_lookup_fmap in Hi.
      destruct (rs !! i) as [adj|]; [| discriminate].
      exists adj. split; [reflexivity |]. simpl in Hi. congruence.
  - exfalso.
    assert (Hi : (result <$> channel_tasks quantile curve_fit x y histogram)
                 !! length rs
                 = Some (Raise e)).
    { rewrite Hrs. rewrite lookup_app_r by (rewrite length_fmap; lia).
      rewrite length_fmap, Nat.sub_diag. reflexivity. }
    rewrite list_lookup_fmap in Hi.
    destruct (channel_tasks quantile curve_fit x y histogram !! length rs)
      as [t|] eqn:Ht;
      [| discriminate].
    apply channel_tasks_lookup_inv in Ht as (bx & by_ & Hx & Hy & ->).
    destruct (Hall _ _ _ Hx Hy) as [adj Hadj].
    simpl in Hi. congruence.
Qed.

(** The solver runs of [match_bands] are those of its channel fits. *)
Lemma match_bands_fit_events_inv (x y : Image.t) (histogram : bool)
    (c : fit_call) :
  EvFit c ∈ events (match_bands quantile curve_fit pick x y histogram) ->
  exists i bx by_,
    Image.split x !! i = Some bx /\ Image.split y !! i = Some by_ /\
    EvFit c ∈ events (channel_fit quantile curve_fit histogram bx by_).
Proof.
  rewrite match_bands_unfold. intros H.
  apply events_bind_inv in H as [H | (futures & _ & H)].
  - apply submit_all_events_inv in H as (i & t & Ht & Hev).
    apply channel_tasks_lookup_inv in Ht as (bx & by_ & Hx & Hy & ->).
    exists i, bx, by_. auto.
  - exfalso. apply events_bind_inv in H as [H | (rs & _ & H)].
    + rewrite events_mapM_future_result in H. inversion H.
    + apply events_bind_inv in H as [H | (us & _ & H)].
      * apply events_mapM_print in H. discriminate.
      * inversion H.
Qed.

(** When a channel fit raises, the first channel in channel order whose
    fit raises decides the result of [match_bands]. *)
Lemma match_bands_first_failure (x y : Image.t) (histogram : bool)
    (i : nat) (bx by_ : ndarray) (e : exn) :
  Image.split x !! i = Some bx -> Image.split y !! i = Some by_ ->
  result (channel_fit quantile curve_fit histogram bx by_) = Raise e ->
  exists j bxj byj ej,
    (j <= i)%nat /\
    Image.split x !! j = Some bxj /\ Image.split y !! j = Some byj /\
    result (channel_fit quantile curve_fit histogram bxj byj) = Raise ej /\
    (forall k bxk byk,
        (k < j)%nat ->
        Image.split x !! k = Some bxk -> Image.split y !! k = Some byk ->
        exists adj,
          result (channel_fit quantile curve_fit histogram bxk byk)
          = Return adj) /\
    result (match_bands quantile curve_fit pick x y histogram) = Raise ej.
Proof.
  intros Hx Hy He.
  pose proof (channel_tasks_lookup x y histogram i bx by_ Hx Hy) as Ht.
  assert (Hi : (result <$> channel_tasks quantile curve_fit x y histogram)
               !! i = Some (Raise e))
    by (rewrite list_lookup_fmap, Ht; simpl; congruence).
  destruct (outcomes_split
              (result <$> channel_tasks quantile curve_fit x y histogram))
    as [[rs Hrs] | (rs & ej & rest & Hrs)].
  { apply Forall_fmap. apply channel_tasks_not_blocked. }
  - exfalso. rewrite Hrs, list_lookup_fmap in Hi.
    destruct (rs !! i); discriminate.
  - assert (Hj : (result <$> channel_tasks quantile curve_fit x y histogram)
                 !! length rs = Some (Raise ej)).
    { rewrite Hrs. rewrite lookup_app_r by (rewrite length_fmap; lia).
      rewrite length_fmap, Nat.sub_diag. reflexivity. }
    rewrite list_lookup_fmap in Hj.
    destruct (channel_tasks quantile curve_fit x y histogram !! length rs)
      as [t|] eqn:Htj; [| discriminate].
    apply channel_tasks_lookup_inv in Htj as (bxj & byj & Hxj & Hyj & ->).
    exists (length rs), bxj, byj, ej.
    split; [| split; [exact Hxj | split; [exact Hyj | split; [| split]]]].
    + destruct (Nat.le_gt_cases (length rs) i) as [Hle|Hgt];
        [exact Hle | exfalso].
      rewrite Hrs in Hi.
      rewrite lookup_app_l in Hi by (rewrite length_fmap; exact Hgt).
      rewrite list_lookup_fmap in Hi. destruct (rs !! i); discriminate.
    + simpl in Hj. congruence.
    + intros k bxk byk Hk Hxk Hyk.
      pose proof (channel_tasks_lookup x y histogram k bxk byk Hxk Hyk)
        as Htk.
      assert (Hrk : (result <$> channel_tasks quantile curve_fit x y
                                  histogram) !! k
                    = Some (result (channel_fit quantile curve_fit
                                      histogram bxk byk)))
        by (rewrite list_lookup_fmap, Htk; reflexivity).
      rewrite Hrs in Hrk.
      rewrite lookup_app_l in Hrk by (rewrite length_fmap; exact Hk).
      rewrite list_lookup_fmap in Hrk.
      destruct (rs !! k) as [adj|]; [| discriminate].
      exists adj. simpl in Hrk. congruence.
    + eapply match_bands_raise. exact Hrs.
Qed.

End Matching.

(** ** Concrete runs with the reference solver *)

Lemma resize_to_match_same_size
    (resize : Image.t -> Z * Z -> resample -> exn + Image.t)
    (x y : Image.t) :
  Image.size x = Image.size y ->
  resize_to_match resize x y = ([], Return (x, y)).
Proof.
  intros H. unfold resize_to_match.
  destruct (decide _) as [Hne|_]; [contradiction | reflexivity].
Qed.

Lemma channel_fit_default
    (quantile : ndarray -> ndarray -> exn + ndarray)
    (curve_fit : fit_call -> exn + list float64) (bx by_ : ndarray) :
  channel_fit quantile curve_fit false bx by_
  = match_array quantile curve_fit bx by_ None None.
Proof. reflexivity. Qed.

Lemma channel_fit_seed_solver_small
    (quantile : ndarray -> ndarray -> exn + ndarray) (bx by_ : ndarray) :
  (ndarray_size bx <= 2048)%Z ->
  result (channel_fit quantile seed_solver false bx by_)
  = Return (mkLevelsAdjustment (Fin 0) (Fin 1) (Fin 0) (Fin 1) (Fin 1)).
Proof.
  intros H. rewrite channel_fit_default.
  rewrite match_array_unseeded by (simpl; lia).
  rewrite pixel_fit_seed_solver_identity. reflexivity.
Qed.

Lemma channel_fit_failing_solver_small
    (quantile : ndarray -> ndarray -> exn + ndarray) (bx by_ : ndarray) :
  (ndarray_size bx <= 2048)%Z ->
  result (channel_fit quantile failing_solver false bx by_)
  = Raise (RuntimeError "Optimal parameters not found").
Proof.
  intros H. rewrite channel_fit_default.
  rewrite match_array_unseeded by (simpl; lia). reflexivity.
Qed.

Lemma channel_fit_small_runs_solver
    (quantile : ndarray -> ndarray -> exn + ndarray)
    (curve_fit : fit_call -> exn + list float64) (bx by_ : ndarray) :
  (ndarray_size bx <= 2048)%Z ->
  exists c, EvFit c ∈ events (channel_fit quantile curve_fit false bx by_).
Proof.
  intros H. rewrite channel_fit_default.
  rewrite match_array_unseeded by (simpl; lia).
  unfold pixel_fit_spec, run_curve_fit. eexists.
  destruct (curve_fit _); simpl; apply list_elem_of_here.
Qed.

(** ** Solver failures in a channel fit *)

Section Failure.

Variable quantile : ndarray -> ndarray -> exn + ndarray.
Variable curve_fit : fit_call -> exn + list float64.

(** The last step of both strategies: one solver run, whose exception
    leaves the function and whose result alone makes the returned
    parameter set. *)
Lemma run_fit_outcome (c0 : fit_call) :
  let m := popt <- run_curve_fit curve_fit c0 ;;
           lift (LevelsAdjustment_star popt) in
  events m = [EvFit c0] /\
  (forall e, curve_fit c0 = inl e -> result m = Raise e) /\
  (forall adj, result m = Return adj ->
     exists popt, curve_fit c0 = inr popt /\
                  LevelsAdjustment_star popt = inr adj).
Proof.
  cbv zeta. unfold run_curve_fit.
  destruct (curve_fit c0) as [e0|popt];
    cbn [of_call bind events result fst snd].
  - split; [reflexivity | split].
    + intros e He. congruence.
    + intros adj H. discriminate.
  - destruct (LevelsAdjustment_star popt) as [e1|adj1] eqn:Es;
      cbn [lift of_call events result fst snd app].
    + split; [reflexivity | split]; intros ? H; discriminate.
    + split; [reflexivity | split].
      * intros e H. discriminate.
      * intros adj H. injection H as <-. exists popt. auto.
Qed.

Lemma match_histogram_solver (x y : list float64) (xtol : option float64)
    (samples : option Z) :
  let m := match_histogram quantile curve_fit x y xtol samples in
  (forall c e, EvFit c ∈ events m -> curve_fit c = inl e ->
     result m = Raise e) /\
  (forall adj, result m = Return adj ->
     exists c popt, EvFit c ∈ events m /\ curve_fit c = inr popt /\
                    LevelsAdjustment_star popt = inr adj).
Proof.
  cbv zeta. unfold match_histogram. cbv zeta.
  destruct (np_linspace 0 1 _) as [e0|levels].
  { split; [intros c e H; inversion H | intros adj H; discriminate]. }
  rewrite bind_lift_inr.
  destruct (quantile x levels) as [e0|xq].
  { split; [intros c e H; inversion H | intros adj H; discriminate]. }
  rewrite !bind_lift_inr.
  destruct (quantile y levels) as [e0|yq].
  { split; [intros c e H; inversion H | intros adj H; discriminate]. }
  rewrite bind_lift_inr.
  match goal with
  | |- context [run_curve_fit curve_fit ?c0] =>
      destruct (run_fit_outcome c0) as (Hev & Hfail & Hret)
  end.
  cbv zeta in Hev, Hfail, Hret. rewrite Hev. split.
  - intros c e Hc He. apply list_elem_of_singleton in Hc.
    injection Hc as ->. apply Hfail, He.
  - intros adj Hadj. destruct (Hret adj Hadj) as (popt & Hp & Hs).
    eexists _, popt. split; [apply list_elem_of_here | auto].
Qed.

Lemma pixel_fit_solver (x y : list float64) (tol : float64)
    (p0 : list float64) :
  let m := pixel_fit_spec curve_fit x y tol p0 in
  (forall c e, EvFit c ∈ events m -> curve_fit c = inl e ->
     result m = Raise e) /\
  (forall adj, result m = Return adj ->
     exists c popt, EvFit c ∈ events m /\ curve_fit c = inr popt /\
                    LevelsAdjustment_star popt = inr adj).
Proof.
  cbv zeta. unfold pixel_fit_spec.
  match goal with
  | |- context [run_curve_fit curve_fit ?c0] =>
      destruct (run_fit_outcome c0) as (Hev & Hfail & Hret)
  end.
  cbv zeta in Hev, Hfail, Hret. rewrite Hev. split.
  - intros c e Hc He. apply list_elem_of_singleton in Hc.
    injection Hc as ->. apply Hfail, He.
  - intros adj Hadj. destruct (Hret adj Hadj) as (popt & Hp & Hs).
    eexists _, popt. split; [apply list_elem_of_here | auto].
Qed.

Lemma match_array_solver (x y : list float64) (xtol : option float64)
    (samples : option Z) :
  let m := match_array quantile curve_fit x y xtol samples in
  (forall c e, EvFit c ∈ events m -> curve_fit c = inl e ->
     result m = Raise e) /\
  (forall adj, result m = Return adj ->
     exists c popt, EvFit c ∈ events m /\ curve_fit c = inr popt /\
                    LevelsAdjustment_star popt = inr adj).
Proof.
  cbv zeta.
  destruct (Z_lt_dec (default 2048%Z samples) (ndarray_size x)) as [Hlt|Hge].
  - rewrite match_array_seeded by exact Hlt.
    destruct (match_histogram_solver x y (Some (Fin (1 / 256)))
                (Some (default 2048%Z samples))) as (Hhf & Hhr).
    cbv zeta in Hhf, Hhr.
    destruct (match_histogram _ _ _ _ _ _) as [evs [seed|e0|]] eqn:Eh;
      cbn [bind events result fst snd] in *.
    + destruct (pixel_fit_solver x y (default (Fin (1 / 1024)) xtol)
                  (astuple seed)) as (Hpf & Hpr).
      cbv zeta in Hpf, Hpr.
      destruct (pixel_fit_spec _ _ _ _ _) as [evs' o'] eqn:Ep.
      cbn [events result fst snd] in *. split.
      * intros c e Hc He. apply elem_of_app in Hc as [Hc|Hc].
        -- specialize (Hhf c e Hc He). discriminate.
        -- exact (Hpf c e Hc He).
      * intros adj Hadj. destruct (Hpr adj Hadj) as (c & popt & Hc & Hp).
        exists c, popt. split; [apply elem_of_app; right; exact Hc | exact Hp].
    + split; [exact Hhf | intros adj H; discriminate].
    + split; [exact Hhf | intros adj H; discriminate].
  - rewrite match_array_unseeded by exact Hge. apply pixel_fit_solver.
Qed.

(** A channel fit raises the exception of a solver run of its own that
    failed, and returns nothing but the result of a solver run of its
    own. *)
Lemma channel_fit_solver_failure (histogram : bool) (bx by_ : list float64)
    (c : fit_call) (e : exn) :
  EvFit c ∈ events (channel_fit quantile curve_fit histogram bx by_) ->
  curve_fit c = inl e ->
  result (channel_fit quantile curve_fit histogram bx by_) = Raise e.
Proof.
  unfold channel_fit. destruct histogram; cbn [negb].
  - apply (proj1 (match_histogram_solver bx by_ None None)).
  - apply (proj1 (match_array_solver bx by_ None None)).
Qed.

Lemma channel_fit_return_solver (histogram : bool) (bx by_ : list float64)
    (adj : LevelsAdjustment) :
  result (channel_fit quantile curve_fit histogram bx by_) = Return adj ->
  exists c popt,
    EvFit c ∈ events (channel_fit quantile curve_fit histogram bx by_) /\
    curve_fit c = inr popt /\ LevelsAdjustment_star popt = inr adj.
Proof.
  unfold channel_fit. destruct histogram; cbn [negb].
  - apply (proj2 (match_histogram_solver bx by_ None None)).
  - apply (proj2 (match_array_solver bx by_ None None)).
Qed.

End Failure.

(** ** The claims on [match_images] *)

(** C4. When a solver run of a channel's fit fails, that fit raises the
    solver's exception and [match_images] raises: the exception is that of
    the first channel, in channel order, whose fit raised (the solver's
    own when this is the channel at hand), and no list of parameters is
    returned, partial or padded.  No default is substituted anywhere: a
    parameter set returned by a channel fit is the result of a solver run
    of that fit. *)
Theorem match_images_fit_failure
    (quantile : ndarray -> ndarray -> exn + ndarray)
    (curve_fit : fit_call -> exn + list float64)
    (resize : Image.t -> Z * Z -> resample -> exn + Image.t)
    (pick : nat -> nat)
    (x y x' y' : Image.t) (histogram : bool) :
  result (resize_to_match resize x y) = Return (x', y') ->
  (forall i bx by_ adj,
      Image.split x' !! i = Some bx -> Image.split y' !! i = Some by_ ->
      result (channel_fit quantile curve_fit histogram bx by_) = Return adj ->
      exists c popt,
        EvFit c ∈ events (channel_fit quantile curve_fit histogram bx by_) /\
        curve_fit c = inr popt /\ LevelsAdjustment_star popt = inr adj)
  /\
  (forall i bx by_ c e,
      Image.split x' !! i = Some bx -> Image.split y' !! i = Some by_ ->
      EvFit c ∈ events (channel_fit quantile curve_fit histogram bx by_) ->
      curve_fit c = inl e ->
      result (channel_fit quantile curve_fit histogram bx by_) = Raise e /\
      exists j bxj byj ej,
        (j <= i)%nat /\
        Image.split x' !! j = Some bxj /\ Image.split y' !! j = Some byj /\
        result (channel_fit quantile curve_fit histogram bxj byj)
        = Raise ej /\
        (j = i -> ej = e) /\
        (forall k bxk byk,
            (k < j)%nat ->
            Image.split x' !! k = Some bxk ->
            Image.split y' !! k = Some byk ->
            exists adj,
              result (channel_fit quantile curve_fit histogram bxk byk)
              = Return adj) /\
        result (match_images quantile curve_fit resize pick x y histogram)
        = Raise ej /\
        (forall rs,
            result (match_images quantile curve_fit resize pick x y
                      histogram)
            <> Return rs)).
Proof.
  intros Hrz. split.
  - intros i bx by_ adj _ _. apply channel_fit_return_solver.
  - intros i bx by_ c e Hx Hy Hc He.
    pose proof (channel_fit_solver_failure quantile curve_fit histogram bx
                  by_ c e Hc He) as Hraise.
    split; [exact Hraise |].
    destruct (match_bands_first_failure quantile curve_fit pick x' y'
                histogram i bx by_ e Hx Hy Hraise)
      as (j & bxj & byj & ej & Hji & Hxj & Hyj & Hej & Hbefore & Hres).
    exists j, bxj, byj, ej.
    rewrite (match_images_result quantile curve_fit resize pick x y x' y'
               histogram Hrz), Hres.
    repeat split; try assumption.
    + intros ->. congruence.
    + intros rs. discriminate.
Qed.

Lemma match_images_fit_failure_witness :
  let quantile := fun (_ q : list float64) => inr q : exn + list float64 in
  let c := mkFit level_array (np_divide [Fin 255] (Fin 255))
             (np_divide [Fin 255] (Fin 255)) dogbox (Fin (1 / 1024))
             [Fin 0; Fin 1; Fin 0; Fin 1; Fin 1] level_bounds in
  let e := RuntimeError "Optimal parameters not found" in
  EvFit c ∈ events (channel_fit quantile failing_solver false [Fin 255]
                      [Fin 255]) /\
  failing_solver c = inl e /\
  result (channel_fit quantile failing_solver false [Fin 255] [Fin 255])
  = Raise e /\
  exists j bxj byj ej,
    (j <= 1)%nat /\
    Image.split gray_alpha_pixel !! j = Some bxj /\
    Image.split gray_alpha_pixel !! j = Some byj /\
    result (channel_fit quantile failing_solver false bxj byj) = Raise ej /\
    (j = 1%nat -> ej = e) /\
    (forall k bxk byk,
        (k < j)%nat ->
        Image.split gray_alpha_pixel !! k = Some bxk ->
        Image.split gray_alpha_pixel !! k = Some byk ->
        exists adj,
          result (channel_fit quantile failing_solver false bxk byk)
          = Return adj) /\
    result (match_images quantile failing_solver crop_resize
              (fun n => n) gray_alpha_pixel gray_alpha_pixel false)
    = Raise ej /\
    (forall rs,
        result (match_images quantile failing_solver crop_resize
                  (fun n => n) gray_alpha_pixel gray_alpha_pixel false)
        <> Return rs).
Proof.
  intros quantile c e.
  assert (Hc : EvFit c ∈ events (channel_fit quantile failing_solver false
                                   [Fin 255] [Fin 255])).
  { rewrite channel_fit_default.
    rewrite match_array_unseeded
      by (unfold ndarray_size; cbn [length default from_option Datatypes.id];
          lia).
    apply list_elem_of_here. }
  split; [exact Hc | split; [reflexivity |]].
  assert (Hrz : result (resize_to_match crop_resize gray_alpha_pixel
                          gray_alpha_pixel)
                = Return (gray_alpha_pixel, gray_alpha_pixel))
    by (rewrite resize_to_match_same_size; reflexivity).
  exact (proj2 (match_images_fit_failure quantile failing_solver crop_resize
                  (fun n => n) gray_alpha_pixel gray_alpha_pixel
                  gray_alpha_pixel gray_alpha_pixel false Hrz)
           1%nat [Fin 255] [Fin 255] c e eq_refl eq_refl Hc eq_refl).
Defined.

(** C5, amended.  [match_images] does not compare the channel counts of
    its two images: [zip] pairs the first [min] of the two counts, these
    pairs are fitted, and when their fits return, the call returns that
    many parameter sets, the i-th being the fit of the i-th pair. *)
Theorem match_images_band_count_unchecked
    (quantile : ndarray -> ndarray -> exn + ndarray)
    (curve_fit : fit_call -> exn + list float64)
    (resize : Image.t -> Z * Z -> resample -> exn + Image.t)
    (pick : nat -> nat)
    (x y x' y' : Image.t) (histogram : bool) :
  result (resize_to_match resize x y) = Return (x', y') ->
  length (Image.split x') <> length (Image.split y') ->
  (forall i bx by_,
      Image.split x' !! i = Some bx -> Image.split y' !! i = Some by_ ->
      exists adj,
        result (channel_fit quantile curve_fit histogram bx by_)
        = Return adj) ->
  (exists rs,
      result (match_images quantile curve_fit resize pick x y histogram)
      = Return rs
      /\ length rs
         = Nat.min (length (Image.split x')) (length (Image.split y'))
      /\ forall i bx by_,
           Image.split x' !! i = Some bx -> Image.split y' !! i = Some by_ ->
           exists adj,
             rs !! i = Some adj /\
             result (channel_fit quantile curve_fit histogram bx by_)
             = Return adj)
  /\ (forall i bx by_ ev,
         Image.split x' !! i = Some bx -> Image.split y' !! i = Some by_ ->
         ev ∈ events (channel_fit quantile curve_fit histogram bx by_) ->
         ev ∈ events (match_images quantile curve_fit resize pick x y
                        histogram))
  /\ (forall c,
         EvFit c ∈ events (match_images quantile curve_fit resize pick x y
                             histogram) ->
         exists i bx by_,
           Image.split x' !! i = Some bx /\ Image.split y' !! i = Some by_ /\
           EvFit c ∈ events (channel_fit quantile curve_fit histogram bx
                               by_)).
Proof.
  intros Hrz _ Hall. split; [| split].
  - rewrite (match_images_result quantile curve_fit resize pick x y x' y'
               histogram Hrz).
    apply match_bands_all_return, Hall.
  - intros i bx by_ ev Hx Hy Hev.
    rewrite (match_images_events quantile curve_fit resize pick x y x' y'
               histogram Hrz).
    eapply match_bands_events; eassumption.
  - intros c.
    rewrite (match_images_events quantile curve_fit resize pick x y x' y'
               histogram Hrz).
    apply match_bands_fit_events_inv.
Qed.

Lemma match_images_band_count_unchecked_witness :
  exists rs,
    result (match_images (fun _ q => inr q) seed_solver crop_resize
              (fun n => n) gray_alpha_pixel gray_pixel false)
    = Return rs
    /\ length rs = 1%nat.
Proof.
  destruct (match_images_band_count_unchecked (fun _ q => inr q) seed_solver
              crop_resize (fun n => n) gray_alpha_pixel gray_pixel
              gray_alpha_pixel gray_pixel false) as [(rs & Hrs & Hlen & _) _].
  - rewrite resize_to_match_same_size; reflexivity.
  - simpl. lia.
  - intros i bx by_ Hx _. eexists.
    apply channel_fit_seed_solver_small.
    destruct i as [|[|i]]; simpl in Hx; try discriminate;
      injection Hx as <-; unfold ndarray_size; cbn [length]; lia.
  - exists rs. split; [exact Hrs | exact Hlen].
Defined.

(** C5, as stated, fails.  For a two-channel image against a one-channel
    image no error for the mismatch is raised: whatever the solver, a fit
    is run, and with a solver that accepts the seed a list of one
    parameter set is returned. *)
Lemma match_images_band_mismatch_fits :
  length (Image.split gray_alpha_pixel) <> length (Image.split gray_pixel)
  /\ (forall quantile curve_fit resize pick,
         exists c,
           EvFit c ∈ events (match_images quantile curve_fit resize pick
                               gray_alpha_pixel gray_pixel false))
  /\ (forall quantile resize pick,
         result (match_images quantile seed_solver resize pick
                   gray_alpha_pixel gray_pixel false)
         = Return [identity_adjustment]).
Proof.
  split; [simpl; lia | split].
  - intros quantile curve_fit resize pick.
    destruct (channel_fit_small_runs_solver quantile curve_fit [Fin 0]
                [Fin 0]) as [c Hc]; [unfold ndarray_size; cbn [length]; lia |].
    exists c.
    rewrite (match_images_events quantile curve_fit resize pick
               gray_alpha_pixel gray_pixel gray_alpha_pixel gray_pixel false)
      by (rewrite resize_to_match_same_size; reflexivity).
    apply (match_bands_events quantile curve_fit pick gray_alpha_pixel
             gray_pixel false 0 [Fin 0] [Fin 0]); [reflexivity.. | exact Hc].
  - intros quantile resize pick.
    rewrite (match_images_result quantile seed_solver resize pick
               gray_alpha_pixel gray_pixel gray_alpha_pixel gray_pixel false)
      by (rewrite resize_to_match_same_size; reflexivity).
    apply match_bands_return. unfold channel_tasks. cbn [Image.split
      gray_alpha_pixel gray_pixel zip_with fmap list_fmap fst snd].
    rewrite channel_fit_seed_solver_small
      by (unfold ndarray_size; cbn [length]; lia).
    reflexivity.
Qed.



(** C7. For two images of [n] channels each, whatever order the pool
    completes the fits in, [match_images] returns exactly [n] parameter
    sets when the channel fits return, and the i-th is the result of the
    fit ([match_array], or [match_histogram] on request) of the i-th
    channel pair. *)
Theorem match_images_channel_order
    (quantile : ndarray -> ndarray -> exn + ndarray)
    (curve_fit : fit_call -> exn + list float64)
    (resize : Image.t -> Z * Z -> resample -> exn + Image.t)
    (pick : nat -> nat)
    (x y x' y' : Image.t) (histogram : bool) (n : nat) :
  result (resize_to_match resize x y) = Return (x', y') ->
  length (Image.split x') = n -> length (Image.split y') = n ->
  (forall i bx by_,
      Image.split x' !! i = Some bx -> Image.split y' !! i = Some by_ ->
      exists adj,
        result ((if negb histogram
                 then match_array quantile curve_fit
                 else match_histogram quantile curve_fit) bx by_ None None)
        = Return adj) ->
  exists rs,
    result (match_images quantile curve_fit resize pick x y histogram)
    = Return rs
    /\ length rs = n
    /\ forall i bx by_,
         Image.split x' !! i = Some bx -> Image.split y' !! i = Some by_ ->
         exists adj,
           rs !! i = Some adj /\
           result ((if negb histogram
                    then match_array quantile curve_fit
                    else match_histogram quantile curve_fit)
                     bx by_ None None)
           = Return adj.
Proof.
  intros Hrz Hnx Hny Hall.
  rewrite (match_images_result quantile curve_fit resize pick x y x' y'
             histogram Hrz).
  destruct (match_bands_all_return quantile curve_fit pick x' y' histogram
              Hall) as (rs & Hrs & Hlen & Hith).
  exists rs. split; [exact Hrs | split; [| exact Hith]].
  rewrite Hlen, Hnx, Hny. apply Nat.min_id.
Qed.

Lemma match_images_channel_order_witness :
  exists rs,
    result (match_images (fun _ q => inr q) seed_solver crop_resize
              (fun n => (2 * n)%nat) gray_alpha_pixel gray_alpha_pixel false)
    = Return rs
    /\ length rs = 2%nat.
Proof.
  destruct (match_images_channel_order (fun _ q => inr q) seed_solver
              crop_resize (fun n => (2 * n)%nat) gray_alpha_pixel
              gray_alpha_pixel gray_alpha_pixel gray_alpha_pixel false 2)
    as (rs & Hrs & Hlen & _).
  - rewrite resize_to_match_same_size; reflexivity.
  - reflexivity.
  - reflexivity.
  - intros i bx by_ Hx _. eexists.
    apply (channel_fit_seed_solver_small (fun _ q => inr q) bx by_).
    destruct i as [|[|i]]; simpl in Hx; try discriminate;
      injection Hx as <-; unfold ndarray_size; cbn [length]; lia.
  - exists rs. split; [exact Hrs | exact Hlen].
Defined.

(** * Further properties *)

(** ** level.py: further properties of the tone curve *)

Lemma fpow_unit (t g : R) :
  0 <= t <= 1 -> 0 < g ->
  exists p, fpow (Fin t) (Fin g) = Fin p /\ 0 <= p <= 1 /\
            (t = 0 -> p = 0) /\ (t = 1 -> p = 1).
Proof.
  intros Ht Hg. simpl. unfold fpow_fin. rewrite (Rsign_pos g Hg).
  destruct (Rlt_dec 0 t) as [Hpos|Hz].
  - rewrite (Rsign_pos t Hpos). exists (Rpower t g).
    pose proof (Rpower_unit t g). repeat split; try lra.
    intros ->. apply Rpower_one.
  - assert (t = 0) by lra. subst t. rewrite Rsign_zero.
    exists 0. repeat split; lra.
Qed.

(** The curve computed from a clamped position [t] of the input between
    the black and the white point. *)
Lemma tone_curve_from_position (x ib iw : float64) (ob ow g t p : R) :
  fclip (fdiv (fsub x ib) (fsub iw ib)) (Fin 0) (Fin 1) = Fin t ->
  fpow (Fin t) (Fin g) = Fin p ->
  tone_curve_spec x ib iw (Fin ob) (Fin ow) (Fin g)
  = Fin (Rmin (Rmax (p * (ow - ob) + ob) 0) 1).
Proof.
  intros Ht Hp. unfold tone_curve_spec. rewrite Ht, Hp. reflexivity.
Qed.

Lemma tone_curve_identity (x : float64) :
  tone_curve_spec x (Fin 0) (Fin 1) (Fin 0) (Fin 1) (Fin 1)
  = fclip x (Fin 0) (Fin 1).
Proof.
  assert (Hn : fdiv (fsub x (Fin 0)) (fsub (Fin 1) (Fin 0)) = x).
  { destruct x as [r| | |]; cbn [fsub fneg fadd fdiv]; try reflexivity.
    - destruct (Req_dec_T (1 + - 0) 0); [lra |]. f_equal. field.
    - destruct (Rlt_dec (1 + - 0) 0); [lra | reflexivity].
    - destruct (Rlt_dec (1 + - 0) 0); [lra | reflexivity]. }
  destruct (fclip x (Fin 0) (Fin 1)) as [t| | |] eqn:Ht.
  - assert (Hu : 0 <= t <= 1).
    { destruct x as [r| | |]; cbn [fclip fmax fmin] in Ht;
        try discriminate; injection Ht as <-;
        unfold Rmin, Rmax; rcases; lra. }
    destruct (fpow_unit t 1 Hu) as (p & Hp & _ & _ & _); [lra |].
    assert (p = t).
    { simpl in Hp. unfold fpow_fin in Hp.
      rewrite (Rsign_pos 1) in Hp by lra.
      destruct (Rlt_dec 0 t) as [Hpos|Hz].
      - rewrite (Rsign_pos t Hpos), Rpower_1 in Hp by exact Hpos.
        congruence.
      - assert (t = 0) by lra. subst t. rewrite Rsign_zero in Hp.
        congruence. }
    subst p.
    rewrite (tone_curve_from_position x (Fin 0) (Fin 1) 0 1 1 t t);
      [| rewrite Hn; exact Ht | exact Hp].
    f_equal. replace (t * (1 - 0) + 0) with t by lra.
    apply Rclip_unit_id, Hu.
  - destruct x; cbn [fclip fmax fmin] in Ht; discriminate.
  - destruct x; cbn [fclip fmax fmin] in Ht; discriminate.
  - destruct x; cbn [fclip fmax fmin] in Ht; try discriminate.
    unfold tone_curve_spec. cbn [fsub fneg fadd fdiv fclip fmax fmin fpow].
    destruct (Req_dec_T 1 0); [lra | reflexivity].
Qed.

(** X1. The adjustment (0, 1, 0, 1, 1) changes no value of the unit
    interval: on any array [level_array] is the clamp to [[0, 1]]. *)
Theorem level_array_identity (array : ndarray) :
  level_array array (Fin 0) (Fin 1) (Fin 0) (Fin 1) (Fin 1)
  = np_clip array (Fin 0) (Fin 1).
Proof.
  rewrite level_array_map. unfold np_clip.
  apply map_ext. intros x. apply tone_curve_identity.
Qed.

(** ** level.py in binary64 arithmetic: saturation, a zero gamma,
    inverted output points *)

Lemma fclip_unit_below (q : float64) :
  fle q (Fin 0) -> fclip q (Fin 0) (Fin 1) = Fin 0.
Proof.
  destruct q as [r| | |]; cbn [fclip fmax fmin fle]; intros H;
    try contradiction; f_equal.
  - rewrite Rmax_right, Rmin_left by lra. reflexivity.
  - rewrite Rmin_left by lra. reflexivity.
Qed.

Lemma fclip_unit_above (q : float64) :
  fle (Fin 1) q -> fclip q (Fin 0) (Fin 1) = Fin 1.
Proof.
  destruct q as [r| | |]; cbn [fclip fmax fmin fle]; intros H;
    try contradiction; try reflexivity.
  f_equal. rewrite Rmax_left, Rmin_right by lra. reflexivity.
Qed.

Lemma fdiv_0_l (d : R) : d <> 0 -> Binary64.fdiv (Fin 0) (Fin d) = Fin 0.
Proof.
  intros Hd. simpl. destruct (Req_dec_T d 0); [contradiction |].
  unfold Rdiv. rewrite Rmult_0_l. exact round64_0.
Qed.

Lemma fdiv_self (d : R) : d <> 0 -> Binary64.fdiv (Fin d) (Fin d) = Fin 1.
Proof.
  intros Hd. simpl. destruct (Req_dec_T d 0); [contradiction |].
  unfold Rdiv. rewrite Rinv_r by exact Hd. exact round64_1.
Qed.

Lemma position_below (ib d : R) (x : float64) :
  0 < d -> fle x (Fin ib) ->
  fclip (Binary64.fdiv (Binary64.fsub x (Fin ib)) (Fin d)) (Fin 0) (Fin 1)
  = Fin 0.
Proof.
  intros Hd Hx. apply fclip_unit_below.
  rewrite <- (fdiv_0_l d) by lra. apply fdiv_mono; [exact Hd |].
  rewrite <- (fsub_self ib). apply fsub_mono, Hx.
Qed.

Lemma position_above (ib iw d : R) (x : float64) :
  0 < d -> Binary64.fsub (Fin iw) (Fin ib) = Fin d -> fle (Fin iw) x ->
  fclip (Binary64.fdiv (Binary64.fsub x (Fin ib)) (Fin d)) (Fin 0) (Fin 1)
  = Fin 1.
Proof.
  intros Hd Ed Hx. apply fclip_unit_above.
  rewrite <- (fdiv_self d) by lra. apply fdiv_mono; [exact Hd |].
  rewrite <- Ed. apply fsub_mono, Hx.
Qed.

(** X2. In binary64 arithmetic, with binary64 input points
    [input_black < input_white] whose difference does not overflow and a
    positive gamma, the curve saturates: every input at or below the black
    point is sent to the clamped [output_black] (for a binary64
    [output_black] and an output range that does not overflow), and every
    input at or above the white point to the value of the white point,
    the clamped [(output_white - output_black) + output_black] as binary64
    computes it. *)
Theorem level_array_saturates (pow : float64 -> float64 -> float64)
    (ib iw ob ow g : R) (array : list float64) :
  pow_special_values pow ->
  representable ib -> representable iw -> ib < iw -> 0 < g ->
  is_finite (Binary64.fsub (Fin iw) (Fin ib)) ->
  (representable ob -> is_finite (Binary64.fsub (Fin ow) (Fin ob)) ->
   Forall (fun x => fle x (Fin ib)) array ->
   Binary64.level_array pow array (Fin ib) (Fin iw) (Fin ob) (Fin ow)
     (Fin g)
   = map (fun _ => fclip (Fin ob) (Fin 0) (Fin 1)) array)
  /\ (Forall (fun x => fle (Fin iw) x) array ->
      Binary64.level_array pow array (Fin ib) (Fin iw) (Fin ob) (Fin ow)
        (Fin g)
      = map (fun _ =>
               fclip
                 (Binary64.fadd (Binary64.fsub (Fin ow) (Fin ob)) (Fin ob))
                 (Fin 0) (Fin 1))
          array).
Proof.
  intros (_ & H1 & H0 & _) Hib Hiw Hlt Hg Hd.
  destruct (input_range_positive ib iw Hib Hiw Hlt Hd) as (d & Ed & Hd0 & _).
  split.
  - intros Hob [w Ew] Hall. rewrite level_array_map64.
    apply map_ext_in. intros x Hx.
    rewrite List.Forall_forall in Hall. specialize (Hall x Hx).
    unfold Binary64.tone_curve. rewrite Ed, Ew.
    rewrite (position_below ib d x Hd0 Hall), (H0 g Hg), fmul_0_l.
    rewrite fadd_0_l by exact Hob. reflexivity.
  - intros Hall. rewrite level_array_map64.
    apply map_ext_in. intros x Hx.
    rewrite List.Forall_forall in Hall. specialize (Hall x Hx).
    unfold Binary64.tone_curve. rewrite Ed.
    rewrite (position_above ib iw d x Hd0 Ed Hall), H1.
    rewrite fmul_1_l by apply fsub_is_float. reflexivity.
Qed.

Lemma fsub_quarters :
  Binary64.fsub (Fin (3 / 4)) (Fin (1 / 4)) = Fin (1 / 2).
Proof.
  rewrite fsub_fin. replace (3 / 4 - 1 / 4) with (IZR 1 * bpow (-1)).
  2:{ unfold bpow. simpl. lra. }
  replace (1 / 2) with (IZR 1 * bpow (-1)) by (unfold bpow; simpl; lra).
  apply round64_scaled; [lia | lia |].
  rewrite Rmult_1_l. apply bpow_lt. lia.
Qed.

Lemma representable_quarters :
  representable (1 / 4) /\ representable (3 / 4).
Proof.
  split.
  - replace (1 / 4) with (IZR 1 * bpow (-2)) by (unfold bpow; simpl; lra).
    apply representable_scaled; [reflexivity | lia |].
    rewrite Rmult_1_l, Rabs_pos_eq by apply Rlt_le, bpow_pos.
    apply bpow_lt. lia.
  - replace (3 / 4) with (IZR 3 * bpow (-2)) by (unfold bpow; simpl; lra).
    apply representable_scaled; [reflexivity | lia |].
    pose proof (bpow_pos (-2)).
    rewrite Rabs_pos_eq by lra.
    apply Rlt_trans with (bpow 0); [unfold bpow; simpl; lra |].
    apply bpow_lt. lia.
Qed.

Lemma level_array_saturates_witness :
  Binary64.level_array pow_cr [Fin 0; NInf] (Fin (1 / 4)) (Fin (3 / 4))
    (Fin 0) (Fin 1) (Fin 2)
  = map (fun _ => fclip (Fin 0) (Fin 0) (Fin 1)) [Fin 0; NInf]
  /\ Binary64.level_array pow_cr [Fin 1; PInf] (Fin (1 / 4)) (Fin (3 / 4))
       (Fin 0) (Fin 1) (Fin 2)
     = map (fun _ =>
              fclip (Binary64.fadd (Binary64.fsub (Fin 1) (Fin 0)) (Fin 0))
                (Fin 0) (Fin 1))
         [Fin 1; PInf].
Proof.
  assert (Hd : is_finite (Binary64.fsub (Fin (3 / 4)) (Fin (1 / 4))))
    by (exists (1 / 2); exact fsub_quarters).
  split.
  - apply (proj1 (level_array_saturates pow_cr (1 / 4) (3 / 4) 0 1 2
                    [Fin 0; NInf] pow_cr_special_values
                    (proj1 representable_quarters)
                    (proj2 representable_quarters) ltac:(lra) ltac:(lra)
                    Hd)).
    + exact representable_0.
    + exists 1. exact fsub_1_0.
    + repeat constructor. simpl. lra.
  - apply (proj2 (level_array_saturates pow_cr (1 / 4) (3 / 4) 0 1 2
                    [Fin 1; PInf] pow_cr_special_values
                    (proj1 representable_quarters)
                    (proj2 representable_quarters) ltac:(lra) ltac:(lra)
                    Hd)).
    repeat constructor. simpl. lra.
Defined.

(** X3. With gamma 0 the curve is constant: whatever the input, NaN
    included, and whatever the black and white input points, the result
    is the clamped [(output_white - output_black) + output_black] as
    binary64 computes it. *)
Theorem level_array_gamma_zero (pow : float64 -> float64 -> float64)
    (array : list float64) (ib iw ob ow : float64) :
  pow_special_values pow ->
  Binary64.level_array pow array ib iw ob ow (Fin 0)
  = map (fun _ =>
           fclip (Binary64.fadd (Binary64.fsub ow ob) ob) (Fin 0) (Fin 1))
      array.
Proof.
  intros (Hz & _). rewrite level_array_map64. apply map_ext. intros x.
  unfold Binary64.tone_curve. rewrite Hz.
  rewrite fmul_1_l by apply fsub_is_float. reflexivity.
Qed.

(** Absorption: 0.5 added to [- 10 ^ 17] is lost, the spacing of binary64
    values near [10 ^ 17] being 16. *)
Lemma fsub_absorbs :
  Binary64.fsub (Fin (1 / 2)) (Fin (-100000000000000000))
  = Fin 100000000000000000.
Proof.
  rewrite fsub_fin.
  assert (E4 : bpow 4 = 16) by (rewrite bpow_IZR by lia; reflexivity).
  replace (Fin 100000000000000000)
    with (Fin (6250000000000000 * bpow 4)) by (rewrite E4; f_equal; lra).
  apply round64_binade.
  - lia.
  - change (4 + 52)%Z with 56%Z. change (4 + 53)%Z with 57%Z.
    rewrite !bpow_IZR by lia.
    change (2 ^ 56)%Z with 72057594037927936%Z.
    change (2 ^ 57)%Z with 144115188075855872%Z. lra.
  - apply Rrint_near. rewrite E4. lra.
  - rewrite E4. pose proof (bpow_le 57 1024 ltac:(lia)) as H.
    rewrite (bpow_IZR 57) in H by lia.
    change (2 ^ 57)%Z with 144115188075855872%Z in H. lra.
Qed.

Lemma fadd_cancels (x : R) : Binary64.fadd (Fin x) (Fin (- x)) = Fin 0.
Proof.
  cbn [Binary64.fadd]. replace (x + - x) with 0 by lra. exact round64_0.
Qed.

Lemma output_absorbed :
  fclip
    (Binary64.fadd
       (Binary64.fsub (Fin (1 / 2)) (Fin (-100000000000000000)))
       (Fin (-100000000000000000)))
    (Fin 0) (Fin 1)
  = Fin 0.
Proof.
  rewrite fsub_absorbs.
  replace (Fin (-100000000000000000))
    with (Fin (- 100000000000000000)) by (f_equal; lra).
  rewrite fadd_cancels. exact fclip_unit_0.
Qed.

Lemma level_array_gamma_zero_witness :
  Binary64.level_array pow_cr [Fin (1 / 2); NaN; PInf] (Fin (1 / 2))
    (Fin (1 / 2)) (Fin (-100000000000000000)) (Fin (1 / 2)) (Fin 0)
  = [Fin 0; Fin 0; Fin 0].
Proof.
  rewrite (level_array_gamma_zero pow_cr _ _ _ _ _ pow_cr_special_values).
  rewrite output_absorbed. reflexivity.
Defined.

(** X4. In binary64 arithmetic, with the output points inverted
    ([output_white <= output_black]), binary64 input points
    [input_black < input_white], differences that do not overflow, a
    positive gamma and a [pow] monotone in its base for this gamma,
    [level_array] is nonincreasing: ordered inputs give outputs in the
    opposite order. *)
Theorem level_array_antitone (pow : float64 -> float64 -> float64)
    (ib iw ob ow g : R) (xs1 xs2 : list float64) :
  pow_special_values pow -> pow_monotone pow g ->
  representable ib -> representable iw ->
  ib < iw -> ow <= ob -> 0 < g ->
  is_finite (Binary64.fsub (Fin iw) (Fin ib)) ->
  is_finite (Binary64.fsub (Fin ow) (Fin ob)) ->
  Forall2 fle xs1 xs2 ->
  Forall2 fle
    (Binary64.level_array pow xs2 (Fin ib) (Fin iw) (Fin ob) (Fin ow)
       (Fin g))
    (Binary64.level_array pow xs1 (Fin ib) (Fin iw) (Fin ob) (Fin ow)
       (Fin g)).
Proof.
  intros Hsp Hmono Hib Hiw Hi Ho Hg Hd Hw Hxs. rewrite !level_array_map64.
  induction Hxs as [|a b l1 l2 Hab _ IH]; simpl; constructor.
  - apply tone_curve_anti64; assumption.
  - exact IH.
Qed.

Lemma fsub_0_1 : Binary64.fsub (Fin 0) (Fin 1) = Fin (-1).
Proof.
  rewrite fsub_fin. replace (0 - 1) with (-1) by lra.
  apply (representable_IZR (-1)). reflexivity.
Qed.

Lemma level_array_antitone_witness :
  Forall2 fle
    (Binary64.level_array pow_cr [Fin (1 / 2)] (Fin 0) (Fin 1) (Fin 1)
       (Fin 0) (Fin 2))
    (Binary64.level_array pow_cr [Fin (1 / 4)] (Fin 0) (Fin 1) (Fin 1)
       (Fin 0) (Fin 2)).
Proof.
  apply (level_array_antitone pow_cr 0 1 1 0 2).
  - exact pow_cr_special_values.
  - apply pow_cr_monotone. lra.
  - exact representable_0.
  - exact representable_1.
  - lra.
  - lra.
  - lra.
  - exists 1. exact fsub_1_0.
  - exists (-1). exact fsub_0_1.
  - repeat constructor. simpl. lra.
Defined.

(** ** level.py: the lookup table of [level_image] *)

Lemma mapM_pure {A B : Type} (f : A -> M B) (g : A -> B) (l : list A) :
  (forall a, f a = ([], Return (g a))) ->
  mapM f l = ([], Return (map g l)).
Proof.
  intros Hf. induction l as [|a l IH]; [reflexivity |].
  cbn [mapM map]. rewrite Hf, IH. reflexivity.
Qed.


Lemma lookup_concat_uniform {A : Type} (n : nat) (ls : list (list A))
    (b k : nat) (l : list A) :
  Forall (fun l => length l = n) ls ->
  ls !! b = Some l -> (k < n)%nat ->
  concat ls !! (n * b + k)%nat = l !! k.
Proof.
  intros Hall. revert b.
  induction Hall as [|l0 ls Hl0 _ IH]; intros b Hb Hk; [discriminate |].
  destruct b as [|b]; simpl in Hb.
  - injection Hb as ->. cbn [concat].
    rewrite Nat.mul_0_r, lookup_app_l by lia. reflexivity.
  - cbn [concat]. rewrite lookup_app_r by lia.
    replace (n * S b + k - length l0)%nat with (n * b + k)%nat by lia.
    apply IH; assumption.
Qed.

Lemma length_concat_uniform {A : Type} (n : nat) (ls : list (list A)) :
  Forall (fun l => length l = n) ls ->
  length (concat ls) = (n * length ls)%nat.
Proof.
  induction 1 as [|l ls Hl _ IH]; [cbn; lia |].
  cbn [concat length]. rewrite length_app, IH, Hl. lia.
Qed.




(** X6. With no adjustment at all [level_image] raises the ValueError of
    [np.concatenate] and [Image.point] is not reached. *)
Theorem level_image_no_adjustment
    (point : Image.t -> list float64 -> exn + Image.t) (image : Image.t) :
  level_image point image []
  = ([], Raise (ValueError "need at least one array to concatenate")).
Proof. reflexivity. Qed.



(** ** The levels of the lookup table in binary64 arithmetic *)

Lemma bpow_m8 : bpow (-8) = 1 / 256.
Proof. unfold bpow. simpl. lra. Qed.

Lemma bpow_m15 : bpow (-15) = 1 / 32768.
Proof. unfold bpow. simpl. lra. Qed.

(** The rounded step 1/255 lies between 1/256 and 129/32768 < 1/254. *)
Lemma linspace_step :
  exists s, Binary64.fdiv (Fin 1) (Fin 255) = Fin s /\
            1 / 256 <= s <= 129 / 32768 /\ representable s.
Proof.
  cbn [Binary64.fdiv]. destruct (Req_dec_T 255 0) as [E|_]; [lra |].
  destruct (round64_bounds (bpow (-8)) (IZR 129 * bpow (-15)) (1 / 255))
    as (s & Es & Hs).
  - apply representable_bpow. lia.
  - apply representable_scaled; [reflexivity | lia |].
    rewrite bpow_m15, Rabs_pos_eq by lra.
    apply Rlt_le_trans with (bpow 0); [unfold bpow; simpl; lra |].
    apply bpow_le. lia.
  - rewrite bpow_m8, bpow_m15. lra.
  - exists s. rewrite bpow_m8, bpow_m15 in Hs.
    split; [exact Es | split; [lra |]].
    exact (round64_representable _ _ Es).
Qed.

Lemma INR_level (k : nat) : (k < 255)%nat -> 0 <= INR k <= 254.
Proof.
  intros Hk. split; [apply pos_INR |].
  replace 254 with (INR 254) by (rewrite INR_IZR_INZ; reflexivity).
  apply le_INR. lia.
Qed.

Lemma level_of_fin (k : nat) :
  (k < 256)%nat ->
  exists r, Binary64.level_of k = Fin r /\ 0 <= r <= 1 /\ representable r.
Proof.
  intros Hk. unfold Binary64.level_of.
  destruct (Nat.eqb_spec k 255) as [->|Hne].
  { exists 1. split; [reflexivity | split; [lra | exact representable_1]]. }
  destruct linspace_step as (s & -> & Hs & _).
  pose proof (INR_level k ltac:(lia)) as Hi.
  destruct (round64_bounds 0 1 (INR k * s) representable_0 representable_1)
    as (r & Er & Hr); [nra |].
  exists r. cbn [Binary64.fmul].
  split; [exact Er | split; [exact Hr |]].
  exact (round64_representable _ _ Er).
Qed.

Lemma level_of_mono (k1 k2 : nat) :
  (k1 <= k2)%nat -> (k2 < 256)%nat ->
  fle (Binary64.level_of k1) (Binary64.level_of k2).
Proof.
  intros Hle Hk2.
  destruct (level_of_fin k1 ltac:(lia)) as (r1 & E1 & Hr1 & _).
  destruct (Nat.eq_dec k2 255%nat) as [->|Hne2].
  { rewrite E1. unfold Binary64.level_of. simpl. lra. }
  unfold Binary64.level_of.
  destruct (Nat.eqb_spec k1 255) as [->|Hne1]; [lia |].
  destruct (Nat.eqb_spec k2 255) as [->|_]; [contradiction |].
  destruct linspace_step as (s & -> & Hs & _).
  cbn [Binary64.fmul]. apply round64_mono.
  apply le_INR in Hle. nra.
Qed.

Lemma bpow_60 : bpow 60 = 1152921504606846976.
Proof. rewrite bpow_IZR by lia. reflexivity. Qed.

Lemma bpow_m60 : bpow (-60) = / 1152921504606846976.
Proof.
  pose proof (bpow_inv 60) as H. rewrite bpow_60 in H.
  apply Rmult_eq_reg_l with 1152921504606846976; [| lra].
  rewrite Rinv_r by lra. exact H.
Qed.

(** The step of [np.linspace(0, 1, 256)]: the binary64 value of 1/255. *)
Lemma linspace_step_value :
  Binary64.fdiv (Fin 1) (Fin 255)
  = Fin (4521260802379792 * bpow (-60)).
Proof.
  cbn [Binary64.fdiv]. destruct (Req_dec_T 255 0) as [E|_]; [lra |].
  apply round64_binade.
  - lia.
  - change (-60 + 52)%Z with (-8)%Z. change (-60 + 53)%Z with (-7)%Z.
    rewrite bpow_m8. assert (E : bpow (-7) = 1 / 128)
      by (unfold bpow; simpl; lra).
    rewrite E. lra.
  - apply Rrint_near. rewrite Rdiv_bpow. change (- -60)%Z with 60%Z.
    rewrite bpow_60. lra.
  - rewrite bpow_m60. pose proof (bpow_ge_1 1024 ltac:(lia)). lra.
Qed.

Lemma bpow_55 : bpow 55 = 36028797018963968.
Proof. rewrite bpow_IZR by lia. reflexivity. Qed.

Lemma bpow_m55 : bpow (-55) = / 36028797018963968.
Proof.
  pose proof (bpow_inv 55) as H. rewrite bpow_55 in H.
  apply Rmult_eq_reg_l with 36028797018963968; [| lra].
  rewrite Rinv_r by lra. exact H.
Qed.

(** The binary64 value of 0.2. *)
Lemma round64_fifth : round64 (1 / 5) = Fin (7205759403792794 * bpow (-55)).
Proof.
  apply round64_binade.
  - lia.
  - change (-55 + 52)%Z with (-3)%Z. change (-55 + 53)%Z with (-2)%Z.
    assert (E3 : bpow (-3) = 1 / 8) by (unfold bpow; simpl; lra).
    assert (E2 : bpow (-2) = 1 / 4) by (unfold bpow; simpl; lra).
    rewrite E3, E2. lra.
  - apply Rrint_near. rewrite Rdiv_bpow. change (- -55)%Z with 55%Z.
    rewrite bpow_55. lra.
  - rewrite bpow_m55. pose proof (bpow_ge_1 1024 ltac:(lia)). lra.
Qed.

(** Level 51 of [np.linspace(0, 1, 256)] is the binary64 value of 0.2:
    the product of 51 and the rounded step falls halfway between two
    binary64 values and goes to the even one. *)
Lemma level_51 : Binary64.level_of 51 = round64 (1 / 5).
Proof.
  rewrite round64_fifth. unfold Binary64.level_of.
  change (51 =? 255)%nat with false. cbv iota.
  rewrite linspace_step_value. cbn [Binary64.fmul].
  rewrite INR_IZR_INZ. change (Z.of_nat 51) with 51%Z.
  apply round64_binade.
  - lia.
  - change (-55 + 52)%Z with (-3)%Z. change (-55 + 53)%Z with (-2)%Z.
    assert (E3 : bpow (-3) = 1 / 8) by (unfold bpow; simpl; lra).
    assert (E2 : bpow (-2) = 1 / 4) by (unfold bpow; simpl; lra).
    rewrite E3, E2, bpow_m60. lra.
  - rewrite Rdiv_bpow. change (- -55)%Z with 55%Z.
    rewrite bpow_55, bpow_m60.
    replace (51 * (4521260802379792 * / 1152921504606846976)
             * 36028797018963968)
      with (IZR 7205759403792793 + 1 / 2) by lra.
    rewrite Rrint_tie. reflexivity.
  - rewrite bpow_m55. pose proof (bpow_ge_1 1024 ltac:(lia)). lra.
Qed.

(** [np.linspace(0, 1, 256)]. *)
Lemma levels_256_binary64 :
  Binary64.np_linspace (Fin 0) (Fin 1) 256
  = inr (map Binary64.level_of (seq 0 256)).
Proof.
  unfold Binary64.np_linspace.
  change (256 <? 0)%Z with false. change (0 <? 256 - 1)%Z with true.
  change (1 <? 256)%Z with true. change (Z.to_nat 256) with 256%nat.
  change (Z.to_nat (256 - 1)) with 255%nat.
  change (IZR (256 - 1)) with 255. cbv zeta iota.
  rewrite fsub_1_0.
  destruct linspace_step as (s & Es & Hs & _).
  assert (Hz : Binary64.is_zero (Binary64.fdiv (Fin 1) (Fin 255)) = false).
  { rewrite Es. cbn [Binary64.is_zero].
    destruct (Req_dec_T s 0); [lra | reflexivity]. }
  rewrite Hz. f_equal.
  unfold Binary64.np_add, Binary64.np_multiply. rewrite !map_map.
  change (map ?f ?l) with (f <$> l).
  apply list_eq. intros i.
  destruct (Nat.eq_dec i 255%nat) as [->|Hne].
  - rewrite list_lookup_insert_eq
      by (rewrite length_fmap, length_seq; lia).
    rewrite list_lookup_fmap, lookup_seq_lt by lia. reflexivity.
  - rewrite list_lookup_insert_ne by lia.
    rewrite !list_lookup_fmap.
    destruct (seq 0 256 !! i) as [k|] eqn:Ek; [| reflexivity].
    apply lookup_seq in Ek as [-> Hk]. cbn [fmap option_fmap option_map].
    f_equal. unfold Binary64.level_of.
    destruct (Nat.eqb_spec (0 + i) 255) as [E|_]; [lia |].
    apply fadd_0_r, fmul_is_float.
Qed.

(** ** The lookup table in binary64 arithmetic *)

Section TableProperties.

Variable pow : float64 -> float64 -> float64.

(** The table as a whole: for every adjustment its 256 entries, in the
    order of the adjustments. *)
Lemma level_image_table_entries (adjustments : list LevelsAdjustment) :
  adjustments <> [] ->
  Binary64.level_image_table pow adjustments
  = ([], Return
           (concat (map (fun t => map (Binary64.table_entry pow t)
                                    (seq 0 256))
                      adjustments))).
Proof.
  intros Hne. unfold Binary64.level_image_table.
  rewrite (mapM_pure _ (fun t => map (Binary64.table_entry pow t)
                                   (seq 0 256))).
  - destruct adjustments; [contradiction | reflexivity].
  - intros t. rewrite levels_256_binary64, bind_lift_inr. unfold ret.
    rewrite level_array_map64. unfold np_rint, Binary64.np_multiply.
    rewrite !map_map. reflexivity.
Qed.

Lemma level_image_table_entry (adjustments : list LevelsAdjustment)
    (b k : nat) (t : LevelsAdjustment) :
  adjustments !! b = Some t -> (k < 256)%nat ->
  exists table,
    Binary64.level_image_table pow adjustments = ([], Return table) /\
    length table = (256 * length adjustments)%nat /\
    table !! (256 * b + k)%nat = Some (Binary64.table_entry pow t k).
Proof.
  intros Hb Hk.
  assert (Hne : adjustments <> []) by (intros ->; discriminate).
  eexists. split; [apply level_image_table_entries, Hne |].
  assert (Hall : Forall (fun l : list float64 => length l = 256%nat)
                   (map (fun t => map (Binary64.table_entry pow t)
                                    (seq 0 256))
                      adjustments)).
  { apply List.Forall_forall. intros l Hl.
    apply in_map_iff in Hl as (t' & <- & _).
    rewrite length_map, length_seq. reflexivity. }
  split.
  - rewrite (length_concat_uniform 256 _ Hall), length_map. reflexivity.
  - rewrite (lookup_concat_uniform 256 _ b k
               (map (Binary64.table_entry pow t) (seq 0 256)) Hall).
    + change (map ?f ?l) with (f <$> l).
      rewrite list_lookup_fmap, lookup_seq_lt by exact Hk. reflexivity.
    + change (map ?f ?l) with (f <$> l).
      rewrite list_lookup_fmap, Hb. reflexivity.
    + exact Hk.
Qed.

(** Points of the unit interval have finite differences. *)
Lemma unit_difference_finite (a b : R) :
  0 <= a <= 1 -> 0 <= b <= 1 ->
  exists d, Binary64.fsub (Fin a) (Fin b) = Fin d /\ -1 <= d <= 1.
Proof.
  intros Ha Hb. rewrite fsub_fin.
  apply round64_bounds; [| exact representable_1 | lra].
  apply (representable_IZR (-1)). reflexivity.
Qed.

(** The input range of distinct binary64 points is not zero. *)
Lemma input_range_nonzero (ib iw d : R) :
  representable ib -> representable iw -> ib <> iw ->
  Binary64.fsub (Fin iw) (Fin ib) = Fin d -> d <> 0.
Proof.
  intros Hib Hiw Hne Ed. pose proof (bpow_pos (-1074)) as Hb.
  rewrite fsub_fin in Ed.
  destruct (Rlt_dec ib iw) as [Hlt|Hge].
  - pose proof (round64_difference ib iw Hib Hiw Hlt) as H.
    rewrite Ed in H. simpl in H. lra.
  - pose proof (round64_difference iw ib Hiw Hib ltac:(lra)) as H.
    replace (ib - iw) with (- (iw - ib)) in H by lra.
    rewrite round64_opp, Ed in H. simpl in H. lra.
Qed.

(** Away from a zero input range the position of a number or an infinity
    is a binary64 value of the unit interval. *)
Lemma position_range (ib d : R) (x : float64) :
  d <> 0 -> x <> NaN ->
  exists s,
    fclip (Binary64.fdiv (Binary64.fsub x (Fin ib)) (Fin d)) (Fin 0) (Fin 1)
    = Fin s /\ 0 <= s <= 1 /\ representable s.
Proof.
  intros Hd Hx.
  assert (Hxx : fle x x) by (destruct x; simpl; auto; lra).
  destruct (Rlt_dec 0 d) as [Hpos|Hneg].
  - destruct (position_mono ib d x x Hpos Hxx)
      as (s & t & Es & _ & Hst & Ht & Hs & _).
    exists s. split; [exact Es | split; [lra | exact Hs]].
  - pose proof (fdiv_anti _ _ d ltac:(lra) (fsub_mono x x ib Hxx)) as Hq.
    destruct (fclip_unit_mono _ _ Hq) as (s & t & Es & _ & Hst & Ht).
    exists s. split; [exact Es | split; [lra |]].
    exact (fclip_unit_is_float _ s (fdiv_is_float _ _) Es).
Qed.

(** The tone curve of an adjustment within its documented ranges, with
    distinct input points, takes numbers and infinities into the unit
    interval. *)
Lemma tone_curve_unit_range64 (t : LevelsAdjustment) (x : float64) :
  pow_special_values pow -> (forall g, 0 < g -> pow_monotone pow g) ->
  documented t -> input_black t <> input_white t -> x <> NaN ->
  in_range 0 1
    (Binary64.tone_curve pow x (input_black t) (input_white t)
       (output_black t) (output_white t) (gamma t)).
Proof.
  intros Hsp Hmono
    (ib & iw & ob & ow & g & -> & Hib & Hiw & _ & _ & Rib & Riw & Rob & Row
     & Hg) Hne Hx.
  cbn [input_black input_white output_black output_white gamma] in *.
  assert (Hne' : ib <> iw) by congruence.
  unfold Binary64.tone_curve.
  destruct (unit_difference_finite iw ib Riw Rib) as (d & Ed & _).
  destruct (unit_difference_finite ow ob Row Rob) as (w & Ew & _).
  rewrite Ed, Ew.
  pose proof (input_range_nonzero ib iw d Hib Hiw Hne' Ed) as Hd.
  destruct (position_range ib d x Hd Hx) as (s & -> & Hs & Hrs).
  destruct (pow_unit pow s s g Hsp (Hmono g Hg) Hrs Hrs ltac:(lra)
              ltac:(lra) Hg)
    as (p & _ & -> & _ & _ & _).
  assert (Hv : fle (Binary64.fadd (Binary64.fmul (Fin p) (Fin w)) (Fin ob))
                 (Binary64.fadd (Binary64.fmul (Fin p) (Fin w)) (Fin ob))).
  { apply fadd_mono. cbn [Binary64.fmul]. apply round64_mono, Rle_refl. }
  destruct (fclip_unit_mono _ _ Hv) as (u & v & Eu & _ & Huv & Hv1).
  rewrite Eu. simpl. lra.
Qed.

Lemma fmul_255_mono (a b : float64) :
  fle a b ->
  fle (Binary64.fmul a (Fin 255)) (Binary64.fmul b (Fin 255)).
Proof.
  destruct a as [x| | |], b as [y| | |]; cbn [fle Binary64.fmul];
    intros H; try contradiction;
    rewrite ?(Rsign_pos 255) by lra; cbn [sign_mul inf_of fle]; auto.
  - apply round64_mono. lra.
  - apply fle_PInf, round64_not_nan.
  - apply fle_NInf, round64_not_nan.
Qed.

Lemma frint_mono (a b : float64) : fle a b -> fle (frint a) (frint b).
Proof.
  destruct a, b; simpl; auto. intros H. apply IZR_le, Rrint_mono, H.
Qed.

(** An entry computed from a value of the unit interval is an integer
    from 0 to 255. *)
Lemma scaled_uint8 (v : float64) :
  in_range 0 1 v -> is_uint8 (frint (Binary64.fmul v (Fin 255))).
Proof.
  destruct v as [r| | |]; simpl; intros H; try contradiction.
  destruct (round64_bounds 0 255 (r * 255) representable_0
              representable_255 ltac:(lra)) as (u & -> & Hu).
  cbn [frint]. exists (Rrint u). split; [reflexivity |].
  apply Rrint_uint8, Hu.
Qed.

End TableProperties.

(** X5. [level_image] hands [Image.point] a table of 256 entries per
    adjustment: entry [256 * b + k] is the tone curve of adjustment [b] at
    the k-th level of [np.linspace(0, 1, 256)] as numpy computes it ([k]
    times the rounded step 1/255, rounded, and 1 for the last), scaled to
    255 and rounded to an integer; the outcome of [level_image] is that of
    [Image.point] on this table. *)
Theorem level_image_table_layout
    (pow : float64 -> float64 -> float64)
    (point : Image.t -> list float64 -> exn + Image.t) (image : Image.t)
    (adjustments : list LevelsAdjustment) (b k : nat)
    (t : LevelsAdjustment) :
  adjustments !! b = Some t -> (k < 256)%nat ->
  exists table,
    Binary64.level_image pow point image adjustments
    = lift (point image table) /\
    length table = (256 * length adjustments)%nat /\
    table !! (256 * b + k)%nat
    = Some (frint
              (Binary64.fmul
                 (Binary64.tone_curve pow (Binary64.level_of k)
                    (input_black t) (input_white t) (output_black t)
                    (output_white t) (gamma t))
                 (Fin 255))).
Proof.
  intros Hb Hk.
  destruct (level_image_table_entry pow adjustments b k t Hb Hk)
    as (table & Htable & Hlen & Hentry).
  exists table. split; [| split; [exact Hlen | exact Hentry]].
  unfold Binary64.level_image. rewrite Htable. reflexivity.
Qed.

Lemma level_image_table_layout_witness :
  exists table,
    Binary64.level_image pow_cr keep_point gray_pixel [identity_adjustment]
    = lift (keep_point gray_pixel table) /\
    length table = 256%nat /\
    table !! 3%nat
    = Some (frint
              (Binary64.fmul
                 (Binary64.tone_curve pow_cr (Binary64.level_of 3) (Fin 0)
                    (Fin 1) (Fin 0) (Fin 1) (Fin 1))
                 (Fin 255))).
Proof.
  exact (level_image_table_layout pow_cr keep_point gray_pixel
           [identity_adjustment] 0 3 identity_adjustment eq_refl
           ltac:(lia)).
Defined.

Lemma documented_example (g : R) :
  0 < g ->
  documented (mkLevelsAdjustment (Fin 0) (Fin 1) (Fin 0) (Fin 1) (Fin g)).
Proof.
  intros Hg. exists 0, 1, 0, 1, g.
  repeat split;
    auto using representable_0, representable_1; lra.
Qed.

Lemma Fin_0_1 : Fin 0 <> Fin 1.
Proof. intros E. injection E. lra. Qed.

(** X7. When every adjustment lies within its documented ranges (the
    four points binary64 values of [[0, 1]], gamma positive) and has two
    distinct input points, every entry of the table is an integer from 0
    to 255. *)
Theorem level_image_table_uint8
    (pow : float64 -> float64 -> float64)
    (adjustments : list LevelsAdjustment) :
  pow_special_values pow -> (forall g, 0 < g -> pow_monotone pow g) ->
  adjustments <> [] ->
  Forall (fun t => documented t /\ input_black t <> input_white t)
    adjustments ->
  exists table,
    Binary64.level_image_table pow adjustments = ([], Return table) /\
    Forall is_uint8 table.
Proof.
  intros Hsp Hmono Hne Hdoc.
  eexists. split; [apply level_image_table_entries, Hne |].
  apply Forall_concat. apply List.Forall_forall. intros l Hl.
  apply in_map_iff in Hl as (t & <- & Ht).
  rewrite List.Forall_forall in Hdoc. destruct (Hdoc t Ht) as [Hd Hin].
  apply List.Forall_forall. intros v Hv.
  apply in_map_iff in Hv as (k & <- & Hk). apply in_seq in Hk.
  unfold Binary64.table_entry. apply scaled_uint8.
  apply tone_curve_unit_range64; try assumption.
  destruct (level_of_fin k ltac:(lia)) as (r & -> & _). discriminate.
Qed.

Lemma level_image_table_uint8_witness :
  exists table,
    Binary64.level_image_table pow_cr
      [mkLevelsAdjustment (Fin 0) (Fin 1) (Fin 0) (Fin 1) (Fin 2)]
    = ([], Return table) /\
    Forall is_uint8 table.
Proof.
  apply (level_image_table_uint8 pow_cr).
  - exact pow_cr_special_values.
  - intros g Hg. exact (pow_cr_monotone g Hg).
  - discriminate.
  - constructor; [| constructor].
    split; [apply documented_example; lra | exact Fin_0_1].
Defined.

(** X9. An adjustment whose black and white input points both equal the
    k-th level of [np.linspace(0, 1, 256)] as numpy computes it, with a
    gamma other than 0, puts NaN at its entry [k]: the table is then no
    table of 8-bit values. *)
Theorem level_image_table_nan
    (pow : float64 -> float64 -> float64)
    (adjustments : list LevelsAdjustment)
    (b k : nat) (ob ow : float64) (g : R) :
  pow_special_values pow ->
  adjustments !! b
  = Some (mkLevelsAdjustment (Binary64.level_of k) (Binary64.level_of k)
            ob ow (Fin g)) ->
  g <> 0 -> (k < 256)%nat ->
  exists table,
    Binary64.level_image_table pow adjustments = ([], Return table) /\
    table !! (256 * b + k)%nat = Some NaN /\
    ~ Forall is_uint8 table.
Proof.
  intros (_ & _ & _ & Hnan) Hb Hg Hk.
  destruct (level_image_table_entry pow adjustments b k _ Hb Hk)
    as (table & Htable & _ & Hentry).
  assert (E : Binary64.table_entry pow
                (mkLevelsAdjustment (Binary64.level_of k)
                   (Binary64.level_of k) ob ow (Fin g)) k = NaN).
  { unfold Binary64.table_entry, Binary64.tone_curve.
    cbn [input_black input_white output_black output_white gamma].
    destruct (level_of_fin k Hk) as (r & -> & _).
    rewrite fsub_self. cbn [Binary64.fdiv].
    destruct (Req_dec_T 0 0) as [_|Hz]; [| lra].
    rewrite Rsign_zero. cbn [inf_of fclip fmax fmin].
    rewrite (Hnan g Hg). reflexivity. }
  rewrite E in Hentry.
  exists table. split; [exact Htable | split; [exact Hentry |]].
  intros Hall. rewrite Forall_lookup in Hall.
  destruct (Hall _ _ Hentry) as (z & Hz & _). discriminate.
Qed.

Lemma level_image_table_nan_witness :
  exists table,
    Binary64.level_image_table pow_cr
      [mkLevelsAdjustment (round64 (1 / 5)) (round64 (1 / 5)) (Fin 0)
         (Fin 1) (Fin 1)]
    = ([], Return table) /\
    table !! (256 * 0 + 51)%nat = Some NaN /\
    ~ Forall is_uint8 table.
Proof.
  rewrite <- level_51.
  apply (level_image_table_nan pow_cr _ 0 51 (Fin 0) (Fin 1) 1).
  - exact pow_cr_special_values.
  - reflexivity.
  - lra.
  - lia.
Defined.

(** X10. For an adjustment within its documented ranges with
    [input_black < input_white] and [output_black <= output_white], the
    entries of its band never decrease with the level. *)
Theorem level_image_table_monotone
    (pow : float64 -> float64 -> float64)
    (adjustments : list LevelsAdjustment)
    (b k1 k2 : nat) (t : LevelsAdjustment) :
  pow_special_values pow -> (forall g, 0 < g -> pow_monotone pow g) ->
  adjustments !! b = Some t -> documented t ->
  fle (input_black t) (input_white t) ->
  input_black t <> input_white t ->
  fle (output_black t) (output_white t) ->
  (k1 <= k2)%nat -> (k2 < 256)%nat ->
  exists table v1 v2,
    Binary64.level_image_table pow adjustments = ([], Return table) /\
    table !! (256 * b + k1)%nat = Some v1 /\
    table !! (256 * b + k2)%nat = Some v2 /\
    fle v1 v2.
Proof.
  intros Hsp Hmono Hb Hdoc Hi Hne Ho Hk Hk2.
  destruct (level_image_table_entry pow adjustments b k1 _ Hb)
    as (table & Htable & _ & H1); [lia |].
  destruct (level_image_table_entry pow adjustments b k2 _ Hb Hk2)
    as (table' & Htable' & _ & H2).
  assert (table' = table) by congruence. subst table'.
  exists table. eexists. eexists. split; [exact Htable |].
  split; [exact H1 | split; [exact H2 |]].
  destruct Hdoc
    as (ib & iw & ob & ow & g & -> & Hib & Hiw & _ & _ & Rib & Riw & Rob
        & Row & Hg).
  cbn [input_black input_white output_black output_white gamma fle] in *.
  assert (Hlt : ib < iw).
  { destruct (Req_dec_T ib iw) as [E|E]; [| lra]. subst. contradiction. }
  unfold Binary64.table_entry.
  cbn [input_black input_white output_black output_white gamma].
  apply frint_mono, fmul_255_mono.
  apply tone_curve_mono64; try assumption.
  - apply Hmono, Hg.
  - destruct (unit_difference_finite iw ib Riw Rib) as (d & Ed & _).
    exists d. exact Ed.
  - destruct (unit_difference_finite ow ob Row Rob) as (w & Ew & _).
    exists w. exact Ew.
  - apply level_of_mono; assumption.
Qed.

Lemma level_image_table_monotone_witness :
  exists table v1 v2,
    Binary64.level_image_table pow_cr
      [mkLevelsAdjustment (Fin 0) (Fin 1) (Fin 0) (Fin 1) (Fin 2)]
    = ([], Return table) /\
    table !! (256 * 0 + 10)%nat = Some v1 /\
    table !! (256 * 0 + 200)%nat = Some v2 /\
    fle v1 v2.
Proof.
  apply (level_image_table_monotone pow_cr _ 0 10 200
           (mkLevelsAdjustment (Fin 0) (Fin 1) (Fin 0) (Fin 1) (Fin 2))).
  - exact pow_cr_special_values.
  - intros g Hg. exact (pow_cr_monotone g Hg).
  - reflexivity.
  - apply documented_example. lra.
  - simpl. lra.
  - exact Fin_0_1.
  - simpl. lra.
  - lia.
  - lia.
Defined.

(** ** match.py: what [match_images] runs and reports *)

Lemma concat_Permutation {A : Type} (ls ls' : list (list A)) :
  ls ≡ₚ ls' -> concat ls ≡ₚ concat ls'.
Proof.
  induction 1 as [|l ls ls' _ IH|l1 l2 ls|ls1 ls2 ls3 _ IH1 _ IH2];
    cbn [concat].
  - reflexivity.
  - rewrite IH. reflexivity.
  - rewrite !app_assoc. apply Permutation_app_tail, Permutation_app_comm.
  - etransitivity; eassumption.
Qed.

(** The pool runs every pending task exactly once: the events of a run
    are those of the pending tasks, up to order. *)
Lemma run_tasks_events_perm {A : Type} (pick : nat -> nat) (n : nat)
    (pending : list (nat * M A)) (futures : list (outcome A)) :
  length pending = n ->
  fst (run_tasks pick n pending futures)
  ≡ₚ concat ((fun it : nat * M A => events (snd it)) <$> pending).
Proof.
  revert pending futures.
  induction n as [|n IH]; intros pending futures Hlen.
  - destruct pending; [reflexivity | discriminate].
  - cbn [run_tasks].
    assert (Hk : (pick n mod length pending < length pending)%nat)
      by (apply Nat.mod_upper_bound; lia).
    destruct (lookup_lt_is_Some_2 pending _ Hk) as [[i t] Hit].
    rewrite Hit.
    specialize (IH (delete (pick n mod length pending)%nat pending)
                  (<[i := result t]> futures)).
    destruct (run_tasks pick n _ _) as [evs futures'].
    cbn [fst] in *.
    rewrite IH by (rewrite length_delete by eauto; lia).
    rewrite (concat_Permutation _ _
               (fmap_Permutation _ _ _ (delete_Permutation _ _ _ Hit))).
    reflexivity.
Qed.

Lemma submit_all_events_perm {A : Type} (pick : nat -> nat)
    (tasks : list (M A)) :
  events (submit_all pick tasks) ≡ₚ concat (events <$> tasks).
Proof.
  unfold submit_all.
  pose proof (run_tasks_events_perm pick (length tasks)
                (imap (fun i task => (i, task)) tasks)
                (replicate (length tasks) Blocked) (length_imap _ _)) as H.
  destruct (run_tasks pick _ _ _) as [evs futures]. cbn [fst events] in *.
  assert (E : (fun it : nat * M A => events (snd it))
                <$> imap (fun i task => (i, task)) tasks
              = events <$> tasks).
  { apply list_eq. intros j.
    rewrite !list_lookup_fmap, list_lookup_imap.
    destruct (tasks !! j); reflexivity. }
  rewrite H, E. reflexivity.
Qed.

Lemma bind_pure_l {A B : Type} (a : A) (f : A -> M B) :
  bind ([], Return a) f = f a.
Proof. apply bind_ret_l. Qed.

Lemma mapM_print_band (l : list (string * LevelsAdjustment)) :
  mapM (fun badj => print_band (fst badj) (snd badj)) l
  = (map print_line l, Return (map (fun _ => tt) l)).
Proof.
  induction l as [|[b adj] l IH]; [reflexivity |].
  cbn [mapM map]. rewrite IH. unfold print_band, print_line.
  cbn [bind ret fst snd app astuple np_multiply map take].
  rewrite app_nil_r. reflexivity.
Qed.

Section Reporting.

Variable quantile : ndarray -> ndarray -> exn + ndarray.
Variable curve_fit : fit_call -> exn + list float64.
Variable resize : Image.t -> Z * Z -> resample -> exn + Image.t.
Variable pick : nat -> nat.

Lemma resize_to_match_events (x y : Image.t) :
  events (resize_to_match resize x y) = [].
Proof.
  unfold resize_to_match. destruct (decide _); [| reflexivity].
  destruct (resize x _ _) as [e|x1]; [reflexivity |].
  rewrite bind_lift_inr.
  destruct (resize y _ _) as [e|y1]; reflexivity.
Qed.

Lemma resize_to_match_not_blocked (x y : Image.t) :
  result (resize_to_match resize x y) <> Blocked.
Proof.
  unfold resize_to_match. destruct (decide _); [| discriminate].
  destruct (resize x _ _) as [e|x1]; [discriminate |].
  rewrite bind_lift_inr.
  destruct (resize y _ _) as [e|y1]; discriminate.
Qed.

(** The events of [match_bands]: the runs of the pool, then the lines of
    the report, which exist only when every fit returned. *)
Lemma match_bands_events_split (x y : Image.t) (histogram : bool) :
  exists lines,
    events (match_bands quantile curve_fit pick x y histogram)
    = events (submit_all pick
                (channel_tasks quantile curve_fit x y histogram))
      ++ lines
    /\ (forall rs,
           result (match_bands quantile curve_fit pick x y histogram)
           = Return rs ->
           lines = map print_line (zip (Image.getbands x) rs))
    /\ (forall e,
           result (match_bands quantile curve_fit pick x y histogram)
           = Raise e ->
           lines = [])
    /\ Forall (fun ev => is_fit ev = false) lines.
Proof.
  pose proof (submit_all_result pick _
                (channel_tasks_not_blocked quantile curve_fit x y histogram))
    as Hres.
  destruct (outcomes_split
              (result <$> channel_tasks quantile curve_fit x y histogram))
    as [[rs Hrs] | (rs & e & rest & Hrs)].
  { apply Forall_fmap. apply channel_tasks_not_blocked. }
  - exists (map print_line (zip (Image.getbands x) rs)).
    rewrite (match_bands_return quantile curve_fit pick x y histogram rs Hrs).
    split;
      [| split; [intros rs' E; congruence | split; [discriminate |]]].
    2:{ apply List.Forall_forall. intros ev Hev.
        apply in_map_iff in Hev as (badj & <- & _). reflexivity. }
    rewrite match_bands_unfold, (events_bind_return _ _ _ Hres), Hrs.
    f_equal. rewrite mapM_future_result_return, bind_pure_l.
    rewrite mapM_print_band. cbn [bind ret events fst].
    rewrite app_nil_r. reflexivity.
  - exists [].
    rewrite (match_bands_raise quantile curve_fit pick x y histogram rs e
               rest Hrs).
    split; [| split; [discriminate | split; [reflexivity | constructor]]].
    rewrite match_bands_unfold, (events_bind_return _ _ _ Hres), Hrs.
    f_equal. rewrite mapM_future_result_raise. reflexivity.
Qed.

Lemma match_histogram_events_fit (x y : ndarray) (xtol : option float64)
    (samples : option Z) :
  Forall (fun ev => is_fit ev = true)
    (events (match_histogram quantile curve_fit x y xtol samples)).
Proof.
  unfold match_histogram. cbv zeta.
  destruct (np_linspace 0 1 _) as [e|levels]; [constructor |].
  rewrite bind_lift_inr.
  destruct (quantile x levels) as [e|xq]; [constructor |].
  rewrite !bind_lift_inr.
  destruct (quantile y levels) as [e|yq]; [constructor |].
  rewrite bind_lift_inr. unfold run_curve_fit.
  destruct (curve_fit _) as [e|popt]; cbn [of_call bind];
    [repeat constructor |].
  destruct (lift _) as [evs o] eqn:E. unfold lift in E.
  injection E as <- _. repeat constructor.
Qed.

Lemma match_array_events_fit (x y : ndarray) (xtol : option float64)
    (samples : option Z) :
  Forall (fun ev => is_fit ev = true)
    (events (match_array quantile curve_fit x y xtol samples)).
Proof.
  assert (Hpix : forall tol p0,
             Forall (fun ev => is_fit ev = true)
               (events (pixel_fit_spec curve_fit x y tol p0))).
  { intros tol p0. unfold pixel_fit_spec, run_curve_fit.
    destruct (curve_fit _) as [e|popt]; cbn [of_call bind];
      [repeat constructor |].
    destruct (lift _) as [evs o] eqn:E. unfold lift in E.
    injection E as <- _. repeat constructor. }
  destruct (Z_lt_dec (default 2048%Z samples) (ndarray_size x)) as [Hlt|Hge].
  - rewrite match_array_seeded by exact Hlt.
    pose proof (match_histogram_events_fit x y (Some (Fin (1 / 256)))
                  (Some (default 2048%Z samples))) as Hh.
    destruct (match_histogram _ _ _ _ _ _) as [evs [adj|e|]];
      cbn [bind events fst] in *; try exact Hh.
    specialize (Hpix (default (Fin (1 / 1024)) xtol) (astuple adj)).
    destruct (pixel_fit_spec _ _ _ _ _) as [evs' o]. cbn [events fst] in *.
    apply Forall_app. split; assumption.
  - rewrite match_array_unseeded by exact Hge. apply Hpix.
Qed.

Lemma channel_tasks_events_fit (x y : Image.t) (histogram : bool) :
  Forall (fun ev => is_fit ev = true)
    (concat (events <$> channel_tasks quantile curve_fit x y histogram)).
Proof.
  apply Forall_concat. apply Forall_fmap. apply Forall_lookup.
  intros i t Ht.
  apply channel_tasks_lookup_inv in Ht as (bx & by_ & _ & _ & ->).
  unfold channel_fit. destruct histogram; cbn [negb].
  - apply match_histogram_events_fit.
  - apply match_array_events_fit.
Qed.

Lemma submit_all_events_fit (x y : Image.t) (histogram : bool) :
  Forall (fun ev => is_fit ev = true)
    (events (submit_all pick
               (channel_tasks quantile curve_fit x y histogram))).
Proof.
  eapply Permutation_Forall;
    [symmetry; apply submit_all_events_perm
    | apply channel_tasks_events_fit].
Qed.

End Reporting.

(** X11. When [match_images] returns, its events are solver runs followed
    by the report: one printed line per band and result, in band order,
    labelled with the band name and a colon, the four black and white
    points scaled to 255 and gamma unscaled. *)
Theorem match_images_report
    (quantile : ndarray -> ndarray -> exn + ndarray)
    (curve_fit : fit_call -> exn + list float64)
    (resize : Image.t -> Z * Z -> resample -> exn + Image.t)
    (pick : nat -> nat)
    (x y x' y' : Image.t) (histogram : bool)
    (rs : list LevelsAdjustment) :
  result (resize_to_match resize x y) = Return (x', y') ->
  result (match_images quantile curve_fit resize pick x y histogram)
  = Return rs ->
  exists fits,
    events (match_images quantile curve_fit resize pick x y histogram)
    = fits
      ++ map (fun badj : string * LevelsAdjustment =>
                EvPrint (fst badj ++ ":")
                  [fmul (input_black (snd badj)) (Fin 255);
                   fmul (input_white (snd badj)) (Fin 255);
                   fmul (output_black (snd badj)) (Fin 255);
                   fmul (output_white (snd badj)) (Fin 255);
                   gamma (snd badj)])
           (zip (Image.getbands x') rs)
    /\ Forall (fun ev => is_fit ev = true) fits.
Proof.
  intros Hrz Hres.
  rewrite (match_images_result quantile curve_fit resize pick x y x' y'
             histogram Hrz) in Hres.
  rewrite (match_images_events quantile curve_fit resize pick x y x' y'
             histogram Hrz).
  destruct (match_bands_events_split quantile curve_fit pick x' y' histogram)
    as (lines & Hev & Hret & _ & _).
  rewrite (Hret rs Hres) in Hev.
  eexists. split; [exact Hev | apply submit_all_events_fit].
Qed.

Lemma match_images_report_witness :
  exists fits,
    events (match_images (fun _ q => inr q) seed_solver crop_resize
              (fun n => n) gray_pixel gray_pixel false)
    = fits
      ++ map (fun badj : string * LevelsAdjustment =>
                EvPrint (fst badj ++ ":")
                  [fmul (input_black (snd badj)) (Fin 255);
                   fmul (input_white (snd badj)) (Fin 255);
                   fmul (output_black (snd badj)) (Fin 255);
                   fmul (output_white (snd badj)) (Fin 255);
                   gamma (snd badj)])
           (zip (Image.getbands gray_pixel) [identity_adjustment])
    /\ Forall (fun ev => is_fit ev = true) fits.
Proof.
  apply (match_images_report (fun _ q => inr q) seed_solver crop_resize
           (fun n => n) gray_pixel gray_pixel gray_pixel gray_pixel false
           [identity_adjustment]).
  - rewrite resize_to_match_same_size; reflexivity.
  - rewrite (match_images_result (fun _ q => inr q) seed_solver crop_resize
               (fun n => n) gray_pixel gray_pixel gray_pixel gray_pixel false)
      by (rewrite resize_to_match_same_size; reflexivity).
    apply match_bands_return. unfold channel_tasks.
    cbn [Image.split gray_pixel zip_with fmap list_fmap fst snd].
    rewrite channel_fit_seed_solver_small
      by (unfold ndarray_size; cbn [length]; lia).
    reflexivity.
Defined.

(** X12. When [match_images] raises, nothing has been printed: every
    event up to the exception is a solver run. *)
Theorem match_images_failure_silent
    (quantile : ndarray -> ndarray -> exn + ndarray)
    (curve_fit : fit_call -> exn + list float64)
    (resize : Image.t -> Z * Z -> resample -> exn + Image.t)
    (pick : nat -> nat)
    (x y : Image.t) (histogram : bool) (e : exn) :
  result (match_images quantile curve_fit resize pick x y histogram)
  = Raise e ->
  Forall (fun ev => is_fit ev = true)
    (events (match_images quantile curve_fit resize pick x y histogram)).
Proof.
  intros Hres.
  destruct (result (resize_to_match resize x y)) as [[x' y']|e'|] eqn:Hrz.
  - rewrite (match_images_result quantile curve_fit resize pick x y x' y'
               histogram Hrz) in Hres.
    rewrite (match_images_events quantile curve_fit resize pick x y x' y'
               histogram Hrz).
    destruct (match_bands_events_split quantile curve_fit pick x' y'
                histogram) as (lines & Hev & _ & Hraise & _).
    rewrite (Hraise e Hres), app_nil_r in Hev. rewrite Hev.
    apply submit_all_events_fit.
  - unfold match_images.
    pose proof (resize_to_match_events resize x y) as Hev.
    destruct (resize_to_match resize x y) as [evs o].
    cbn [events result fst snd] in *. subst. constructor.
  - exfalso. exact (resize_to_match_not_blocked resize x y Hrz).
Qed.

Lemma match_images_failure_silent_witness :
  Forall (fun ev => is_fit ev = true)
    (events (match_images (fun _ q => inr q) failing_solver crop_resize
               (fun n => n) gray_pixel gray_pixel false)).
Proof.
  apply (match_images_failure_silent (fun _ q => inr q) failing_solver
           crop_resize (fun n => n) gray_pixel gray_pixel false
           (RuntimeError "Optimal parameters not found")).
  rewrite (match_images_result (fun _ q => inr q) failing_solver crop_resize
             (fun n => n) gray_pixel gray_pixel gray_pixel gray_pixel false)
    by (rewrite resize_to_match_same_size; reflexivity).
  apply (match_bands_raise _ _ _ _ _ _ [] _ []). unfold channel_tasks.
  cbn [Image.split gray_pixel zip_with fmap list_fmap fst snd].
  rewrite channel_fit_failing_solver_small
    by (unfold ndarray_size; cbn [length]; lia).
  reflexivity.
Defined.

(** X13. Whatever the outcome, and whatever order the pool completes the
    tasks in, [match_images] runs the fit of every zipped channel pair
    exactly once: its events are, up to order, the events of all channel
    fits, followed by printed lines only.  A fit that raises cancels no
    other fit. *)
Theorem match_images_fits_once
    (quantile : ndarray -> ndarray -> exn + ndarray)
    (curve_fit : fit_call -> exn + list float64)
    (resize : Image.t -> Z * Z -> resample -> exn + Image.t)
    (pick : nat -> nat)
    (x y x' y' : Image.t) (histogram : bool) :
  result (resize_to_match resize x y) = Return (x', y') ->
  exists fits lines,
    events (match_images quantile curve_fit resize pick x y histogram)
    = fits ++ lines
    /\ fits
       ≡ₚ concat
            (map (fun xy : list float64 * list float64 =>
                    events (channel_fit quantile curve_fit histogram
                              (fst xy) (snd xy)))
               (zip (Image.split x') (Image.split y')))
    /\ Forall (fun ev => is_fit ev = false) lines.
Proof.
  intros Hrz.
  rewrite (match_images_events quantile curve_fit resize pick x y x' y'
             histogram Hrz).
  destruct (match_bands_events_split quantile curve_fit pick x' y' histogram)
    as (lines & Hev & _ & _ & Hlines).
  eexists. exists lines. split; [exact Hev | split; [| exact Hlines]].
  rewrite submit_all_events_perm. unfold channel_tasks.
  change (map ?f ?l) with (f <$> l). rewrite <- list_fmap_compose.
  reflexivity.
Qed.

Lemma match_images_fits_once_witness :
  exists fits lines,
    events (match_images (fun _ q => inr q) failing_solver crop_resize
              (fun n => n) gray_alpha_pixel gray_alpha_pixel false)
    = fits ++ lines
    /\ fits
       ≡ₚ concat
            (map (fun xy : list float64 * list float64 =>
                    events (channel_fit (fun _ q => inr q) failing_solver
                              false (fst xy) (snd xy)))
               (zip (Image.split gray_alpha_pixel)
                  (Image.split gray_alpha_pixel)))
    /\ Forall (fun ev => is_fit ev = false) lines.
Proof.
  apply (match_images_fits_once (fun _ q => inr q) failing_solver
           crop_resize (fun n => n) gray_alpha_pixel gray_alpha_pixel
           gray_alpha_pixel gray_alpha_pixel false).
  rewrite resize_to_match_same_size; reflexivity.
Defined.

(** ** match.py: edge behaviour of the two strategies *)

Lemma np_linspace_negative (start stop : R) (n : Z) :
  (n < 0)%Z -> exists msg, np_linspace start stop n = inl (ValueError msg).
Proof.
  intros Hn. unfold np_linspace.
  destruct (Z.ltb_spec n 0) as [_|?]; [| lia]. eexists. reflexivity.
Qed.

(** X14. A negative sample count makes both strategies raise the
    ValueError of [np.linspace] before any quantile is taken or any
    solver run; [match_array] fails in its seeding step, whatever the size
    of the data. *)
Theorem negative_sample_count
    (quantile : ndarray -> ndarray -> exn + ndarray)
    (curve_fit : fit_call -> exn + list float64)
    (x y : ndarray) (xtol : option float64) (n : Z) :
  (n < 0)%Z ->
  exists msg,
    match_histogram quantile curve_fit x y xtol (Some n)
    = ([], Raise (ValueError msg))
    /\ match_array quantile curve_fit x y xtol (Some n)
       = ([], Raise (ValueError msg)).
Proof.
  intros Hn. destruct (np_linspace_negative 0 1 n Hn) as [msg Hmsg].
  exists msg.
  assert (Hh : forall tol,
             match_histogram quantile curve_fit x y tol (Some n)
             = ([], Raise (ValueError msg))).
  { intros tol. unfold match_histogram. cbn [from_option Datatypes.id].
    cbv zeta. rewrite Hmsg. reflexivity. }
  split; [apply Hh |].
  rewrite match_array_seeded
    by (cbn [from_option Datatypes.id]; unfold ndarray_size; lia).
  cbn [from_option Datatypes.id]. rewrite Hh. reflexivity.
Qed.

Lemma negative_sample_count_witness :
  exists msg,
    match_histogram (fun _ q => inr q) seed_solver [Fin 0] [Fin 0] None
      (Some (-1)%Z)
    = ([], Raise (ValueError msg))
    /\ match_array (fun _ q => inr q) seed_solver [Fin 0] [Fin 0] None
         (Some (-1)%Z)
       = ([], Raise (ValueError msg)).
Proof.
  apply (negative_sample_count (fun _ q => inr q) seed_solver [Fin 0]
           [Fin 0] None (-1)).
  lia.
Defined.

(** X15. When [x.size] exceeds the sample count and the seeding histogram
    fit raises, [match_array] raises the same exception and the pixel fit
    is never run: its events are those of the histogram fit alone. *)
Theorem match_array_seed_failure
    (quantile : ndarray -> ndarray -> exn + ndarray)
    (curve_fit : fit_call -> exn + list float64)
    (x y : ndarray) (xtol : option float64) (samples : option Z)
    (e : exn) :
  (default 2048%Z samples < ndarray_size x)%Z ->
  result (match_histogram quantile curve_fit x y (Some (Fin (1 / 256)))
            (Some (default 2048%Z samples)))
  = Raise e ->
  match_array quantile curve_fit x y xtol samples
  = (events (match_histogram quantile curve_fit x y (Some (Fin (1 / 256)))
               (Some (default 2048%Z samples))),
     Raise e).
Proof.
  intros Hlt He. rewrite match_array_seeded by exact Hlt.
  destruct (match_histogram _ _ _ _ _ _) as [evs o].
  cbn [result events fst snd] in *. subst o. reflexivity.
Qed.

Lemma match_array_seed_failure_witness :
  match_array (fun _ q => inr q) failing_solver [Fin 0; Fin 255]
    [Fin 0; Fin 255] None (Some 1%Z)
  = (events (match_histogram (fun _ q => inr q) failing_solver
               [Fin 0; Fin 255] [Fin 0; Fin 255] (Some (Fin (1 / 256)))
               (Some 1%Z)),
     Raise (RuntimeError "Optimal parameters not found")).
Proof.
  apply (match_array_seed_failure (fun _ q => inr q) failing_solver
           [Fin 0; Fin 255] [Fin 0; Fin 255] None (Some 1%Z)).
  - unfold ndarray_size. cbn [from_option Datatypes.id length]. lia.
  - cbn [from_option Datatypes.id].
    rewrite (match_histogram_levels _ _ _ _ _ _ _ np_linspace_single).
    reflexivity.
Defined.

(** X16. [match_histogram] runs the solver at most once and [match_array]
    at most twice, and they log nothing else; when [x.size] does not
    exceed the sample count [match_array] runs it exactly once, from the
    guess (0, 1, 0, 1, 1). *)
Theorem strategy_solver_runs
    (quantile : ndarray -> ndarray -> exn + ndarray)
    (curve_fit : fit_call -> exn + list float64)
    (x y : ndarray) (xtol : option float64) (samples : option Z) :
  (length (events (match_histogram quantile curve_fit x y xtol samples))
   <= 1)%nat
  /\ (length (events (match_array quantile curve_fit x y xtol samples))
      <= 2)%nat
  /\ Forall (fun ev => is_fit ev = true)
       (events (match_histogram quantile curve_fit x y xtol samples)
        ++ events (match_array quantile curve_fit x y xtol samples))
  /\ (~ (default 2048%Z samples < ndarray_size x)%Z ->
      exists c,
        events (match_array quantile curve_fit x y xtol samples) = [EvFit c]
        /\ fit_p0 c = [Fin 0; Fin 1; Fin 0; Fin 1; Fin 1]).
Proof.
  assert (Hh : forall tol n,
             (length (events (match_histogram quantile curve_fit x y tol n))
              <= 1)%nat).
  { intros tol n. unfold match_histogram. cbv zeta.
    destruct (np_linspace 0 1 _) as [e|levels]; [cbn; lia |].
    rewrite bind_lift_inr.
    destruct (quantile x levels) as [e|xq]; [cbn; lia |].
    rewrite !bind_lift_inr.
    destruct (quantile y levels) as [e|yq]; [cbn; lia |].
    rewrite bind_lift_inr. unfold run_curve_fit.
    destruct (curve_fit _) as [e|popt]; cbn [of_call bind];
      [cbn; lia |].
    destruct (lift _) as [evs o] eqn:E. unfold lift in E.
    injection E as <- _. cbn. lia. }
  assert (Hp : forall tol p0,
             exists c,
               events (pixel_fit_spec curve_fit x y tol p0) = [EvFit c]
               /\ fit_p0 c = p0).
  { intros tol p0. unfold pixel_fit_spec, run_curve_fit. eexists.
    destruct (curve_fit _) as [e|popt]; cbn [of_call bind];
      [split; reflexivity |].
    destruct (lift _) as [evs o] eqn:E. unfold lift in E.
    injection E as <- _. split; reflexivity. }
  split; [apply Hh | split; [| split]].
  - destruct (Z_lt_dec (default 2048%Z samples) (ndarray_size x))
      as [Hlt|Hge].
    + rewrite match_array_seeded by exact Hlt.
      specialize (Hh (Some (Fin (1 / 256))) (Some (default 2048%Z samples))).
      destruct (match_histogram _ _ _ _ _ _) as [evs [adj|e|]];
        cbn [bind events fst] in *; try lia.
      destruct (Hp (default (Fin (1 / 1024)) xtol) (astuple adj))
        as (c & Hc & _).
      destruct (pixel_fit_spec _ _ _ _ _) as [evs' o].
      cbn [events fst] in *. subst evs'. rewrite length_app. cbn. lia.
    + rewrite match_array_unseeded by exact Hge.
      destruct (Hp (default (Fin (1 / 1024)) xtol)
                  [Fin 0; Fin 1; Fin 0; Fin 1; Fin 1]) as (c & -> & _).
      cbn. lia.
  - apply Forall_app. split;
      [apply match_histogram_events_fit | apply match_array_events_fit].
  - intros Hge. rewrite match_array_unseeded by exact Hge. apply Hp.
Qed.

(** X17. When the two sizes differ and a resize raises, [match_images]
    raises that exception with no event at all: no fit is run and nothing
    is printed; after a failed resize of the first image the second is
    not resized. *)
Theorem match_images_resize_failure
    (quantile : ndarray -> ndarray -> exn + ndarray)
    (curve_fit : fit_call -> exn + list float64)
    (resize : Image.t -> Z * Z -> resample -> exn + Image.t)
    (pick : nat -> nat)
    (x y : Image.t) (histogram : bool) (e : exn) :
  Image.size x <> Image.size y ->
  let new_size :=
    (Z.min (fst (Image.size x)) (fst (Image.size y)),
     Z.min (snd (Image.size x)) (snd (Image.size y))) in
  (resize x new_size BICUBIC = inl e ->
   match_images quantile curve_fit resize pick x y histogram
   = ([], Raise e))
  /\ (forall x',
         resize x new_size BICUBIC = inr x' ->
         resize y new_size BICUBIC = inl e ->
         match_images quantile curve_fit resize pick x y histogram
         = ([], Raise e)).
Proof.
  intros Hne new_size. unfold match_images, resize_to_match.
  destruct (decide _) as [_|Heq]; [| contradiction].
  cbv zeta. fold new_size. split.
  - intros ->. reflexivity.
  - intros x' -> ->. reflexivity.
Qed.

Lemma match_images_resize_failure_witness :
  match_images (fun _ q => inr q) seed_solver
    (fun _ _ _ => inl (ValueError "height and width must be > 0"))
    (fun n => n) gray_row gray_pixel false
  = ([], Raise (ValueError "height and width must be > 0")).
Proof.
  apply (match_images_resize_failure (fun _ q => inr q) seed_solver
           (fun _ _ _ => inl (ValueError "height and width must be > 0"))
           (fun n => n) gray_row gray_pixel false).
  - simpl. intros H. discriminate H.
  - reflexivity.
Defined.

(** X18. Two images of equal size are fitted as they are: [Image.resize]
    is not called, so the outcome does not depend on it. *)
Theorem match_images_same_size
    (quantile : ndarray -> ndarray -> exn + ndarray)
    (curve_fit : fit_call -> exn + list float64)
    (resize resize' : Image.t -> Z * Z -> resample -> exn + Image.t)
    (pick : nat -> nat)
    (x y : Image.t) (histogram : bool) :
  Image.size x = Image.size y ->
  match_images quantile curve_fit resize pick x y histogram
  = match_images quantile curve_fit resize' pick x y histogram
  /\ match_images quantile curve_fit resize pick x y histogram
     = match_bands quantile curve_fit pick x y histogram.
Proof.
  intros Heq. unfold match_images.
  rewrite !resize_to_match_same_size by exact Heq.
  rewrite bind_pure_l. split; reflexivity.
Qed.

Lemma match_images_same_size_witness :
  match_images (fun _ q => inr q) seed_solver crop_resize (fun n => n)
    gray_pixel gray_pixel false
  = match_bands (fun _ q => inr q) seed_solver (fun n => n) gray_pixel
      gray_pixel false.
Proof.
  apply (match_images_same_size (fun _ q => inr q) seed_solver crop_resize
           crop_resize (fun n => n) gray_pixel gray_pixel false).
  reflexivity.
Defined.

(** ** modes.py: [superset_mode] *)

Lemma mem_In (m : string) (s : list string) :
  Modes.mem m s = true <-> In m s.
Proof.
  unfold Modes.mem. rewrite existsb_exists. split.
  - intros (x & Hx & E). apply String.eqb_eq in E. subst. exact Hx.
  - intros H. exists m. split; [exact H | apply String.eqb_refl].
Qed.

(** The keys of [SUPPORTED_MODES]. *)
Lemma has_key_cases (m : string) :
  Modes.has_key m = true ->
  m = "1"%string \/ m = "L"%string \/ m = "LA"%string \/ m = "P"%string
  \/ m = "RGB"%string \/ m = "PA"%string \/ m = "RGBA"%string.
Proof.
  unfold Modes.has_key. rewrite existsb_exists.
  intros (kv & Hkv & E). apply String.eqb_eq in E. subst m.
  simpl in Hkv.
  repeat (destruct Hkv as [<-|Hkv]; [simpl; tauto |]). contradiction.
Qed.

Lemma has_key_false (m : string) :
  Modes.has_key m = false ->
  String.eqb m "1" = false /\ String.eqb m "L" = false /\
  String.eqb m "LA" = false /\ String.eqb m "P" = false /\
  String.eqb m "RGB" = false /\ String.eqb m "PA" = false /\
  String.eqb m "RGBA" = false.
Proof.
  unfold Modes.has_key, Modes.SUPPORTED_MODES. cbn [existsb fst].
  intros H. repeat (apply orb_false_elim in H as [? H]).
  repeat split; assumption.
Qed.

Lemma getitem_missing (m : string) :
  Modes.has_key m = false -> Modes.getitem m = inl (Modes.KeyError m).
Proof.
  intros H. destruct (has_key_false m H) as (E1 & E2 & E3 & E4 & E5 & E6 & E7).
  unfold Modes.getitem, Modes.SUPPORTED_MODES. cbn [find fst].
  rewrite E1, E2, E3, E4, E5, E6, E7. reflexivity.
Qed.

Lemma getitem_has_key (m : string) (s : list string) :
  Modes.getitem m = inr s -> Modes.has_key m = true.
Proof.
  intros H. destruct (Modes.has_key m) eqn:E; [reflexivity |].
  rewrite (getitem_missing m E) in H. discriminate.
Qed.

(** Case analysis on a mode known to be a key. *)
Ltac key_cases H :=
  apply has_key_cases in H;
  destruct H as [->|[->|[->|[->|[->|[->| ->]]]]]].

Lemma superset_mode_total (mode_1 mode_2 : string) :
  Modes.has_key mode_1 = true -> Modes.has_key mode_2 = true ->
  exists m, Modes.superset_mode mode_1 mode_2 = inr (Some m).
Proof.
  intros H1 H2. key_cases H1; key_cases H2;
    (eexists; vm_compute; reflexivity).
Qed.

(** X19. For two modes that are keys of [SUPPORTED_MODES],
    [superset_mode] returns a mode (never [None]) whose set contains
    both, and that mode is one of 1, L, LA, RGB and RGBA: never a palette
    mode. *)
Theorem superset_mode_supports (mode_1 mode_2 : string) :
  Modes.has_key mode_1 = true -> Modes.has_key mode_2 = true ->
  exists m s,
    Modes.superset_mode mode_1 mode_2 = inr (Some m) /\
    Modes.getitem m = inr s /\
    Modes.mem mode_1 s = true /\ Modes.mem mode_2 s = true /\
    In m Modes.common_modes.
Proof.
  intros H1 H2. key_cases H1; key_cases H2;
    (eexists; eexists;
     split; [vm_compute; reflexivity |];
     split; [vm_compute; reflexivity |];
     split; [reflexivity |];
     split; [reflexivity | simpl; tauto]).
Qed.

Lemma superset_mode_supports_witness :
  exists m s,
    Modes.superset_mode "P" "LA" = inr (Some m) /\
    Modes.getitem m = inr s /\
    Modes.mem "P" s = true /\ Modes.mem "LA" s = true /\
    In m Modes.common_modes.
Proof.
  apply superset_mode_supports; reflexivity.
Defined.

(** X20. [superset_mode] raises KeyError exactly on a mode that is no
    key: on [mode_1] when it is none, on [mode_2] when only it is
    none. *)
Theorem superset_mode_key_error (mode_1 mode_2 : string) :
  (Modes.has_key mode_1 = false ->
   Modes.superset_mode mode_1 mode_2 = inl (Modes.KeyError mode_1))
  /\ (Modes.has_key mode_1 = true -> Modes.has_key mode_2 = false ->
      Modes.superset_mode mode_1 mode_2 = inl (Modes.KeyError mode_2))
  /\ (Modes.has_key mode_1 = true -> Modes.has_key mode_2 = true ->
      forall key,
        Modes.superset_mode mode_1 mode_2 <> inl (Modes.KeyError key)).
Proof.
  split; [| split].
  - intros H. unfold Modes.superset_mode.
    rewrite (getitem_missing mode_1 H). reflexivity.
  - intros H1 H2.
    destruct (has_key_false mode_2 H2)
      as (E1 & E2 & E3 & E4 & E5 & E6 & E7).
    pose proof (getitem_missing mode_2 H2) as Hg.
    key_cases H1; unfold Modes.superset_mode;
      match goal with
      | |- context [Modes.getitem ?k] =>
          let v := eval vm_compute in (Modes.getitem k) in
          change (Modes.getitem k) with v
      end;
      cbv iota; unfold Modes.mem; cbn [existsb];
      rewrite ?E1, ?E2, ?E3, ?E4, ?E5, ?E6, ?E7; cbn [orb];
      rewrite Hg; reflexivity.
  - intros H1 H2 key.
    destruct (superset_mode_total mode_1 mode_2 H1 H2) as [m ->].
    discriminate.
Qed.

(** X21. On keys of [SUPPORTED_MODES], [superset_mode] does not depend on
    the order of its two arguments. *)
Theorem superset_mode_comm (mode_1 mode_2 : string) :
  Modes.has_key mode_1 = true -> Modes.has_key mode_2 = true ->
  Modes.superset_mode mode_1 mode_2 = Modes.superset_mode mode_2 mode_1.
Proof.
  intros H1 H2. key_cases H1; key_cases H2; reflexivity.
Qed.

Lemma superset_mode_comm_witness :
  Modes.superset_mode "LA" "RGB" = Modes.superset_mode "RGB" "LA".
Proof. apply superset_mode_comm; reflexivity. Defined.

(** X22. The mode [superset_mode] returns is the least one: every mode
    whose set contains both arguments also contains the result. *)
Theorem superset_mode_least (mode_1 mode_2 m m' : string)
    (s' : list string) :
  Modes.has_key mode_1 = true -> Modes.has_key mode_2 = true ->
  Modes.superset_mode mode_1 mode_2 = inr (Some m) ->
  Modes.getitem m' = inr s' ->
  Modes.mem mode_1 s' = true -> Modes.mem mode_2 s' = true ->
  Modes.mem m s' = true.
Proof.
  intros H1 H2 Hm Hs' Hm1 Hm2.
  pose proof (getitem_has_key m' s' Hs') as H3.
  key_cases H1; key_cases H2;
    vm_compute in Hm; injection Hm as <-;
    key_cases H3;
    vm_compute in Hs'; injection Hs' as <-;
    first [reflexivity | discriminate Hm1 | discriminate Hm2].
Qed.

Lemma superset_mode_least_witness :
  Modes.mem "RGB" ["1"; "L"; "LA"; "P"; "PA"; "RGB"; "RGBA"]%string = true.
Proof.
  apply (superset_mode_least "L" "P" "RGB" "RGBA"); reflexivity.
Defined.

(** X23. [superset_mode] of a key with itself returns that key, except
    for the palette modes, whose sets are empty: P gives RGB and PA gives
    RGBA. *)
Theorem superset_mode_self (m : string) :
  Modes.has_key m = true ->
  Modes.superset_mode m m
  = inr (Some (if String.eqb m "P" then "RGB"%string
               else if String.eqb m "PA" then "RGBA"%string
                    else m)).
Proof.
  intros H. key_cases H; reflexivity.
Qed.

Lemma superset_mode_self_witness :
  Modes.superset_mode "P" "P" = inr (Some "RGB"%string).
Proof. apply (superset_mode_self "P"). reflexivity. Defined.

(** ** modes.py: [has_alpha] and [is_grayscale] *)

Lemma rows_of_concat (n fuel : nat) (rows : list (list Z)) :
  n <> 0%nat -> Forall (fun row => length row = n) rows ->
  (length rows <= fuel)%nat ->
  Modes.rows_of fuel n (concat rows) = rows.
Proof.
  intros Hn Hall. revert fuel.
  induction Hall as [|row rows Hrow _ IH]; intros fuel Hfuel.
  - destruct fuel; reflexivity.
  - destruct fuel as [|fuel]; [cbn in Hfuel; lia |].
    cbn [concat Modes.rows_of].
    destruct (row ++ concat rows) as [|z l] eqn:E.
    + destruct row; [cbn in Hrow; lia | discriminate].
    + rewrite <- E, <- Hrow.
      rewrite take_app_length, drop_app_length.
      rewrite Hrow. f_equal. apply IH. cbn in Hfuel. lia.
Qed.

Lemma reshape_concat (n : nat) (rows : list (list Z)) :
  n <> 0%nat -> Forall (fun row => length row = n) rows ->
  Modes.reshape (concat rows) n = inr rows.
Proof.
  intros Hn Hall. unfold Modes.reshape.
  destruct (Nat.eqb_spec n 0) as [?|_]; [contradiction |].
  assert (Hlen : length (concat rows) = (length rows * n)%nat).
  { clear Hn. induction Hall as [|row rows Hrow _ IH]; [reflexivity |].
    cbn [concat length]. rewrite length_app, IH, Hrow. lia. }
  rewrite Hlen, Nat.Div0.mod_mul. cbn [Nat.eqb]. f_equal.
  apply rows_of_concat; [exact Hn | exact Hall |].
  destruct n; [contradiction | nia].
Qed.

(** X24. [has_alpha] is False for every mode without an alpha channel,
    whatever the pixels; for LA, PA and RGBA it is True exactly when the
    last value of some pixel is not 255. *)
Theorem has_alpha_spec (im : Modes.image) :
  (Modes.mem (Modes.mode im) Modes.ALPHA_CHANNEL_MODES = false ->
   Modes.has_alpha im = inr false)
  /\ (forall rows,
         Modes.mem (Modes.mode im) Modes.ALPHA_CHANNEL_MODES = true ->
         Modes.asarray im = concat rows ->
         Forall (fun row => length row = String.length (Modes.mode im))
           rows ->
         exists b,
           Modes.has_alpha im = inr b /\
           (b = true <->
            exists row, In row rows /\ List.last row 0%Z <> 255%Z)).
Proof.
  unfold Modes.has_alpha. split.
  - intros ->. reflexivity.
  - intros rows Hmode Hdata Hrows. rewrite Hmode, Hdata.
    rewrite reshape_concat; [| | exact Hrows].
    2:{ apply mem_In in Hmode. simpl in Hmode.
        destruct Hmode as [<-|[<-|[<-|[]]]]; discriminate. }
    destruct (existsb _ _) eqn:E; eexists; (split; [reflexivity |]).
    + split; [intros _ | reflexivity].
      apply existsb_exists in E as (v & Hv & Hne).
      apply in_map_iff in Hv as (row & <- & Hrow).
      exists row. split; [exact Hrow |].
      apply negb_true_iff, Z.eqb_neq in Hne. exact Hne.
    + split; [discriminate |]. intros (row & Hrow & Hne). exfalso.
      assert (Ht : existsb (fun v => negb (v =? 255)%Z)
                     (map (fun row : list Z => List.last row 0%Z) rows)
                   = true).
      { apply existsb_exists. exists (List.last row 0%Z).
        split; [apply in_map_iff; exists row; split;
                  [reflexivity | exact Hrow] |].
        apply negb_true_iff, Z.eqb_neq. exact Hne. }
      congruence.
Qed.

Lemma has_alpha_spec_witness :
  exists b,
    Modes.has_alpha (Modes.mk "LA" None [10; 255; 20; 0]%Z) = inr b /\
    (b = true <->
     exists row,
       In row [[10; 255]; [20; 0]]%Z /\ List.last row 0%Z <> 255%Z).
Proof.
  apply (proj2 (has_alpha_spec (Modes.mk "LA" None [10; 255; 20; 0]%Z))
           [[10; 255]; [20; 0]]%Z); [reflexivity | reflexivity |].
  repeat constructor.
Defined.

Lemma existsb_false_Forall {A : Type} (f : A -> bool) (l : list A) :
  existsb f l = false <-> Forall (fun x => f x = false) l.
Proof.
  induction l as [|a l IH]; cbn [existsb].
  - split; [constructor | reflexivity].
  - rewrite orb_false_iff, IH. split.
    + intros [Ha Hl]. constructor; assumption.
    + intros H. inversion H; subst. split; assumption.
Qed.

(** A pixel of at least three values is gray when green and blue equal
    red. *)
Lemma gray_pixel_test (row : list Z) :
  (3 <= length row)%nat ->
  existsb (fun c => negb (c =? hd 0%Z (take 3 row))%Z) (take 3 row) = false
  <-> nth 1 row 0%Z = nth 0 row 0%Z /\ nth 2 row 0%Z = nth 0 row 0%Z.
Proof.
  intros Hlen.
  destruct row as [|r [|g [|b rest]]]; try (cbn in Hlen; lia).
  cbn [take hd existsb nth]. rewrite Z.eqb_refl. cbn [negb orb].
  rewrite orb_false_r, orb_false_iff, !negb_false_iff, !Z.eqb_eq.
  reflexivity.
Qed.

(** X25. [is_grayscale] answers by the mode alone where it can: True for
    1, L and LA whatever the pixels and the palette, and, for an image
    without palette, a ValueError naming the mode when it is neither RGB
    nor RGBA. *)
Theorem is_grayscale_by_mode
    (palette_path : Modes.image -> list Z -> exn + bool)
    (im : Modes.image) :
  (Modes.mem (Modes.mode im) Modes.GRAYSCALE_MODES = true ->
   Modes.is_grayscale palette_path im = inr true)
  /\ (Modes.mem (Modes.mode im) Modes.GRAYSCALE_MODES = false ->
      Modes.getpalette im = None ->
      Modes.mode im <> "RGB"%string -> Modes.mode im <> "RGBA"%string ->
      Modes.is_grayscale palette_path im
      = inl (Modes.ValueError
               ("Unsupported image mode " ++ Modes.mode im))).
Proof.
  unfold Modes.is_grayscale. split.
  - intros ->. reflexivity.
  - intros -> -> H1 H2.
    apply String.eqb_neq in H1. apply String.eqb_neq in H2.
    rewrite H1, H2. reflexivity.
Qed.

(** X26. For an RGB or RGBA image without palette, [is_grayscale] is True
    exactly when green and blue equal red in every pixel; alpha is not
    looked at. *)
Theorem is_grayscale_pixels
    (palette_path : Modes.image -> list Z -> exn + bool)
    (im : Modes.image) (rows : list (list Z)) :
  Modes.mode im = "RGB"%string \/ Modes.mode im = "RGBA"%string ->
  Modes.getpalette im = None ->
  Modes.asarray im = concat rows ->
  Forall (fun row => length row = String.length (Modes.mode im)) rows ->
  exists b,
    Modes.is_grayscale palette_path im = inr b /\
    (b = true <->
     Forall (fun row => nth 1 row 0%Z = nth 0 row 0%Z
                        /\ nth 2 row 0%Z = nth 0 row 0%Z) rows).
Proof.
  intros Hmode Hpal Hdata Hrows. unfold Modes.is_grayscale.
  rewrite Hpal, Hdata.
  assert (Hlen3 : Forall (fun row : list Z => (3 <= length row)%nat) rows).
  { eapply Forall_impl; [exact Hrows |]. cbn beta. intros row ->.
    destruct Hmode as [-> | ->]; cbn; lia. }
  rewrite reshape_concat; [| | exact Hrows].
  2:{ destruct Hmode as [-> | ->]; discriminate. }
  assert (Hg : Modes.mem (Modes.mode im) Modes.GRAYSCALE_MODES = false)
    by (destruct Hmode as [-> | ->]; reflexivity).
  assert (Hm : negb (String.eqb (Modes.mode im) "RGB")
               && negb (String.eqb (Modes.mode im) "RGBA") = false)
    by (destruct Hmode as [-> | ->]; reflexivity).
  rewrite Hg, Hm. cbv zeta.
  assert (Hiff : existsb
                   (fun color : list Z =>
                      existsb (fun c => negb (c =? hd 0%Z color)%Z) color)
                   (map (take 3) rows) = false
                 <-> Forall (fun row => nth 1 row 0%Z = nth 0 row 0%Z
                                        /\ nth 2 row 0%Z = nth 0 row 0%Z)
                       rows).
  { rewrite existsb_false_Forall. clear Hrows Hdata.
    induction Hlen3 as [|row rows Hrow _ IH]; cbn [map].
    - split; constructor.
    - split; intros H; inversion H; subst; constructor;
        try (apply IH; assumption);
        apply (gray_pixel_test row Hrow); assumption. }
  destruct (existsb _ _) eqn:E; eexists; (split; [reflexivity |]).
  - split; [discriminate |]. intros H. apply Hiff in H. discriminate.
  - split; [intros _; apply Hiff; reflexivity | reflexivity].
Qed.

Lemma is_grayscale_pixels_witness :
  exists b,
    Modes.is_grayscale (fun _ _ => inr true)
      (Modes.mk "RGB" None [7; 7; 7; 200; 200; 200]%Z)
    = inr b /\
    (b = true <->
     Forall (fun row => nth 1 row 0%Z = nth 0 row 0%Z
                        /\ nth 2 row 0%Z = nth 0 row 0%Z)
       [[7; 7; 7]; [200; 200; 200]]%Z).
Proof.
  apply (is_grayscale_pixels (fun _ _ => inr true)
           (Modes.mk "RGB" None [7; 7; 7; 200; 200; 200]%Z)
           [[7; 7; 7]; [200; 200; 200]]%Z);
    [left; reflexivity | reflexivity | reflexivity |].
  repeat constructor.
Defined.

(** ** modes.py: [determine_common_mode] *)

Section CommonMode.

Variable palette_path : Modes.image -> list Z -> exn + bool.
Variable convert : Modes.image -> string -> exn + Modes.image.

(** One turn of the loop: the warning of the image, and the next common
    mode, which changes only when the set of the current one lacks the
    effective mode of the image. *)
Lemma determine_step_eq (c : string) (im : Modes.image) :
  Modes.determine_step palette_path convert (Some c) im
  = (Modes.step_warnings im,
     match Modes.getitem c with
     | inl e => inl e
     | inr s =>
         if Modes.mem (Modes.effective_mode im) s then inr (Some c)
         else
           match Modes.inspected palette_path convert im with
           | inl e => inl e
           | inr e => Modes.superset_mode c e
           end
     end).
Proof.
  unfold Modes.determine_step, Modes.step_warnings, Modes.effective_mode,
    Modes.inspected, Modes.effective_mode.
  destruct (Modes.has_key (Modes.mode im)); cbn [negb];
    unfold Modes.wbind, Modes.wret, Modes.warn, Modes.wlift;
    cbn [app];
    destruct (Modes.getitem c) as [e|s]; try reflexivity;
    destruct (Modes.mem _ s); cbn [negb]; try reflexivity;
    destruct (String.eqb _ _); cbn [negb];
    try (destruct (convert im _) as [e|im']; cbn [Modes.foreign];
         try reflexivity);
    destruct (Modes.is_grayscale palette_path _) as [e|g];
    try reflexivity;
    destruct (Modes.has_alpha _) as [e|a]; try reflexivity.
Qed.

Lemma mem_incl (x : string) (a b : list string) :
  incl a b -> Modes.mem x a = true -> Modes.mem x b = true.
Proof. rewrite !mem_In. intros H Hx. apply H, Hx. Qed.

Lemma effective_mode_key (im : Modes.image) :
  Modes.has_key (Modes.effective_mode im) = true.
Proof.
  unfold Modes.effective_mode.
  destruct (Modes.has_key (Modes.mode im)) eqn:E; [exact E |].
  unfold Modes.fallback_mode.
  repeat (match goal with
          | |- context [if ?b then _ else _] => destruct b
          end); reflexivity.
Qed.

(** What [inspected] can raise and what it can return. *)
Lemma inspected_outcome (im : Modes.image) :
  match Modes.inspected palette_path convert im with
  | inl (Modes.KeyError _) => False
  | inl _ => True
  | inr e => In e ["L"; "RGB"; "LA"; "RGBA"]%string
  end.
Proof.
  assert (Hreshape : forall data n,
             match Modes.reshape data n with
             | inl (Modes.KeyError _) => False
             | _ => True
             end).
  { intros data n. unfold Modes.reshape.
    destruct (n =? 0)%nat; [exact I |].
    destruct (_ =? 0)%nat; exact I. }
  assert (Hgray : forall im',
             match Modes.is_grayscale palette_path im' with
             | inl (Modes.KeyError _) => False
             | _ => True
             end).
  { intros im'. unfold Modes.is_grayscale.
    destruct (Modes.mem _ _); [exact I |].
    destruct (Modes.getpalette im') as [pal|].
    - destruct (palette_path im' pal); exact I.
    - destruct (_ && _); [exact I |].
      specialize (Hreshape (Modes.asarray im')
                    (String.length (Modes.mode im'))).
      destruct (Modes.reshape _ _) as [[| |]|rows]; try exact I;
        try contradiction.
      cbv zeta. destruct (existsb _ _); exact I. }
  assert (Halpha : forall im',
             match Modes.has_alpha im' with
             | inl (Modes.KeyError _) => False
             | _ => True
             end).
  { intros im'. unfold Modes.has_alpha.
    destruct (Modes.mem _ _); [| exact I].
    specialize (Hreshape (Modes.asarray im')
                  (String.length (Modes.mode im'))).
    destruct (Modes.reshape _ _) as [[| |]|rows]; try exact I;
      try contradiction.
    cbv zeta. destruct (existsb _ _); exact I. }
  unfold Modes.inspected.
  destruct (if String.eqb _ _ then _ else _) as [e|im'] eqn:E.
  - destruct (String.eqb _ _); [discriminate |].
    destruct (convert im _); [| discriminate].
    cbn in E. injection E as <-. exact I.
  - specialize (Hgray im'). specialize (Halpha im').
    destruct (Modes.is_grayscale palette_path im') as [[| |]|g];
      try exact I; try contradiction.
    destruct (Modes.has_alpha im') as [[| |]|a];
      try exact I; try contradiction.
    destruct g, a; cbn; tauto.
Qed.

(** Joining an empirical mode to a common mode gives a common mode whose
    set has grown and holds the empirical mode. *)
Lemma superset_mode_grows (c e : string) :
  In c Modes.common_modes -> In e ["L"; "RGB"; "LA"; "RGBA"]%string ->
  exists m sc sm,
    Modes.superset_mode c e = inr (Some m) /\
    In m Modes.common_modes /\
    Modes.getitem c = inr sc /\ Modes.getitem m = inr sm /\
    incl sc sm /\ Modes.mem e sm = true.
Proof.
  intros Hc He. cbn in Hc, He.
  destruct Hc as [<-|[<-|[<-|[<-|[<-|[]]]]]];
    destruct He as [<-|[<-|[<-|[<-|[]]]]];
    (eexists; eexists; eexists;
     split; [vm_compute; reflexivity |];
     split; [cbn; tauto |];
     split; [vm_compute; reflexivity |];
     split; [vm_compute; reflexivity |];
     split; [intros x Hx; cbn in *; tauto | reflexivity]).
Qed.

Lemma common_mode_getitem (c : string) :
  In c Modes.common_modes -> exists s, Modes.getitem c = inr s.
Proof.
  intros Hc. cbn in Hc.
  destruct Hc as [<-|[<-|[<-|[<-|[<-|[]]]]]]; eexists;
    vm_compute; reflexivity.
Qed.

(** The loop from a common mode: it never fails on a dictionary lookup,
    and when it returns, the mode returned is a common mode whose set
    contains the set it started from and supports every image; the
    warnings are those of the images in order. *)
Lemma determine_loop_inv (images : list Modes.image) :
  forall (c : string) (w : list string) (r : Modes.error + option string),
    In c Modes.common_modes ->
    Modes.determine_loop palette_path convert (Some c) images = (w, r) ->
    match r with
    | inl (Modes.KeyError _) => False
    | inl _ => True
    | inr None => False
    | inr (Some m) =>
        In m Modes.common_modes /\
        (exists sc sm,
            Modes.getitem c = inr sc /\ Modes.getitem m = inr sm /\
            incl sc sm) /\
        Forall (Modes.supports palette_path convert m) images /\
        w = flat_map Modes.step_warnings images
    end.
Proof.
  induction images as [|im rest IH]; intros c w r Hc Hrun.
  - cbn in Hrun. injection Hrun as <- <-.
    destruct (common_mode_getitem c Hc) as [s Hs].
    split; [exact Hc | split; [| split; [constructor | reflexivity]]].
    exists s, s. split; [exact Hs | split; [exact Hs | apply incl_refl]].
  - cbn [Modes.determine_loop] in Hrun.
    rewrite determine_step_eq in Hrun.
    destruct (common_mode_getitem c Hc) as [sc Hsc]. rewrite Hsc in Hrun.
    destruct (Modes.mem (Modes.effective_mode im) sc) eqn:Hmem.
    + cbn [Modes.wbind] in Hrun.
      destruct (Modes.determine_loop palette_path convert (Some c) rest)
        as [w' r'] eqn:Hrest.
      injection Hrun as <- <-.
      specialize (IH c w' r' Hc Hrest).
      destruct r' as [[| |]|[m|]]; try exact IH.
      destruct IH as (Hm & (sc' & sm & Hsc' & Hsm & Hincl) & Hall & ->).
      split; [exact Hm | split; [| split; [| reflexivity]]].
      * exists sc', sm. auto.
      * constructor; [| exact Hall].
        exists sm. split; [exact Hsm | left].
        assert (sc' = sc) by congruence. subst sc'.
        apply (mem_incl _ sc); [exact Hincl | exact Hmem].
    + pose proof (inspected_outcome im) as Hins.
      destruct (Modes.inspected palette_path convert im) as [e|e] eqn:Hi.
      * cbn [Modes.wbind] in Hrun. injection Hrun as <- <-. exact Hins.
      * destruct (superset_mode_grows c e Hc Hins)
          as (c' & sc0 & sc' & Hsup & Hc' & Hsc0 & Hsc' & Hincl & Hmeme).
        rewrite Hsup in Hrun. cbn [Modes.wbind] in Hrun.
        destruct (Modes.determine_loop palette_path convert (Some c') rest)
          as [w' r'] eqn:Hrest.
        injection Hrun as <- <-.
        specialize (IH c' w' r' Hc' Hrest).
        destruct r' as [[| |]|[m|]]; try exact IH.
        destruct IH as (Hm & (sc1 & sm & Hsc1 & Hsm & Hincl') & Hall & ->).
        assert (sc1 = sc') by congruence. subst sc1.
        assert (sc0 = sc) by congruence. subst sc0.
        split; [exact Hm | split; [| split; [| reflexivity]]].
        -- exists sc, sm. split; [exact Hsc | split; [exact Hsm |]].
           eapply incl_tran; eassumption.
        -- constructor; [| exact Hall].
           exists sm. split; [exact Hsm | right].
           exists e. split; [exact Hi |].
           apply (mem_incl _ sc'); assumption.
Qed.

Lemma flat_map_step_warnings (images : list Modes.image) :
  flat_map Modes.step_warnings images
  = map (fun im : Modes.image =>
           Modes.warning_message (Modes.mode im)
             (Modes.fallback_mode (Modes.mode im)))
      (List.filter (fun im : Modes.image =>
                      negb (Modes.has_key (Modes.mode im)))
         images).
Proof.
  induction images as [|im rest IH]; [reflexivity |].
  cbn [flat_map List.filter]. unfold Modes.step_warnings at 1.
  destruct (Modes.has_key (Modes.mode im)); cbn [negb map app];
    rewrite IH; reflexivity.
Qed.

End CommonMode.

(** X27. [determine_common_mode] never fails on a lookup of
    [SUPPORTED_MODES] and never returns [None]: when it returns, the mode
    is one of 1, L, LA, RGB and RGBA, whatever modes, palettes and pixels
    the images have. *)
Theorem determine_common_mode_result
    (palette_path : Modes.image -> list Z -> exn + bool)
    (convert : Modes.image -> string -> exn + Modes.image)
    (images : list Modes.image) :
  (forall key,
      snd (Modes.determine_common_mode palette_path convert images)
      <> inl (Modes.KeyError key))
  /\ (forall o,
         snd (Modes.determine_common_mode palette_path convert images)
         = inr o ->
         exists m, o = Some m /\ In m Modes.common_modes).
Proof.
  unfold Modes.determine_common_mode.
  destruct (Modes.determine_loop palette_path convert (Some "1"%string)
              images) as [w r] eqn:Hrun.
  pose proof (determine_loop_inv palette_path convert images "1" w r) as H.
  specialize (H ltac:(cbn; tauto) Hrun). cbn [snd]. split.
  - intros key ->. exact H.
  - intros o ->. destruct o as [m|]; [| contradiction].
    exists m. split; [reflexivity | apply H].
Qed.

(** X28. The mode [determine_common_mode] returns can hold every image:
    its set contains the image's mode (or the fallback of an unsupported
    mode), or the empirical mode found by inspecting the image. *)
Theorem determine_common_mode_supports
    (palette_path : Modes.image -> list Z -> exn + bool)
    (convert : Modes.image -> string -> exn + Modes.image)
    (images : list Modes.image) (w : list string) (m : string) :
  Modes.determine_common_mode palette_path convert images
  = (w, inr (Some m)) ->
  Forall (Modes.supports palette_path convert m) images.
Proof.
  intros Hrun.
  pose proof (determine_loop_inv palette_path convert images "1" w
                (inr (Some m)) ltac:(cbn; tauto) Hrun) as H.
  apply H.
Qed.

(** X29. A completed [determine_common_mode] has warned once for each
    image whose mode is no key of [SUPPORTED_MODES], in the order of the
    images, naming the mode and its fallback, and for no other image. *)
Theorem determine_common_mode_warnings
    (palette_path : Modes.image -> list Z -> exn + bool)
    (convert : Modes.image -> string -> exn + Modes.image)
    (images : list Modes.image) (w : list string) (o : option string) :
  Modes.determine_common_mode palette_path convert images = (w, inr o) ->
  w = map (fun im : Modes.image =>
             Modes.warning_message (Modes.mode im)
               (Modes.fallback_mode (Modes.mode im)))
        (List.filter (fun im : Modes.image =>
                        negb (Modes.has_key (Modes.mode im)))
           images).
Proof.
  intros Hrun.
  pose proof (determine_loop_inv palette_path convert images "1" w
                (inr o) ltac:(cbn; tauto) Hrun) as H.
  destruct o as [m|]; [| contradiction].
  destruct H as (_ & _ & _ & ->). apply flat_map_step_warnings.
Qed.

(** X30. Images in mode 1 are never inspected or converted: for any list
    of them the common mode is 1, with no warning, whatever their
    pixels. *)
Theorem determine_common_mode_bilevel
    (palette_path : Modes.image -> list Z -> exn + bool)
    (convert : Modes.image -> string -> exn + Modes.image)
    (images : list Modes.image) :
  Forall (fun im => Modes.mode im = "1"%string) images ->
  Modes.determine_common_mode palette_path convert images
  = ([], inr (Some "1"%string)).
Proof.
  unfold Modes.determine_common_mode.
  induction 1 as [|im rest Him _ IH]; [reflexivity |].
  cbn [Modes.determine_loop]. rewrite determine_step_eq.
  unfold Modes.step_warnings, Modes.effective_mode. rewrite Him.
  change (Modes.has_key "1") with true. cbv iota.
  change (Modes.getitem "1") with
    (@inr Modes.error (list string) ["1"%string]).
  cbv iota. change (Modes.mem "1" ["1"%string]) with true. cbv iota.
  cbn [Modes.wbind]. rewrite IH. reflexivity.
Qed.

Lemma determine_common_mode_supports_witness :
  Forall
    (Modes.supports (fun _ _ => inr true)
       (fun im m => inr (Modes.mk m (Modes.getpalette im) (Modes.asarray im)))
       "L")
    [Modes.mk "RGB" None [7; 7; 7]%Z; Modes.mk "1" None [1]%Z].
Proof.
  apply (determine_common_mode_supports (fun _ _ => inr true)
           (fun im m =>
              inr (Modes.mk m (Modes.getpalette im) (Modes.asarray im)))
           [Modes.mk "RGB" None [7; 7; 7]%Z; Modes.mk "1" None [1]%Z] []).
  vm_compute. reflexivity.
Defined.

Lemma determine_common_mode_warnings_witness :
  ["Unsupported image mode I;16, converting to L"%string]
  = map (fun im : Modes.image =>
           Modes.warning_message (Modes.mode im)
             (Modes.fallback_mode (Modes.mode im)))
      (List.filter (fun im : Modes.image =>
                      negb (Modes.has_key (Modes.mode im)))
         [Modes.mk "L" None [3]%Z; Modes.mk "I;16" None [9]%Z]).
Proof.
  apply (determine_common_mode_warnings (fun _ _ => inr true)
           (fun im m =>
              inr (Modes.mk m (Modes.getpalette im) (Modes.asarray im)))
           [Modes.mk "L" None [3]%Z; Modes.mk "I;16" None [9]%Z]
           ["Unsupported image mode I;16, converting to L"%string]
           (Some "L"%string)).
  vm_compute. reflexivity.
Defined.

Lemma determine_common_mode_bilevel_witness :
  Modes.determine_common_mode (fun _ _ => inr true)
    (fun im m => inr (Modes.mk m (Modes.getpalette im) (Modes.asarray im)))
    [Modes.mk "1" None [0; 1]%Z; Modes.mk "1" None [1]%Z]
  = ([], inr (Some "1"%string)).
Proof.
  apply determine_common_mode_bilevel. repeat constructor.
Defined.
